(** * TikCrop: smart-crop detection engine and enhancement engine

    A shallow embedding of [services/localSmartCrop] (grayscale, blur,
    Sobel edge mask, contour flood fill, box geometry, candidate selection)
    and of [enhanceImage] from [utils/common], with the properties of the
    design document stated and proved over the embedding.

    Number model.  JavaScript numbers that are integers in the program
    (pixel coordinates, array indices, channel values, box fields) are [Z];
    the few fractional ones (the merge margin, the area thresholds, the
    grayscale mean, the contrast transform) are exact rationals [Q].
    On byte-sized operands the clamped stores agree with IEEE doubles
    (thirds never tie, sixteenths and the products [1.05 * v] at ties are
    exact).  Where rounding can change an answer, in the proximity test
    [shouldMerge] with its fractional margin, module [Double] evaluates the
    same expressions with every operation rounded to the nearest double,
    and [shouldMerge_double_exact] shows where the two evaluations agree.
    [NaN], which arises only from
    reading a typed array out of range, is [None] in an [option].
    A [Uint8ClampedArray] is a [list Z]; a store goes through
    [toUint8Clamp], reads out of range give [None], writes out of range are
    dropped. *)

From Stdlib Require Import ZArith QArith Qabs Qpower Qround Qminmax Lia Lqa Bool String.
From stdpp Require Import base option list.

Local Open Scope Z_scope.

(** ** Numbers and typed arrays *)

Definition Qltb (a b : Q) : bool := negb (Qle_bool b a).

(** ECMAScript [ToUint8Clamp]: clamp to [0,255], round to nearest, ties to
    even. *)
Definition toUint8Clamp (q : Q) : Z :=
  if Qle_bool q 0 then 0
  else if Qle_bool 255 q then 255
  else
    let f := Qfloor q in
    if Qltb (inject_Z f + (1 # 2)) q then f + 1
    else if Qltb q (inject_Z f + (1 # 2)) then f
    else if Z.even f then f else f + 1.

(** Storing a possibly-[NaN] number into a clamped array; [NaN] becomes 0. *)
Definition storeClamped (v : option Q) : Z :=
  match v with Some q => toUint8Clamp q | None => 0 end.

(** [arr[i]]: [None] is JavaScript's [undefined]. *)
Definition readAt {A : Type} (arr : list A) (i : Z) : option A :=
  if i <? 0 then None else arr !! Z.to_nat i.

(** [arr[i] = v] on a typed array: ignored when out of range. *)
Definition writeAt {A : Type} (arr : list A) (i : Z) (v : A) : list A :=
  if i <? 0 then arr else <[Z.to_nat i := v]> arr.

(** [new Uint8ClampedArray(n)]: zero filled. *)
Definition newArray (n : Z) : list Z := replicate (Z.to_nat n) 0.

(** The values taken by [for (let i = lo; i < hi; i++)]. *)
Definition range (lo hi : Z) : list Z := seqZ lo (hi - lo).

(** The values taken by [for (let i = 0; i < len; i += 4)]. *)
Definition range4 (len : Z) : list Z := (fun k => 4 * k) <$> seqZ 0 ((len + 3) / 4).

(** ** Data model *)

Record CropBox := mkBox { box_x : Z; box_y : Z; box_w : Z; box_h : Z }.

Record Point := mkPoint { pt_x : Z; pt_y : Z }.

(** [{ data, width, height }]: used for [ImageData] (4 bytes per pixel) and
    for the single-channel buffers. *)
Record Buffer := mkBuffer { data : list Z; width : Z; height : Z }.

Definition area (b : CropBox) : Z := box_w b * box_h b.

(** ** Box geometry *)

(** [getBoundingRect]: the empty contour gives the zero box.  Otherwise the
    first loop iteration replaces the four infinities by the first point's
    coordinates, and the remaining iterations fold over the rest. *)
Definition boundStep (acc : Z * Z * Z * Z) (point : Point) : Z * Z * Z * Z :=
  let '(minX, minY, maxX, maxY) := acc in
  let minX := if pt_x point <? minX then pt_x point else minX in
  let minY := if pt_y point <? minY then pt_y point else minY in
  let maxX := if maxX <? pt_x point then pt_x point else maxX in
  let maxY := if maxY <? pt_y point then pt_y point else maxY in
  (minX, minY, maxX, maxY).

Definition getBoundingRect (contour : list Point) : CropBox :=
  match contour with
  | [] => mkBox 0 0 0 0
  | p0 :: rest =>
      let '(minX, minY, maxX, maxY) :=
        fold_left boundStep rest (pt_x p0, pt_y p0, pt_x p0, pt_y p0) in
      mkBox minX minY (maxX - minX) (maxY - minY)
  end.

Definition mergeRects (r1 r2 : CropBox) : CropBox :=
  let x := Z.min (box_x r1) (box_x r2) in
  let y := Z.min (box_y r1) (box_y r2) in
  let w := Z.max (box_x r1 + box_w r1) (box_x r2 + box_w r2) - x in
  let h := Z.max (box_y r1 + box_h r1) (box_y r2 + box_h r2) - y in
  mkBox x y w h.

(** The proximity test in exact arithmetic; [Double.shouldMerge] below is
    the same test in doubles. *)
Definition shouldMerge (r1 r2 : CropBox) (margin : Q) : bool :=
  let ex := (inject_Z (box_x r1) - margin)%Q in
  let ey := (inject_Z (box_y r1) - margin)%Q in
  let ew := (inject_Z (box_w r1) + 2 * margin)%Q in
  let eh := (inject_Z (box_h r1) + 2 * margin)%Q in
  Qltb ex (inject_Z (box_x r2 + box_w r2)) &&
  Qltb (inject_Z (box_x r2)) (ex + ew) &&
  Qltb ey (inject_Z (box_y r2 + box_h r2)) &&
  Qltb (inject_Z (box_y r2)) (ey + eh).

(** Inner loop of [mergeNearbyBoxes]: the first [j] among [js] with
    [shouldMerge(boxes[i], boxes[j], margin)]. *)
Fixpoint scanJ (boxes : list CropBox) (margin : Q) (bi : CropBox) (js : list nat)
  : option nat :=
  match js with
  | [] => None
  | j :: js' =>
      match boxes !! j with
      | Some bj => if shouldMerge bi bj margin then Some j else scanJ boxes margin bi js'
      | None => scanJ boxes margin bi js'
      end
  end.

(** Outer loop: the first pair [(i, j)], [i < j], in scan order that merges. *)
Fixpoint scanI (boxes : list CropBox) (margin : Q) (candidates : list nat)
  : option (nat * nat) :=
  match candidates with
  | [] => None
  | i :: rest =>
      match boxes !! i with
      | Some bi =>
          match scanJ boxes margin bi (seq (S i) (length boxes - S i)) with
          | Some j => Some (i, j)
          | None => scanI boxes margin rest
          end
      | None => scanI boxes margin rest
      end
  end.

Definition findPair (boxes : list CropBox) (margin : Q) : option (nat * nat) :=
  scanI boxes margin (seq 0 (length boxes)).

(** [boxes[i] = mergeRects(boxes[i], boxes[j]); boxes.splice(j, 1)]. *)
Definition mergeAt (boxes : list CropBox) (i j : nat) : list CropBox :=
  match boxes !! i, boxes !! j with
  | Some bi, Some bj => delete j (<[i := mergeRects bi bj]> boxes)
  | _, _ => boxes
  end.

(** The [while (merged)] loop; [None] when the fuel runs out. *)
Fixpoint mergeLoop (fuel : nat) (boxes : list CropBox) (margin : Q)
  : option (list CropBox) :=
  match findPair boxes margin with
  | None => Some boxes
  | Some (i, j) =>
      match fuel with
      | O => None
      | S fuel' => mergeLoop fuel' (mergeAt boxes i j) margin
      end
  end.

Definition mergeMargin (imgWidth imgHeight : Z) : Q :=
  (inject_Z (Z.min imgWidth imgHeight) * (5 # 100))%Q.

Definition mergeNearbyBoxes (boxes : list CropBox) (imgWidth imgHeight : Z)
  : option (list CropBox) :=
  if (length boxes <? 2)%nat then Some boxes
  else mergeLoop (length boxes) boxes (mergeMargin imgWidth imgHeight).

(** ** Grayscale reducer *)

(** [data[i] + data[i+1] + data[i+2]]; [NaN] when a read is out of range. *)
Definition channelSum (d : list Z) (i : Z) : option Z :=
  r ← readAt d i; g ← readAt d (i + 1); b ← readAt d (i + 2); Some (r + g + b).

Definition grayStep (d : list Z) (grayData : list Z) (i : Z) : list Z :=
  let avg := (fun s => (inject_Z s / 3)%Q) <$> channelSum d i in
  writeAt grayData (i / 4) (storeClamped avg).

Definition toGrayscale (imageData : Buffer) : Buffer :=
  let d := data imageData in
  let grayData := newArray (width imageData * height imageData) in
  mkBuffer (fold_left (grayStep d) (range4 (Z.of_nat (length d))) grayData)
           (width imageData) (height imageData).

(** ** Blur filter and gradient edge extractor *)

Definition kernelAt (kernel : list Z) (ky kx : Z) : Z :=
  default 0 (readAt kernel ((ky + 1) * 3 + (kx + 1))).

(** The two inner loops over [ky], [kx]: the weighted sum of the 3x3
    window around [(x, y)]; [NaN] as soon as one read is out of range. *)
Definition convolve3 (d : list Z) (w : Z) (kernel : list Z) (x y : Z) : option Z :=
  fold_left (fun sum ky =>
    fold_left (fun sum kx =>
        s ← sum;
        val ← readAt d ((y + ky) * w + (x + kx));
        Some (s + val * kernelAt kernel ky kx))
      (range (-1) 2) sum)
    (range (-1) 2) (Some 0).

Definition gaussKernel : list Z := [1; 2; 1; 2; 4; 2; 1; 2; 1].
Definition kernelWeight : Z := 16.

Definition gaussianBlur (gray : Buffer) : Buffer :=
  let d := data gray in
  let w := width gray in
  let h := height gray in
  let blurredData :=
    fold_left (fun out y =>
      fold_left (fun out x =>
          let sum := convolve3 d w gaussKernel x y in
          writeAt out (y * w + x)
            (storeClamped ((fun s => (inject_Z s / inject_Z kernelWeight)%Q) <$> sum)))
        (range 1 (w - 1)) out)
      (range 1 (h - 1)) (newArray (w * h)) in
  mkBuffer blurredData w h.

Definition sobelX : list Z := [-1; 0; 1; -2; 0; 2; -1; 0; 1].
Definition sobelY : list Z := [-1; -2; -1; 0; 0; 0; 1; 2; 1].

(** [Math.sqrt(n) > threshold] for an integer [n >= 0] and an integer
    threshold, decided without the square root. *)
Definition sqrtExceeds (n threshold : Z) : bool :=
  (threshold <? 0) || (threshold * threshold <? n).

Definition magnitudeExceeds (gx gy : option Z) (threshold : Z) : bool :=
  match gx, gy with
  | Some gx, Some gy => sqrtExceeds (gx * gx + gy * gy) threshold
  | _, _ => false
  end.

Definition cannyEdgeDetector (gray : Buffer) (threshold : Z) : Buffer :=
  let d := data gray in
  let w := width gray in
  let h := height gray in
  let edgeData :=
    fold_left (fun out y =>
      fold_left (fun out x =>
          let gx := convolve3 d w sobelX x y in
          let gy := convolve3 d w sobelY x y in
          if magnitudeExceeds gx gy threshold then writeAt out (y * w + x) 255 else out)
        (range 1 (w - 1)) out)
      (range 1 (h - 1)) (newArray (w * h)) in
  mkBuffer edgeData w h.

(** ** Contour extractor *)

Definition is255 (v : option Z) : bool :=
  match v with Some z => z =? 255 | None => false end.

(** [visited[index]] read as a truth value. *)
Definition isVisited (visited : list bool) (index : Z) : bool :=
  default false (readAt visited index).

(** Body of the [dx] loop for the dequeued [point] and a fixed [dy]. *)
Definition visitNeighbour (binaryImage : Buffer) (point : Point) (dy : Z)
    (st : list bool * list Point) (dx : Z) : list bool * list Point :=
  let '(visited, queue) := st in
  if (dx =? 0) && (dy =? 0) then st
  else
    let nx := pt_x point + dx in
    let ny := pt_y point + dy in
    let nIndex := ny * width binaryImage + nx in
    if (0 <=? nx) && (nx <? width binaryImage) && (0 <=? ny) && (ny <? height binaryImage)
       && is255 (readAt (data binaryImage) nIndex) && negb (isVisited visited nIndex)
    then (writeAt visited nIndex true, queue ++ [mkPoint nx ny])
    else st.

Definition visitNeighbours (binaryImage : Buffer) (point : Point)
    (st : list bool * list Point) : list bool * list Point :=
  fold_left (fun st dy => fold_left (visitNeighbour binaryImage point dy) (range (-1) 2) st)
    (range (-1) 2) st.

(** The [while (queue.length > 0)] loop; [None] when the fuel runs out. *)
Fixpoint floodFill (fuel : nat) (binaryImage : Buffer) (visited : list bool)
    (queue contour : list Point) {struct fuel} : option (list bool * list Point) :=
  match queue with
  | [] => Some (visited, contour)
  | point :: rest =>
      match fuel with
      | O => None
      | S fuel' =>
          let '(visited', queue') := visitNeighbours binaryImage point (visited, rest) in
          floodFill fuel' binaryImage visited' queue' (contour ++ [point])
      end
  end.

(** One flood fill dequeues every pixel at most once. *)
Definition fillFuel (binaryImage : Buffer) : nat :=
  Z.to_nat (width binaryImage * height binaryImage).

(** Body of the [x] loop of the row-major scan, for a fixed [y]. *)
Definition scanPixel (binaryImage : Buffer) (y : Z)
    (st : option (list bool * list (list Point))) (x : Z)
  : option (list bool * list (list Point)) :=
  '(visited, contours) ← st;
  let index := y * width binaryImage + x in
  if is255 (readAt (data binaryImage) index) && negb (isVisited visited index) then
    '(visited', contour) ←
      floodFill (fillFuel binaryImage) binaryImage (writeAt visited index true)
        [mkPoint x y] [];
    Some (visited', contours ++ [contour])
  else Some (visited, contours).

Definition scanRows (binaryImage : Buffer) (st : option (list bool * list (list Point)))
  : option (list bool * list (list Point)) :=
  fold_left (fun st y => fold_left (scanPixel binaryImage y) (range 0 (width binaryImage)) st)
    (range 0 (height binaryImage)) st.

Definition findContours (binaryImage : Buffer) : option (list (list Point)) :=
  let visited := replicate (Z.to_nat (width binaryImage * height binaryImage)) false in
  snd <$> scanRows binaryImage (Some (visited, [])).

(** ** Crop candidate selector *)

(** Outcome of running a body of code: a value, an exception, or the model's
    fuel running out. For the [async] entry points [Ok] is a resolved promise
    and [Thrown] a rejected one. *)
Inductive result (A : Type) : Type :=
  | Ok (a : A)
  | Thrown (msg : string)
  | OutOfFuel.
Arguments Ok {A} a.
Arguments Thrown {A} msg.
Arguments OutOfFuel {A}.

(** What the selector sees of its [HTMLImageElement]: the natural dimensions
    and the RGBA bytes that [getImageData] yields once the image is drawn. *)
Record HTMLImageElement := mkImage {
  naturalWidth : Z;
  naturalHeight : Z;
  raster : list Z
}.

Definition thresholds : list Z := [30; 70].

(** The [for (const threshold of thresholds)] loop. *)
Definition collectContours (blurredData : Buffer) : option (list (list Point)) :=
  fold_left (fun acc threshold =>
      allContours ← acc;
      contours ← findContours (cannyEdgeDetector blurredData threshold);
      Some (allContours ++ contours))
    thresholds (Some []).

Definition exceedsMinArea (w h : Z) (box : CropBox) : bool :=
  let minArea := (inject_Z (w * h) * (15 # 1000))%Q in
  Qltb minArea (inject_Z (box_w box * box_h box)).

(** Lines 201-247 of the [try] block: from the canvas to the merged boxes.
    [Ok None] is an early [return null]. [ctxAvailable] says whether
    [canvas.getContext('2d')] gives a context; [getImageData] throws on an
    empty source rectangle. *)
Definition mergedCandidates (ctxAvailable : bool) (img : HTMLImageElement)
  : result (option (list CropBox)) :=
  if negb ctxAvailable then Thrown "Could not get canvas context"
  else
    let w := naturalWidth img in
    let h := naturalHeight img in
    if (w <=? 0) || (h <=? 0) then Thrown "IndexSizeError"
    else
      let imageData := mkBuffer (raster img) w h in
      let grayData := toGrayscale imageData in
      let blurredData := gaussianBlur grayData in
      match collectContours blurredData with
      | None => OutOfFuel
      | Some allContours =>
          if (length allContours =? 0)%nat then Ok None
          else
            let boxes := getBoundingRect <$> allContours in
            let validBoxes := List.filter (exceedsMinArea w h) boxes in
            if (length validBoxes =? 0)%nat then Ok None
            else
              match mergeNearbyBoxes validBoxes w h with
              | None => OutOfFuel
              | Some mergedBoxes =>
                  if (length mergedBoxes =? 0)%nat then Ok None
                  else Ok (Some mergedBoxes)
              end
      end.

Definition largerBox (largest current : CropBox) : CropBox :=
  if box_w largest * box_h largest <? box_w current * box_h current
  then current else largest.

(** [num / den > q] on JavaScript numbers with integer [num], [den]:
    a zero denominator gives [Infinity], [-Infinity] or [NaN]. *)
Definition ratioExceeds (num den : Z) (q : Q) : bool :=
  if den =? 0 then 0 <? num
  else Qltb q (inject_Z num / inject_Z den).

(** [mergedBoxes.reduce(...)] without an initial value: [None] stands for
    the [TypeError] on an empty array; on ties the earlier box is kept. *)
Definition reduceLargest (mergedBoxes : list CropBox) : option CropBox :=
  match mergedBoxes with
  | [] => None
  | first :: others => Some (fold_left largerBox others first)
  end.

(** Lines 249-262: pick the largest merged box and apply the sanity check. *)
Definition chooseCrop (mergedBoxes : list CropBox) (w h : Z) : result (option CropBox) :=
  match reduceLargest mergedBoxes with
  | None => Thrown "Reduce of empty array with no initial value"
  | Some bestBox =>
      let bestBoxArea := box_w bestBox * box_h bestBox in
      let imageArea := w * h in
      if ratioExceeds bestBoxArea imageArea (95 # 100) then Ok None
      else Ok (Some bestBox)
  end.

Definition tryBlock (ctxAvailable : bool) (img : HTMLImageElement)
  : result (option CropBox) :=
  match mergedCandidates ctxAvailable img with
  | Ok None => Ok None
  | Ok (Some mergedBoxes) => chooseCrop mergedBoxes (naturalWidth img) (naturalHeight img)
  | Thrown msg => Thrown msg
  | OutOfFuel => OutOfFuel
  end.

(** The [catch] logs the error and returns [null]. *)
Definition suggestCropWithEdgeDetection (ctxAvailable : bool) (img : HTMLImageElement)
  : result (option CropBox) :=
  match tryBlock ctxAvailable img with
  | Ok v => Ok v
  | Thrown _ => Ok None
  | OutOfFuel => OutOfFuel
  end.

(** ** Enhancement engine *)

Definition sharpenKernel : list Z := [0; -1; 0; -1; 5; -1; 0; -1; 0].

(** The [k], [l] loops of the sharpening pass for byte offset [i] and
    channel [c]: taps outside the image are skipped; a tap outside the
    array makes the sum [NaN]. *)
Definition sharpenSum (d : list Z) (w h i c : Z) : option Z :=
  fold_left (fun sum k =>
    fold_left (fun sum l =>
        let x := Z.rem (i / 4) w + l in
        let y := (i / 4) / w + k in
        if (0 <=? x) && (x <? w) && (0 <=? y) && (y <? h) then
          let p := (y * w + x) * 4 in
          s ← sum;
          val ← readAt d (p + c);
          Some (s + val * kernelAt sharpenKernel k l)
        else sum)
      (range (-1) 2) sum)
    (range (-1) 2) (Some 0).

(** [Math.max(0, Math.min(255, sum))] stored into the clamped array: an
    integer in range is stored as it is, [NaN] as 0. *)
Definition clampSum (sum : option Z) : Z :=
  match sum with Some s => Z.max 0 (Z.min 255 s) | None => 0 end.

Definition sharpenStep (d : list Z) (w h : Z) (sharpenedData : list Z) (i : Z) : list Z :=
  let sharpenedData :=
    fold_left (fun out c => writeAt out (i + c) (clampSum (sharpenSum d w h i c)))
      (range 0 3) sharpenedData in
  writeAt sharpenedData (i + 3) (default 0 (readAt d (i + 3))).

Definition sharpen (d : list Z) (w h : Z) : list Z :=
  fold_left (sharpenStep d w h) (range4 (Z.of_nat (length d)))
    (newArray (Z.of_nat (length d))).

Definition alpha : Q := 105 # 100.
Definition beta : Q := 10.

(** [Math.max(0, Math.min(255, alpha * v + beta))] stored back into the
    clamped array. *)
Definition adjust (v : option Z) : Z :=
  storeClamped ((fun v => Qmax 0 (Qmin 255 (alpha * inject_Z v + beta))) <$> v).

Definition contrastStep (d : list Z) (i : Z) : list Z :=
  let d := writeAt d i (adjust (readAt d i)) in
  let d := writeAt d (i + 1) (adjust (readAt d (i + 1))) in
  writeAt d (i + 2) (adjust (readAt d (i + 2))).

(** Step 3 of [enhanceImage], in place on the sharpened array. *)
Definition contrastBrightness (d : list Z) : list Z :=
  fold_left contrastStep (range4 (Z.of_nat (length d))) d.

(** What [enhanceImage] depends on outside its own code: whether the blob
    decodes and to which size, whether the two canvases give a 2D context,
    the bytes [getImageData] reads back once the image is drawn at a given
    size (the browser's resampling included), whether [toBlob] succeeds. *)
Record EnhanceInput := mkEnhanceInput {
  decodes : bool;
  imgWidth : Z;
  imgHeight : Z;
  ctxAvailable : bool;
  upscaledCtxAvailable : bool;
  drawn : Z -> Z -> list Z;
  blobCreated : bool
}.

Definition upscaleFactor : Z := 2.

(** Step 1: the working dimensions. *)
Definition workingSize (input : EnhanceInput) : result (Z * Z) :=
  let w := imgWidth input in
  let h := imgHeight input in
  if (h <? 512) || (w <? 512) then
    if negb (upscaledCtxAvailable input)
    then Thrown "Could not get canvas context for upscaling"
    else Ok (w * upscaleFactor, h * upscaleFactor)
  else Ok (w, h).

(** [enhanceImage]: the result is the final canvas, its pixel bytes and its
    dimensions, which [toBlob] encodes as PNG. *)
Definition enhanceImage (input : EnhanceInput) : result Buffer :=
  if negb (decodes input) then Thrown "image failed to load"
  else if negb (ctxAvailable input)
  then Thrown "Could not get canvas context for enhancement"
  else
    match workingSize input with
    | Ok (w, h) =>
        if (w <=? 0) || (h <=? 0) then Thrown "IndexSizeError"
        else
          let d := drawn input w h in
          let d := sharpen d w h in
          let d := contrastBrightness d in
          if negb (Z.of_nat (length d) =? 4 * w * h) then Thrown "InvalidStateError"
          else if blobCreated input then Ok (mkBuffer d w h)
          else Thrown "Failed to create blob from enhanced canvas."
    | Thrown msg => Thrown msg
    | OutOfFuel => OutOfFuel
    end.

(** ** The design document's wording, for comparison *)

(** Unweighted mean of the three channels, truncated and clamped. *)
Definition truncatedMean (r g b : Z) : Z :=
  Z.max 0 (Z.min 255 ((r + g + b) / 3)).

(** [clamp(1.05 * v + 10, 0, 255)] as a number. *)
Definition linearContrast (v : Z) : Q :=
  Qmax 0 (Qmin 255 ((105 # 100) * inject_Z v + 10)).

(** A well-formed RGBA buffer. *)
Definition wellFormedRGBA (imageData : Buffer) : Prop :=
  0 <= width imageData /\ 0 <= height imageData /\
  Z.of_nat (length (data imageData)) = 4 * (width imageData * height imageData) /\
  Forall (fun v => 0 <= v <= 255) (data imageData).

(** ** Specification vocabulary *)

Definition inBounds (binaryImage : Buffer) (p : Point) : Prop :=
  0 <= pt_x p < width binaryImage /\ 0 <= pt_y p < height binaryImage.

(** An edge pixel: a pixel of the mask whose value is 255. *)
Definition isEdgePixel (binaryImage : Buffer) (p : Point) : Prop :=
  inBounds binaryImage p /\
  readAt (data binaryImage) (pt_y p * width binaryImage + pt_x p) = Some 255.

Definition pointIndex (binaryImage : Buffer) (p : Point) : nat :=
  Z.to_nat (pt_y p * width binaryImage + pt_x p).

(** Number of cells of [visited] still unmarked. *)
Definition unvisited (visited : list bool) : nat :=
  length (List.filter negb visited).

(** What the flood fill maintains: [visited] marks exactly the points
    collected so far, each of them once, and all of them edge pixels. *)
Record fillInv (binaryImage : Buffer) (visited : list bool) (pts : list Point) : Prop := {
  inv_length : length visited = fillFuel binaryImage;
  inv_marked : forall p, inBounds binaryImage p ->
      (visited !! pointIndex binaryImage p = Some true <-> p ∈ pts);
  inv_nodup : NoDup pts;
  inv_edge : forall p, p ∈ pts -> isEdgePixel binaryImage p
}.

(** State of the neighbour loops, relative to the points [pre] already
    dequeued or finished and the queue [q0] at loop entry. *)
Definition neighbourInv (binaryImage : Buffer) (pre q0 : list Point) (M : nat)
    (st : list bool * list Point) : Prop :=
  fillInv binaryImage st.1 (pre ++ st.2) /\
  (unvisited st.1 + length st.2 = M)%nat /\
  exists extra, st.2 = q0 ++ extra.

(** The points collected so far by the row-major scan. *)
Definition collected (st : option (list bool * list (list Point))) : list Point :=
  match st with Some (_, contours) => concat contours | None => [] end.

(** State of the row-major scan between two pixels. *)
Definition scanInv (binaryImage : Buffer) (st : option (list bool * list (list Point))) : Prop :=
  exists visited contours,
    st = Some (visited, contours) /\
    fillInv binaryImage visited (concat contours) /\
    Forall (fun c => c <> []) contours.

(** The box invariant of the data model, against an image [W] by [H]. *)
Definition boxInvariant (W H : Z) (b : CropBox) : Prop :=
  0 < box_w b /\ 0 < box_h b /\ 0 <= box_x b /\ 0 <= box_y b /\
  box_x b + box_w b <= W /\ box_y b + box_h b <= H.

(** A contour as [findContours] yields them on a [W] by [H] mask. *)
Definition contourWithin (W H : Z) (c : list Point) : Prop :=
  c <> [] /\ forall p, p ∈ c -> 0 <= pt_x p < W /\ 0 <= pt_y p < H.

(** A box that passed the area filter of an image [W] by [H]. *)
Definition candidateBox (W H : Z) (b : CropBox) : Prop :=
  boxInvariant W H b /\ 15 * (W * H) < 1000 * (box_w b * box_h b).

(** ** Sample inputs *)

Definition grayPixel (v : Z) : list Z := [v; v; v; 255].

(** A 6 by 6 black image with a white 2 by 2 square in the middle. *)
Definition sampleImage : HTMLImageElement :=
  mkImage 6 6
    (mjoin ((fun y => mjoin ((fun x =>
        grayPixel (if (2 <=? x) && (x <=? 3) && (2 <=? y) && (y <=? 3) then 255 else 0))
      <$> range 0 6)) <$> range 0 6)).

(** A decodable 1 by 1 image in a working browser; every read-back is
    mid-gray and opaque. *)
Definition sampleInput : EnhanceInput :=
  mkEnhanceInput true 1 1 true true
    (fun w h => mjoin (replicate (Z.to_nat (w * h)) [128; 128; 128; 255])) true.

Definition sampleOutput : Buffer :=
  mkBuffer (mjoin (replicate 4%nat [255; 255; 255; 255])) 2 2.

(** ** Further vocabulary *)

(** [outer] covers [inner]. *)
Definition contains (outer inner : CropBox) : Prop :=
  box_x outer <= box_x inner /\ box_y outer <= box_y inner /\
  box_x inner + box_w inner <= box_x outer + box_w outer /\
  box_y inner + box_h inner <= box_y outer + box_h outer.

(** The running extremes of [getBoundingRect] after the points [seen]:
    they bound every point seen and each is reached by one of them. *)
Definition extremesOf (seen : list Point) (acc : Z * Z * Z * Z) : Prop :=
  let '(minX, minY, maxX, maxY) := acc in
  (forall p, p ∈ seen -> minX <= pt_x p <= maxX /\ minY <= pt_y p <= maxY) /\
  (exists p, p ∈ seen /\ pt_x p = minX) /\ (exists p, p ∈ seen /\ pt_y p = minY) /\
  (exists p, p ∈ seen /\ pt_x p = maxX) /\ (exists p, p ∈ seen /\ pt_y p = maxY).

(** The reducer's choice among [boxes]: nothing is larger, and nothing
    before it is as large. *)
Definition firstLargest (boxes : list CropBox) (k : nat) (best : CropBox) : Prop :=
  boxes !! k = Some best /\
  (forall b, b ∈ boxes -> area b <= area best) /\
  (forall k' b, (k' < k)%nat -> boxes !! k' = Some b -> area b < area best).

(** Pixels that the blur and the edge extractor compute: all but the
    outermost ring. *)
Definition interior (w h x y : Z) : bool :=
  (1 <=? x) && (x <? w - 1) && (1 <=? y) && (y <? h - 1).

(** The byte the blur stores at an interior pixel. *)
Definition blurValue (d : list Z) (w x y : Z) : Z :=
  storeClamped ((fun s => (inject_Z s / inject_Z kernelWeight)%Q)
                  <$> convolve3 d w gaussKernel x y).

(** Whether the Sobel magnitude at a pixel is above the threshold. *)
Definition gradientExceeds (d : list Z) (w threshold x y : Z) : bool :=
  magnitudeExceeds (convolve3 d w sobelX x y) (convolve3 d w sobelY x y) threshold.

(** A loop body that writes [v] at pixel [(x, y)] when [act x y = Some v]
    and leaves the array alone otherwise. *)
Definition rasterStep (w : Z) (act : Z -> Z -> option Z) (y : Z)
    (out : list Z) (x : Z) : list Z :=
  match act x y with
  | Some v => writeAt out (y * w + x) v
  | None => out
  end.

Definition memZ (a : Z) (l : list Z) : bool := existsb (Z.eqb a) l.

(** A box that keeps off the outermost ring of pixels of a [W] by [H]
    image. *)
Definition insideRing (W H : Z) (b : CropBox) : Prop :=
  1 <= box_x b /\ 1 <= box_y b /\
  box_x b + box_w b <= W - 2 /\ box_y b + box_h b <= H - 2.

(** Two distinct pixels that touch, diagonals included. *)
Definition adjacent (p q : Point) : Prop :=
  p <> q /\ -1 <= pt_x q - pt_x p <= 1 /\ -1 <= pt_y q - pt_y p <= 1.

(** A set of points that holds every edge pixel touching one of its own. *)
Definition closedContour (binaryImage : Buffer) (c : list Point) : Prop :=
  forall p q, p ∈ c -> isEdgePixel binaryImage q -> adjacent p q -> q ∈ c.

(** Every point but the first touches a point listed before it. *)
Definition chained (c : list Point) : Prop :=
  forall k q, (0 < k)%nat -> c !! k = Some q ->
    exists k' p, (k' < k)%nat /\ c !! k' = Some p /\ adjacent p q.

(** State of the row-major scan, with the shape of the finished contours. *)
Definition shapeInv (binaryImage : Buffer) (st : option (list bool * list (list Point))) : Prop :=
  exists visited contours,
    st = Some (visited, contours) /\
    fillInv binaryImage visited (concat contours) /\
    Forall (closedContour binaryImage) contours /\
    Forall chained contours.

(** Channel [c] of pixel [(x, y)] as the sharpening pass sees it: a pixel
    outside the image contributes nothing. *)
Definition tapValue (d : list Z) (w h x y c : Z) : Z :=
  if (0 <=? x) && (x <? w) && (0 <=? y) && (y <? h)
  then default 0 (readAt d ((y * w + x) * 4 + c))
  else 0.

(** Five times the pixel minus its four direct neighbours, clamped. *)
Definition sharpenedValue (d : list Z) (w h x y c : Z) : Z :=
  Z.max 0 (Z.min 255
    (5 * tapValue d w h x y c
     - tapValue d w h (x - 1) y c - tapValue d w h (x + 1) y c
     - tapValue d w h x (y - 1) c - tapValue d w h x (y + 1) c)).

(** The byte the sharpening pass leaves at offset [j]. *)
Definition sharpenedByte (d : list Z) (w h : Z) (j : nat) : Z :=
  if Z.of_nat j mod 4 =? 3 then default 0 (d !! j)
  else clampSum (sharpenSum d w h (4 * (Z.of_nat j / 4)) (Z.of_nat j mod 4)).

(** The scale of the working canvas of [enhanceImage]. *)
Definition workingFactor (input : EnhanceInput) : Z :=
  if (imgHeight input <? 512) || (imgWidth input <? 512) then 2 else 1.

(** ** The caller of the selector: [useAutoCropModel] *)

(** [Math.round]: the nearest integer, halves going up. *)
Definition mathRound (q : Q) : Z := Qfloor (q + (1 # 2)).

(** Lines 137-152 of [predict]: pad the suggestion by 2% of its smaller
    side and cut the result at the right and bottom image borders. *)
Definition padCrop (w h : Z) (suggestedCrop : CropBox) : CropBox :=
  let padding :=
    (inject_Z (Z.min (box_w suggestedCrop) (box_h suggestedCrop)) * (2 # 100))%Q in
  let x := Z.max 0 (mathRound (inject_Z (box_x suggestedCrop) - padding)) in
  let y := Z.max 0 (mathRound (inject_Z (box_y suggestedCrop) - padding)) in
  let cw := mathRound (inject_Z (box_w suggestedCrop) + padding * 2) in
  let ch := mathRound (inject_Z (box_h suggestedCrop) + padding * 2) in
  let cw := if w <? x + cw then w - x else cw in
  let ch := if h <? y + ch then h - y else ch in
  mkBox x y cw ch.

Definition predict (isModelReady ctx : bool) (img : HTMLImageElement) : result CropBox :=
  if negb isModelReady then Thrown "Processing engine is not ready."
  else
    let w := naturalWidth img in
    let h := naturalHeight img in
    let fallbackCrop := mkBox 0 0 w h in
    match suggestCropWithEdgeDetection ctx img with
    | Ok None => Ok fallbackCrop
    | Ok (Some suggestedCrop) =>
        if (box_w suggestedCrop <=? 0) || (box_h suggestedCrop <=? 0)
        then Ok fallbackCrop
        else Ok (padCrop w h suggestedCrop)
    | Thrown msg => Thrown msg
    | OutOfFuel => OutOfFuel
    end.

(** ** Crop history of an item ([App]) *)

(** The fields of an [ImgItem] that the crop handlers read or write; their
    other fields are copied as they are by the object spread. [None] is a
    field that is not set. *)
Record ImgItem := mkItem {
  item_id : string;
  item_width : option Z;
  item_height : option Z;
  crop : option CropBox;
  cropHistory : option (list CropBox);
  cropHistoryIndex : option Z;
  item_error : option string
}.

(** [arr.slice(0, finish)]: a negative [finish] counts from the end. *)
Definition sliceTo {A : Type} (arr : list A) (finish : Z) : list A :=
  if finish <? 0
  then take (Z.to_nat (Z.max 0 (Z.of_nat (length arr) + finish))) arr
  else take (Z.to_nat finish) arr.

(** [updateItemCrop]: cut the history after the current index, push the
    new crop, point the index at it, clear the error. *)
Definition updateItemCrop (item : ImgItem) (newCrop : CropBox)
    (dimensions : option (Z * Z)) : ImgItem :=
  let history :=
    sliceTo (default [] (cropHistory item)) (default 0 (cropHistoryIndex item) + 1)
    ++ [newCrop] in
  mkItem (item_id item)
    (match dimensions with Some (w, _) => Some w | None => item_width item end)
    (match dimensions with Some (_, h) => Some h | None => item_height item end)
    (Some newCrop)
    (Some history)
    (Some (Z.of_nat (length history) - 1))
    None.

(** The item update inside [handleUndo]; an unset index compares false. *)
Definition undoItem (item : ImgItem) : ImgItem :=
  match cropHistory item, cropHistoryIndex item with
  | Some history, Some index =>
      if 0 <? index then
        let newIndex := index - 1 in
        mkItem (item_id item) (item_width item) (item_height item)
          (readAt history newIndex) (Some history) (Some newIndex) (item_error item)
      else item
  | _, _ => item
  end.

(** The item update inside [handleRedo]. *)
Definition redoItem (item : ImgItem) : ImgItem :=
  match cropHistory item, cropHistoryIndex item with
  | Some history, Some index =>
      if index <? Z.of_nat (length history) - 1 then
        let newIndex := index + 1 in
        mkItem (item_id item) (item_width item) (item_height item)
          (readAt history newIndex) (Some history) (Some newIndex) (item_error item)
      else item
  | _, _ => item
  end.

Definition handleUndo (id : string) (items : list ImgItem) : list ImgItem :=
  (fun item => if String.eqb (item_id item) id then undoItem item else item) <$> items.

Definition handleRedo (id : string) (items : list ImgItem) : list ImgItem :=
  (fun item => if String.eqb (item_id item) id then redoItem item else item) <$> items.

(** [canUndo] and [canRedo] as the editor receives them. *)
Definition canUndo (item : ImgItem) : bool :=
  0 <? default 0 (cropHistoryIndex item).

Definition canRedo (item : ImgItem) : bool :=
  default 0 (cropHistoryIndex item)
    <? match cropHistory item with
       | Some history => Z.of_nat (length history)
       | None => 1
       end - 1.

(** An item at rest: the index points into the history, at the crop shown. *)
Definition historyAt (item : ImgItem) (history : list CropBox) (index : Z) : Prop :=
  cropHistory item = Some history /\ cropHistoryIndex item = Some index /\
  0 <= index < Z.of_nat (length history) /\
  crop item = readAt history index.

(** ** Double-precision evaluation of the proximity test *)

(** [shouldMerge] above computes with exact rationals. The source computes
    in IEEE 754 binary64: every [+], [-] and [*] returns the double nearest
    to the exact result, ties going to the even significand. The module
    below evaluates the same expressions that way; a double is the
    rational it denotes. No value reaches 2^1024 here, so overflow to
    [Infinity] is left out. *)
Module Double.

Definition pow2 (e : Z) : Q := (2 ^ e)%Q.

(** [floor (log2 |q|)], for [q] other than 0. *)
Definition exponentOf (q : Q) : Z :=
  let e := Z.log2 (Z.abs (Qnum q)) - Z.log2 (Zpos (Qden q)) in
  if Qltb (Qabs q) (pow2 e) then e - 1 else e.

(** The spacing of the doubles around [q]: 53 significant bits, and the
    constant spacing 2^-1074 of the subnormal range below 2^-1022. *)
Definition ulp (q : Q) : Q := pow2 (Z.max (exponentOf q - 52) (-1074)).

(** Nearest integer, ties to even. *)
Definition roundEven (q : Q) : Z :=
  let f := Qfloor q in
  if Qltb (inject_Z f + (1 # 2)) q then f + 1
  else if Qltb q (inject_Z f + (1 # 2)) then f
  else if Z.even f then f else f + 1.

(** The double nearest to [q]. *)
Definition round (q : Q) : Q := (inject_Z (roundEven (q / ulp q)) * ulp q)%Q.

Definition add (a b : Q) : Q := round (a + b).
Definition sub (a b : Q) : Q := round (a - b).
Definition mul (a b : Q) : Q := round (a * b).

(** [Math.min(imgWidth, imgHeight) * 0.05]; the literal [0.05] denotes the
    double nearest to 1/20. *)
Definition mergeMargin (imgWidth imgHeight : Z) : Q :=
  mul (inject_Z (Z.min imgWidth imgHeight)) (round (5 # 100)).

(** [shouldMerge] with every operation rounded; [margin] is a double, the
    box fields are integers. *)
Definition shouldMerge (r1 r2 : CropBox) (margin : Q) : bool :=
  let ex := sub (inject_Z (box_x r1)) margin in
  let ey := sub (inject_Z (box_y r1)) margin in
  let ew := add (inject_Z (box_w r1)) (mul 2 margin) in
  let eh := add (inject_Z (box_h r1)) (mul 2 margin) in
  Qltb ex (add (inject_Z (box_x r2)) (inject_Z (box_w r2))) &&
  Qltb (inject_Z (box_x r2)) (add ex ew) &&
  Qltb ey (add (inject_Z (box_y r2)) (inject_Z (box_h r2))) &&
  Qltb (inject_Z (box_y r2)) (add ey eh).

End Double.

(** The largest coordinate and image side the agreement below is proved
    for; browsers refuse canvases far smaller than this. *)
Definition maxCoord : Z := 4194304.

Definition feasibleBox (b : CropBox) : Prop :=
  (- maxCoord <= box_x b <= maxCoord) /\ (- maxCoord <= box_y b <= maxCoord) /\
  (0 <= box_w b <= maxCoord) /\ (0 <= box_h b <= maxCoord).

(** A margin that is an integer, or at least 2^-25 away from every
    integer: rounding then cannot move a sum across an integer. *)
Definition clearMargin (m : Q) : Prop :=
  exists i : Z,
    (m == inject_Z i \/
     inject_Z i + (1 # 33554432) <= m <= inject_Z i + 1 - (1 # 33554432))%Q.

(* ================================================================== *)
(** * Properties *)

Lemma Qltb_lt (a b : Q) : Qltb a b = true <-> (a < b)%Q.
Proof.
  unfold Qltb. rewrite negb_true_iff. split.
  - intros H. apply Qnot_le_lt. intros Hle. apply Qle_bool_iff in Hle. congruence.
  - intros H. destruct (Qle_bool b a) eqn:E; [|done].
    apply Qle_bool_iff in E. exfalso. eapply Qlt_not_le; eauto.
Qed.

Lemma shouldMerge_spec (r1 r2 : CropBox) (m : Q) :
  shouldMerge r1 r2 m = true <->
  (inject_Z (box_x r1) - m < inject_Z (box_x r2) + inject_Z (box_w r2) /\
   inject_Z (box_x r2) < inject_Z (box_x r1) + inject_Z (box_w r1) + m /\
   inject_Z (box_y r1) - m < inject_Z (box_y r2) + inject_Z (box_h r2) /\
   inject_Z (box_y r2) < inject_Z (box_y r1) + inject_Z (box_h r1) + m)%Q.
Proof.
  unfold shouldMerge. cbv zeta. rewrite !andb_true_iff, !Qltb_lt, !inject_Z_plus.
  split; intros H; repeat split; try lra.
Qed.

(** ** The merge loop *)

Lemma scanJ_Some boxes m bi js j :
  scanJ boxes m bi js = Some j ->
  j ∈ js /\ exists bj, boxes !! j = Some bj /\ shouldMerge bi bj m = true.
Proof.
  induction js as [|k js IH]; simpl; [done|].
  destruct (boxes !! k) as [bk|] eqn:Ek.
  - destruct (shouldMerge bi bk m) eqn:Es.
    + intros [= <-]. split; [left|]. eauto.
    + intros H. destruct (IH H) as [? ?]. split; [by right|done].
  - intros H. destruct (IH H) as [? ?]. split; [by right|done].
Qed.

Lemma scanI_Some boxes m cands i j :
  scanI boxes m cands = Some (i, j) ->
  exists bi bj, boxes !! i = Some bi /\ boxes !! j = Some bj /\ (i < j)%nat
    /\ shouldMerge bi bj m = true.
Proof.
  induction cands as [|k cands IH]; simpl; [done|].
  destruct (boxes !! k) as [bk|] eqn:Ek; [|done].
  destruct (scanJ boxes m bk _) as [j'|] eqn:Ej; [|done].
  intros [= <- <-]. apply scanJ_Some in Ej as [Hin (bj & Hj & Hs)].
  exists bk, bj. repeat split; try done.
  apply elem_of_seq in Hin. lia.
Qed.

Lemma findPair_Some boxes m i j :
  findPair boxes m = Some (i, j) ->
  exists bi bj, boxes !! i = Some bi /\ boxes !! j = Some bj /\ (i < j)%nat
    /\ shouldMerge bi bj m = true.
Proof. apply scanI_Some. Qed.

Lemma mergeAt_length boxes m i j :
  findPair boxes m = Some (i, j) -> S (length (mergeAt boxes i j)) = length boxes.
Proof.
  intros (bi & bj & Hi & Hj & Hlt & _)%findPair_Some.
  unfold mergeAt. rewrite Hi, Hj.
  apply lookup_lt_Some in Hj as Hlen.
  rewrite length_delete.
  - rewrite length_insert. lia.
  - apply lookup_lt_is_Some. by rewrite length_insert.
Qed.

(** The loop stops only on a list without a mergeable pair. *)
Lemma mergeLoop_stable fuel boxes m out :
  mergeLoop fuel boxes m = Some out -> findPair out m = None.
Proof.
  revert boxes. induction fuel as [|fuel IH]; intros boxes; simpl.
  - destruct (findPair boxes m) as [[i j]|] eqn:E; [done|]. by intros [= <-].
  - destruct (findPair boxes m) as [[i j]|] eqn:E; [apply IH|]. by intros [= <-].
Qed.

Lemma mergeLoop_fixpoint fuel boxes m :
  findPair boxes m = None -> mergeLoop fuel boxes m = Some boxes.
Proof. intros H. destruct fuel; simpl; by rewrite H. Qed.

(** Every merge removes one box, so [length boxes] rounds of fuel suffice. *)
Lemma mergeLoop_terminates fuel boxes m :
  (length boxes <= S fuel)%nat -> is_Some (mergeLoop fuel boxes m).
Proof.
  revert boxes. induction fuel as [|fuel IH]; intros boxes Hlen; simpl.
  - destruct (findPair boxes m) as [[i j]|] eqn:E; [|done].
    apply findPair_Some in E as (bi & bj & Hi%lookup_lt_Some & Hj%lookup_lt_Some & Hlt & _).
    lia.
  - destruct (findPair boxes m) as [[i j]|] eqn:E; [|done].
    apply IH. apply (mergeAt_length _ m) in E. lia.
Qed.

Lemma mergeNearbyBoxes_stable boxes W H out :
  mergeNearbyBoxes boxes W H = Some out ->
  (length out < 2)%nat \/ findPair out (mergeMargin W H) = None.
Proof.
  unfold mergeNearbyBoxes. destruct (length boxes <? 2)%nat eqn:E.
  - intros [= <-]. left. by apply Nat.ltb_lt.
  - intros Hl. right. by eapply mergeLoop_stable.
Qed.

Lemma mergeNearbyBoxes_total boxes W H : is_Some (mergeNearbyBoxes boxes W H).
Proof.
  unfold mergeNearbyBoxes. destruct (length boxes <? 2)%nat; [done|].
  apply mergeLoop_terminates. lia.
Qed.

(** C4: [mergeNearbyBoxes] returns, and run again on its own output with
    the same image dimensions it returns that output unchanged. *)
Theorem mergeNearbyBoxes_idempotent (boxes : list CropBox) (W H : Z) :
  exists out, mergeNearbyBoxes boxes W H = Some out /\
              mergeNearbyBoxes out W H = Some out.
Proof.
  destruct (mergeNearbyBoxes_total boxes W H) as [out Hout].
  exists out. split; [done|].
  apply mergeNearbyBoxes_stable in Hout as [Hshort|Hnone];
    unfold mergeNearbyBoxes.
  - apply Nat.ltb_lt in Hshort. by rewrite Hshort.
  - destruct (length out <? 2)%nat; [done|]. by apply mergeLoop_fixpoint.
Qed.

(** ** Contour extraction *)

Lemma fold_left_preserves {S A : Type} (P : S -> Prop) (f : S -> A -> S) (l : list A) :
  (forall s a, P s -> P (f s a)) -> forall s, P s -> P (fold_left f l s).
Proof. intros Hf. induction l as [|a l IH]; simpl; auto. Qed.

Lemma unvisited_le (v : list bool) : (unvisited v <= length v)%nat.
Proof.
  unfold unvisited. induction v as [|[] v IH]; simpl; lia.
Qed.

Lemma unvisited_mark (v : list bool) (i : nat) :
  v !! i = Some false -> S (unvisited (<[i := true]> v)) = unvisited v.
Proof.
  unfold unvisited. revert i. induction v as [|b v IH]; intros [|i]; simpl; try done.
  - by intros [= ->].
  - intros Hi. destruct b; simpl; rewrite <- (IH i Hi); done.
Qed.

Section Contours.
Variable binaryImage : Buffer.

Let W := width binaryImage.
Let H := height binaryImage.

Lemma pointIndex_lt p :
  inBounds binaryImage p -> (pointIndex binaryImage p < fillFuel binaryImage)%nat.
Proof.
  unfold inBounds, pointIndex, fillFuel. fold W H. intros [Hx Hy].
  apply Z2Nat.inj_lt; nia.
Qed.

Lemma pointIndex_inj p q :
  inBounds binaryImage p -> inBounds binaryImage q ->
  pointIndex binaryImage p = pointIndex binaryImage q -> p = q.
Proof.
  unfold inBounds, pointIndex. fold W H. destruct p as [x1 y1], q as [x2 y2]; simpl.
  intros [Hx1 Hy1] [Hx2 Hy2] E. apply Z2Nat.inj in E; [|nia|nia].
  assert (y1 = y2) by nia. subst. f_equal. lia.
Qed.

Lemma isVisited_false visited p :
  length visited = fillFuel binaryImage -> inBounds binaryImage p ->
  isVisited visited (pt_y p * W + pt_x p) = false ->
  visited !! pointIndex binaryImage p = Some false.
Proof.
  intros Hlen Hin. pose proof (pointIndex_lt p Hin) as Hlt.
  unfold isVisited, readAt, pointIndex. fold W.
  destruct Hin as [Hx Hy]. fold W H in Hx, Hy.
  destruct (Z.ltb_spec (pt_y p * W + pt_x p) 0); [nia|].
  unfold pointIndex in Hlt. fold W in Hlt.
  destruct (visited !! Z.to_nat (pt_y p * W + pt_x p)) as [[]|] eqn:E; simpl; try done.
  apply lookup_ge_None in E. lia.
Qed.

Lemma isVisited_true visited p :
  inBounds binaryImage p ->
  isVisited visited (pt_y p * W + pt_x p) = true ->
  visited !! pointIndex binaryImage p = Some true.
Proof.
  intros [Hx Hy]. fold W H in Hx, Hy. unfold isVisited, readAt, pointIndex. fold W.
  destruct (Z.ltb_spec (pt_y p * W + pt_x p) 0); [nia|].
  destruct (visited !! Z.to_nat (pt_y p * W + pt_x p)) as [[]|]; simpl; done.
Qed.

Lemma writeAt_index visited p :
  inBounds binaryImage p ->
  writeAt visited (pt_y p * W + pt_x p) true = <[pointIndex binaryImage p := true]> visited.
Proof.
  intros [Hx Hy]. fold W H in Hx, Hy. unfold writeAt, pointIndex. fold W.
  destruct (Z.ltb_spec (pt_y p * W + pt_x p) 0); [nia|done].
Qed.

(** Marking a fresh edge pixel and appending it to the collected points. *)
Lemma fillInv_mark visited pts p :
  fillInv binaryImage visited pts ->
  isEdgePixel binaryImage p ->
  visited !! pointIndex binaryImage p = Some false ->
  fillInv binaryImage (<[pointIndex binaryImage p := true]> visited) (pts ++ [p]).
Proof.
  intros [Hlen Hmark Hnd Hedge] Hp Hfresh.
  assert (Hnotin : p ∉ pts).
  { intros Hin. apply Hmark in Hin; [congruence|apply Hp]. }
  split.
  - by rewrite length_insert.
  - intros q Hq. rewrite elem_of_app, list_elem_of_singleton.
    destruct (decide (pointIndex binaryImage p = pointIndex binaryImage q)) as [E|E].
    + apply pointIndex_inj in E; [|apply Hp|done]. subst q.
      rewrite list_lookup_insert_eq; [tauto|].
      rewrite Hlen. by apply pointIndex_lt.
    + rewrite list_lookup_insert_ne by done. rewrite Hmark by done.
      split; [tauto|]. intros [?| ->]; [done|congruence].
  - apply NoDup_app. repeat split; [done| |apply NoDup_singleton].
    intros q Hq ->%list_elem_of_singleton. done.
  - intros q [Hq| ->%list_elem_of_singleton]%elem_of_app; auto.
Qed.

Lemma visitNeighbour_inv pre q0 M point dy st dx :
  neighbourInv binaryImage pre q0 M st ->
  neighbourInv binaryImage pre q0 M (visitNeighbour binaryImage point dy st dx).
Proof.
  destruct st as [visited queue]. intros Hst.
  unfold visitNeighbour. fold W H.
  destruct ((dx =? 0) && (dy =? 0)); [done|].
  set (n := mkPoint (pt_x point + dx) (pt_y point + dy)).
  destruct (_ && _) eqn:Hc; [|done].
  destruct Hst as (Hinv & HM & extra & Hq). simpl in *.
  repeat (apply andb_prop in Hc as [Hc ?]).
  assert (Hin : inBounds binaryImage n).
  { unfold inBounds. fold W H. simpl. lia. }
  assert (Hed : isEdgePixel binaryImage n).
  { split; [done|]. fold W. simpl.
    destruct (readAt (data binaryImage) _) as [z|]; simpl in *; [|done].
    f_equal. lia. }
  assert (Hfresh : visited !! pointIndex binaryImage n = Some false).
  { apply isVisited_false; [apply Hinv|done|]. simpl. by apply negb_true_iff. }
  change (writeAt visited _ true) with (writeAt visited (pt_y n * W + pt_x n) true).
  rewrite writeAt_index by done.
  split; [|split]; simpl.
  - rewrite app_assoc. by apply fillInv_mark.
  - rewrite length_app. simpl. pose proof (unvisited_mark _ _ Hfresh). lia.
  - exists (extra ++ [n]). rewrite Hq. by rewrite app_assoc.
Qed.

Lemma visitNeighbours_inv pre q0 M point st :
  neighbourInv binaryImage pre q0 M st ->
  neighbourInv binaryImage pre q0 M (visitNeighbours binaryImage point st).
Proof.
  unfold visitNeighbours. apply fold_left_preserves. intros s dy Hs.
  revert s Hs. apply fold_left_preserves. intros s dx Hs.
  by apply visitNeighbour_inv.
Qed.

(** The flood fill returns when given fuel for every unmarked pixel, and
    its contour is the dequeued points in order. *)
Lemma floodFill_spec fuel pre visited queue contour :
  fillInv binaryImage visited (pre ++ contour ++ queue) ->
  (unvisited visited + length queue <= fuel)%nat ->
  exists visited' extra,
    floodFill fuel binaryImage visited queue contour
      = Some (visited', contour ++ queue ++ extra) /\
    fillInv binaryImage visited' (pre ++ contour ++ queue ++ extra).
Proof.
  revert visited queue contour.
  induction fuel as [|fuel IH]; intros visited queue contour Hinv Hfuel.
  - destruct queue as [|p rest]; [|simpl in Hfuel; lia].
    exists visited, []. simpl. by rewrite !app_nil_r in *.
  - destruct queue as [|p rest].
    { exists visited, []. simpl. by rewrite !app_nil_r in *. }
    simpl.
    assert (Hn : neighbourInv binaryImage (pre ++ contour ++ [p]) rest
                   (unvisited visited + length rest) (visited, rest)).
    { split; [|split]; simpl; [|done|exists []; by rewrite app_nil_r].
      by rewrite <- !app_assoc. }
    apply (visitNeighbours_inv _ _ _ p) in Hn.
    destruct (visitNeighbours binaryImage p (visited, rest)) as [visited1 queue1].
    destruct Hn as (Hinv1 & HM & e1 & Hq1). simpl in *. subst queue1.
    destruct (IH visited1 (rest ++ e1) (contour ++ [p])) as (v' & extra & Hff & Hinv').
    + by rewrite <- !app_assoc in *.
    + lia.
    + exists v', (e1 ++ extra). rewrite Hff.
      split; [f_equal; f_equal|]; by rewrite <- !app_assoc in *.
Qed.

End Contours.

(** A loop whose body keeps [good], only adds points, and covers the element
    it handles, covers every element of the list it ran over. *)
Lemma scan_fold {S A : Type} (good : S -> Prop) (pts : S -> list Point)
    (f : S -> A -> S) (dom : A -> Prop) (cover : A -> list Point -> Prop) :
  (forall a l l', cover a l -> (forall p, p ∈ l -> p ∈ l') -> cover a l') ->
  (forall st a, dom a -> good st ->
     good (f st a) /\ (forall p, p ∈ pts st -> p ∈ pts (f st a)) /\ cover a (pts (f st a))) ->
  forall l st, Forall dom l -> good st ->
    good (fold_left f l st) /\
    (forall p, p ∈ pts st -> p ∈ pts (fold_left f l st)) /\
    Forall (fun a => cover a (pts (fold_left f l st))) l.
Proof.
  intros Hmono Hstep. induction l as [|a l IH]; intros st Hdom Hgood; simpl.
  - repeat split; auto.
  - apply Forall_cons in Hdom as [Ha Hl].
    destruct (Hstep st a Ha Hgood) as (Hg1 & Hsub1 & Hcov1).
    destruct (IH (f st a) Hl Hg1) as (Hg2 & Hsub2 & Hcov2).
    repeat split; auto.
    apply Forall_cons. split; [|done]. eapply Hmono; eauto.
Qed.

Section Scan.
Variable binaryImage : Buffer.

Let W := width binaryImage.
Let H := height binaryImage.

Lemma scanPixel_spec y st x :
  0 <= y < H -> 0 <= x < W -> scanInv binaryImage st ->
  scanInv binaryImage (scanPixel binaryImage y st x) /\
  (forall p, p ∈ collected st -> p ∈ collected (scanPixel binaryImage y st x)) /\
  (isEdgePixel binaryImage (mkPoint x y) ->
     mkPoint x y ∈ collected (scanPixel binaryImage y st x)).
Proof.
  intros Hy Hx (visited & contours & -> & Hinv & Hne).
  assert (Hin : inBounds binaryImage (mkPoint x y)) by done.
  unfold scanPixel. simpl. fold W.
  destruct (is255 _ && negb _) eqn:Hc.
  - apply andb_prop in Hc as [H255 Hnv]. apply negb_true_iff in Hnv.
    assert (Hed : isEdgePixel binaryImage (mkPoint x y)).
    { split; [done|]. simpl. fold W.
      destruct (readAt (data binaryImage) _) as [z|]; simpl in *; [|done].
      f_equal. lia. }
    assert (Hfresh : visited !! pointIndex binaryImage (mkPoint x y) = Some false).
    { apply isVisited_false; [apply Hinv|done|done]. }
    change (writeAt visited (y * W + x) true)
      with (writeAt visited (pt_y (mkPoint x y) * width binaryImage + pt_x (mkPoint x y)) true).
    rewrite writeAt_index by done.
    pose proof (fillInv_mark _ _ _ _ Hinv Hed Hfresh) as Hinv1.
    destruct (floodFill_spec binaryImage (fillFuel binaryImage) (concat contours)
                (<[pointIndex binaryImage (mkPoint x y) := true]> visited)
                [mkPoint x y] []) as (v' & extra & -> & Hinv').
    { done. }
    { pose proof (unvisited_mark _ _ Hfresh). pose proof (unvisited_le visited).
      rewrite (inv_length _ _ _ Hinv) in *. simpl. lia. }
    simpl in *.
    assert (Hcat : concat (contours ++ [mkPoint x y :: extra])
                   = concat contours ++ mkPoint x y :: extra).
    { rewrite concat_app. simpl. by rewrite app_nil_r. }
    split; [|split].
    + exists v', (contours ++ [mkPoint x y :: extra]). split; [done|].
      rewrite Hcat. split; [done|]. apply Forall_app. split; [done|].
      by apply Forall_singleton.
    + intros p Hp. rewrite Hcat. apply elem_of_app. by left.
    + intros _. rewrite Hcat. apply elem_of_app. right. left.
  - split; [|split]; simpl.
    + by exists visited, contours.
    + done.
    + intros [_ Hd]. simpl in Hd. fold W in Hd. rewrite Hd in Hc. simpl in Hc.
      apply negb_false_iff in Hc.
      apply (inv_marked _ _ _ Hinv); [done|].
      by apply (isVisited_true binaryImage visited (mkPoint x y)).
Qed.

Lemma elem_of_range lo hi i : i ∈ range lo hi <-> lo <= i < hi.
Proof. unfold range. rewrite elem_of_seqZ. lia. Qed.

Lemma scanRows_spec st :
  scanInv binaryImage st ->
  scanInv binaryImage (scanRows binaryImage st) /\
  (forall p, isEdgePixel binaryImage p -> p ∈ collected (scanRows binaryImage st)).
Proof.
  intros Hst. unfold scanRows. fold W H.
  destruct (scan_fold (scanInv binaryImage) collected
    (fun st y => fold_left (scanPixel binaryImage y) (range 0 W) st)
    (fun y => 0 <= y < H)
    (fun y l => forall x, 0 <= x < W ->
       isEdgePixel binaryImage (mkPoint x y) -> mkPoint x y ∈ l))
    with (l := range 0 H) (st := st) as (Hg & _ & Hcov).
  - intros y l l' Hc Hsub x Hx He. auto.
  - intros s y Hy Hs.
    destruct (scan_fold (scanInv binaryImage) collected
      (scanPixel binaryImage y) (fun x => 0 <= x < W)
      (fun x l => isEdgePixel binaryImage (mkPoint x y) -> mkPoint x y ∈ l))
      with (l := range 0 W) (st := s) as (Hg & Hsub & Hcov).
    + intros x l l' Hc Hsub He. auto.
    + intros s' x Hx Hs'. by apply scanPixel_spec.
    + apply Forall_forall. intros x. by rewrite elem_of_range.
    + done.
    + repeat split; [done|done|]. intros x Hx.
      rewrite Forall_forall in Hcov. apply Hcov. by apply elem_of_range.
  - apply Forall_forall. intros y. by rewrite elem_of_range.
  - done.
  - split; [done|]. intros [x y] [[Hx Hy] Hd].
    rewrite Forall_forall in Hcov. apply (Hcov y); [by apply elem_of_range|done|done].
Qed.

(** [findContours] returns; its contours are non-empty, never repeat a
    point, and together hold exactly the edge pixels. *)
Lemma findContours_spec :
  exists contours,
    findContours binaryImage = Some contours /\
    NoDup (concat contours) /\
    (forall p, p ∈ concat contours <-> isEdgePixel binaryImage p) /\
    Forall (fun c => c <> []) contours.
Proof.
  unfold findContours. fold W H.
  set (st0 := Some (replicate (Z.to_nat (W * H)) false, @nil (list Point))).
  assert (H0 : scanInv binaryImage st0).
  { exists (replicate (Z.to_nat (W * H)) false), [].
    split; [done|]. split; [|done]. split; simpl.
    - by rewrite length_replicate.
    - intros p Hp. split.
      + intros [? _]%lookup_replicate. done.
      + intros ?%elem_of_nil. done.
    - apply NoDup_nil_2.
    - intros p ?%elem_of_nil. done. }
  destruct (scanRows_spec st0 H0) as ((v & cs & E & Hinv & Hne) & Hcov).
  exists cs. rewrite E in *. simpl in *.
  split; [done|]. split; [apply Hinv|]. split; [|done].
  intros p. split; [apply (inv_edge _ _ _ Hinv)|apply Hcov].
Qed.

End Scan.

Lemma concat_elem (contours : list (list Point)) k c p :
  contours !! k = Some c -> p ∈ c -> p ∈ concat contours.
Proof.
  revert k. induction contours as [|c0 cs IH]; intros [|k]; simpl; try done.
  - intros [= ->] Hp. apply elem_of_app. by left.
  - intros Hk Hp. apply elem_of_app. right. eauto.
Qed.

Lemma concat_NoDup_unique (contours : list (list Point)) k k' c c' p :
  NoDup (concat contours) ->
  contours !! k = Some c -> contours !! k' = Some c' ->
  p ∈ c -> p ∈ c' -> k = k'.
Proof.
  revert k k'. induction contours as [|c0 cs IH]; intros k k'; simpl; [done|].
  intros (Hnd0 & Hdisj & Hnd)%NoDup_app.
  destruct k as [|k], k' as [|k']; simpl; try done.
  - intros [= ->] Hk' Hp Hp'. exfalso. eapply Hdisj; eauto using concat_elem.
  - intros Hk [= ->] Hp Hp'. exfalso. eapply Hdisj; eauto using concat_elem.
  - intros Hk Hk' Hp Hp'. f_equal. eauto.
Qed.

Lemma concat_NoDup_each (contours : list (list Point)) c :
  NoDup (concat contours) -> c ∈ contours -> NoDup c.
Proof.
  induction contours as [|c0 cs IH]; simpl.
  - intros _ ?%elem_of_nil. done.
  - intros (Hnd0 & _ & Hnd)%NoDup_app [->|Hin]%elem_of_cons; auto.
Qed.

(** C5: [findContours] returns a list of contours that partitions the edge
    pixels of the mask: every pixel of value 255 lies in exactly one
    contour, every point of every contour is such a pixel (and occurs once
    in it). The result is a function of the mask alone. *)
Theorem findContours_partition (binaryImage : Buffer) :
  exists contours,
    findContours binaryImage = Some contours /\
    (forall p, isEdgePixel binaryImage p ->
       exists k c, contours !! k = Some c /\ p ∈ c /\
         forall k' c', contours !! k' = Some c' -> p ∈ c' -> k' = k) /\
    (forall c p, c ∈ contours -> p ∈ c -> isEdgePixel binaryImage p) /\
    (forall c, c ∈ contours -> NoDup c).
Proof.
  destruct (findContours_spec binaryImage) as (cs & E & Hnd & Hpts & _).
  exists cs. split; [done|]. split; [|split].
  - intros p Hp. apply Hpts in Hp.
    assert (exists k c, cs !! k = Some c /\ p ∈ c) as (k & c & Hk & Hc).
    { clear -Hp. induction cs as [|c0 cs IH]; simpl in Hp.
      - by apply elem_of_nil in Hp.
      - apply elem_of_app in Hp as [Hp|Hp].
        + by exists 0%nat, c0.
        + destruct (IH Hp) as (k & c & ? & ?). by exists (S k), c. }
    exists k, c. repeat split; try done.
    intros k' c' Hk' Hc'. eapply concat_NoDup_unique; eauto.
  - intros c p (k & Hk)%list_elem_of_lookup Hp. apply Hpts. eauto using concat_elem.
  - intros c Hc. eauto using concat_NoDup_each.
Qed.

(** ** Candidate boxes *)

Lemma exceedsMinArea_spec (W H : Z) (b : CropBox) :
  exceedsMinArea W H b = true <-> 15 * (W * H) < 1000 * (box_w b * box_h b).
Proof.
  unfold exceedsMinArea. rewrite Qltb_lt.
  unfold Qlt, Qmult, inject_Z. simpl. lia.
Qed.

Lemma boundStep_fold (W H : Z) (rest : list Point) (acc : Z * Z * Z * Z) :
  (forall p, p ∈ rest -> 0 <= pt_x p < W /\ 0 <= pt_y p < H) ->
  (let '(minX, minY, maxX, maxY) := acc in
   0 <= minX <= maxX /\ maxX < W /\ 0 <= minY <= maxY /\ maxY < H) ->
  let '(minX, minY, maxX, maxY) := fold_left boundStep rest acc in
  0 <= minX <= maxX /\ maxX < W /\ 0 <= minY <= maxY /\ maxY < H.
Proof.
  revert acc. induction rest as [|p rest IH]; intros acc Hin Hacc; simpl; [done|].
  apply IH.
  - intros q Hq. apply Hin. by right.
  - destruct acc as [[[minX minY] maxX] maxY]. simpl.
    destruct (Hin p) as [Hx Hy]; [left|].
    destruct (Z.ltb_spec (pt_x p) minX), (Z.ltb_spec (pt_y p) minY),
      (Z.ltb_spec maxX (pt_x p)), (Z.ltb_spec maxY (pt_y p)); lia.
Qed.

(** The bounding box of a contour stays inside the image (and may be flat). *)
Lemma getBoundingRect_within (W H : Z) (c : list Point) :
  contourWithin W H c ->
  let b := getBoundingRect c in
  0 <= box_x b /\ 0 <= box_y b /\ 0 <= box_w b /\ 0 <= box_h b /\
  box_x b + box_w b < W /\ box_y b + box_h b < H.
Proof.
  intros [Hne Hin]. destruct c as [|p0 rest]; [done|]. simpl.
  pose proof (boundStep_fold W H rest (pt_x p0, pt_y p0, pt_x p0, pt_y p0)) as Hf.
  destruct (fold_left boundStep rest _) as [[[minX minY] maxX] maxY]. simpl.
  destruct Hf as (? & ? & ? & ?).
  - intros p Hp. apply Hin. by right.
  - destruct (Hin p0); [left|]. lia.
  - lia.
Qed.

Lemma mergeRects_candidate (W H : Z) (a b : CropBox) :
  candidateBox W H a -> candidateBox W H b -> candidateBox W H (mergeRects a b).
Proof.
  unfold candidateBox, boxInvariant, mergeRects. simpl.
  intros [(? & ? & ? & ? & ? & ?) Ha] [(? & ? & ? & ? & ? & ?) Hb].
  repeat split; try lia.
  assert (box_w a <= Z.max (box_x a + box_w a) (box_x b + box_w b) - Z.min (box_x a) (box_x b)) by lia.
  assert (box_h a <= Z.max (box_y a + box_h a) (box_y b + box_h b) - Z.min (box_y a) (box_y b)) by lia.
  nia.
Qed.

Section MergePreserves.
Variable P : CropBox -> Prop.
Hypothesis P_merge : forall a b, P a -> P b -> P (mergeRects a b).

Lemma mergeAt_Forall boxes i j : Forall P boxes -> Forall P (mergeAt boxes i j).
Proof.
  intros Hall. unfold mergeAt.
  destruct (boxes !! i) as [bi|] eqn:Ei; [|done].
  destruct (boxes !! j) as [bj|] eqn:Ej; [|done].
  apply Forall_delete. apply Forall_insert; [done|].
  rewrite Forall_lookup in Hall. eauto.
Qed.

Lemma mergeLoop_Forall fuel boxes m out :
  Forall P boxes -> mergeLoop fuel boxes m = Some out -> Forall P out.
Proof.
  revert boxes. induction fuel as [|fuel IH]; intros boxes Hall; simpl;
    destruct (findPair boxes m) as [[i j]|]; try done.
  - by intros [= <-].
  - apply IH. by apply mergeAt_Forall.
  - by intros [= <-].
Qed.

Lemma mergeNearbyBoxes_Forall boxes W H out :
  Forall P boxes -> mergeNearbyBoxes boxes W H = Some out -> Forall P out.
Proof.
  unfold mergeNearbyBoxes. intros Hall. destruct (length boxes <? 2)%nat.
  - by intros [= <-].
  - by apply mergeLoop_Forall.
Qed.
End MergePreserves.

Lemma largerBox_fold_elem (others : list CropBox) (first : CropBox) :
  fold_left largerBox others first ∈ first :: others.
Proof.
  revert first. induction others as [|b others IH]; intros first; simpl; [left|].
  specialize (IH (largerBox first b)). apply elem_of_cons in IH as [->|IH].
  - unfold largerBox. destruct (_ <? _); [right; left|left].
  - right. by right.
Qed.

Lemma collectContours_spec (blurredData : Buffer) :
  exists allContours,
    collectContours blurredData = Some allContours /\
    Forall (contourWithin (width blurredData) (height blurredData)) allContours.
Proof.
  assert (Hone : forall t, exists cs,
    findContours (cannyEdgeDetector blurredData t) = Some cs /\
    Forall (contourWithin (width blurredData) (height blurredData)) cs).
  { intros t.
    destruct (findContours_spec (cannyEdgeDetector blurredData t))
      as (cs & E & _ & Hpts & Hne).
    exists cs. split; [done|]. rewrite Forall_forall in *. intros c Hc.
    split; [by apply Hne|]. intros p Hp.
    apply list_elem_of_lookup in Hc as [k Hk].
    assert (Hin : p ∈ concat cs) by eauto using concat_elem.
    apply Hpts in Hin as [Hb _]. exact Hb. }
  unfold collectContours, thresholds. simpl.
  destruct (Hone 30) as (cs1 & -> & H1), (Hone 70) as (cs2 & -> & H2). simpl.
  eexists. split; [done|]. apply Forall_app. done.
Qed.

(** Every box that reaches the selection step lies inside the image, has
    positive sides, and is above the area threshold. *)
Lemma mergedCandidates_candidate ctx img mergedBoxes :
  mergedCandidates ctx img = Ok (Some mergedBoxes) ->
  mergedBoxes <> [] /\
  0 < naturalWidth img /\ 0 < naturalHeight img /\
  Forall (candidateBox (naturalWidth img) (naturalHeight img)) mergedBoxes.
Proof.
  unfold mergedCandidates. destruct ctx; simpl; [|done].
  set (W := naturalWidth img). set (H := naturalHeight img).
  destruct (Z.leb_spec W 0); [done|]. destruct (Z.leb_spec H 0); [done|]. simpl.
  destruct (collectContours_spec (gaussianBlur (toGrayscale (mkBuffer (raster img) W H))))
    as (allContours & -> & Hall).
  change (width (gaussianBlur _)) with W in Hall.
  change (height (gaussianBlur _)) with H in Hall.
  destruct (length allContours =? 0)%nat; [done|].
  set (validBoxes := List.filter _ _).
  assert (Hvalid : Forall (candidateBox W H) validBoxes).
  { apply Forall_forall. intros b Hb. apply list_elem_of_In, filter_In in Hb as [Hb Ha].
    apply exceedsMinArea_spec in Ha.
    apply in_map_iff in Hb as (c & <- & Hc).
    rewrite Forall_forall in Hall. apply list_elem_of_In, Hall in Hc.
    pose proof (getBoundingRect_within W H c Hc) as Hw. simpl in Hw.
    unfold candidateBox, boxInvariant. split; [|done].
    assert (0 < box_w (getBoundingRect c) * box_h (getBoundingRect c)) by nia.
    repeat split; nia. }
  destruct (length validBoxes =? 0)%nat; [done|].
  destruct (mergeNearbyBoxes validBoxes W H) as [merged|] eqn:Em; [|done].
  destruct (length merged =? 0)%nat eqn:El; [done|].
  intros [= <-]. repeat split; try done.
  - intros ->. done.
  - eapply mergeNearbyBoxes_Forall; eauto. apply mergeRects_candidate.
Qed.

Lemma chooseCrop_elem mergedBoxes W H box :
  chooseCrop mergedBoxes W H = Ok (Some box) -> box ∈ mergedBoxes.
Proof.
  unfold chooseCrop. destruct mergedBoxes as [|first others]; [done|]. simpl.
  destruct (ratioExceeds _ _ _); [done|]. intros [= <-].
  apply largerBox_fold_elem.
Qed.

Lemma suggestCrop_candidate ctx img box :
  suggestCropWithEdgeDetection ctx img = Ok (Some box) ->
  candidateBox (naturalWidth img) (naturalHeight img) box.
Proof.
  unfold suggestCropWithEdgeDetection, tryBlock.
  destruct (mergedCandidates ctx img) as [[merged|]|msg|] eqn:E; try done.
  apply mergedCandidates_candidate in E as (_ & _ & _ & Hall).
  destruct (chooseCrop merged _ _) as [[b|]|msg|] eqn:Ec; try done.
  intros [= <-]. apply chooseCrop_elem in Ec.
  rewrite Forall_forall in Hall. auto.
Qed.

(** ** The crop candidate selector *)

Lemma mergedCandidates_fuel ctx img : mergedCandidates ctx img <> OutOfFuel.
Proof.
  unfold mergedCandidates. destruct ctx; simpl; [|done].
  destruct (_ || _); [done|].
  destruct (collectContours_spec (gaussianBlur (toGrayscale
    (mkBuffer (raster img) (naturalWidth img) (naturalHeight img)))))
    as (allContours & -> & _).
  destruct (length allContours =? 0)%nat; [done|].
  destruct (length (List.filter _ _) =? 0)%nat; [done|].
  destruct (mergeNearbyBoxes_total (List.filter
    (exceedsMinArea (naturalWidth img) (naturalHeight img))
    (getBoundingRect <$> allContours)) (naturalWidth img) (naturalHeight img))
    as [merged ->].
  by destruct (length merged =? 0)%nat.
Qed.

Lemma suggestCrop_resolves ctx img :
  exists v, suggestCropWithEdgeDetection ctx img = Ok v.
Proof.
  unfold suggestCropWithEdgeDetection, tryBlock.
  pose proof (mergedCandidates_fuel ctx img) as Hf.
  destruct (mergedCandidates ctx img) as [[merged|]|msg|]; eauto; [|done].
  unfold chooseCrop. destruct (reduceLargest merged); eauto.
  destruct (ratioExceeds _ _ _); eauto.
Qed.

(** C1 (as the code has it): without a canvas context the [try] block
    throws, the [catch] turns the exception into the no-suggestion outcome,
    and no call ever surfaces an error to the caller. *)
Theorem suggestCrop_no_context_is_null (img : HTMLImageElement) :
  tryBlock false img = Thrown "Could not get canvas context" /\
  suggestCropWithEdgeDetection false img = Ok None /\
  (forall ctx img' msg, suggestCropWithEdgeDetection ctx img' <> Thrown msg).
Proof.
  repeat split; try done.
  intros ctx img' msg. destruct (suggestCrop_resolves ctx img') as [v ->]. done.
Qed.

(** C1 as stated fails: with the context unavailable the call on the sample
    image resolves to null instead of failing. *)
Lemma suggestCrop_no_context_not_hard_failure :
  ~ (exists msg, suggestCropWithEdgeDetection false sampleImage = Thrown msg).
Proof. intros [msg Hmsg]. vm_compute in Hmsg. discriminate. Qed.

(** C2: on an image of positive width and height, a returned box has
    positive sides and lies inside the image. *)
Theorem suggestCrop_box_invariant (ctx : bool) (img : HTMLImageElement) (box : CropBox) :
  0 < naturalWidth img -> 0 < naturalHeight img ->
  suggestCropWithEdgeDetection ctx img = Ok (Some box) ->
  0 < box_w box /\ 0 < box_h box /\ 0 <= box_x box /\ 0 <= box_y box /\
  box_x box + box_w box <= naturalWidth img /\
  box_y box + box_h box <= naturalHeight img.
Proof. intros _ _ Hr. by apply suggestCrop_candidate in Hr as [Hb _]. Qed.

Lemma suggestCrop_box_invariant_witness :
  0 < box_w (mkBox 1 1 3 3) /\ 0 < box_h (mkBox 1 1 3 3) /\
  0 <= box_x (mkBox 1 1 3 3) /\ 0 <= box_y (mkBox 1 1 3 3) /\
  box_x (mkBox 1 1 3 3) + box_w (mkBox 1 1 3 3) <= naturalWidth sampleImage /\
  box_y (mkBox 1 1 3 3) + box_h (mkBox 1 1 3 3) <= naturalHeight sampleImage.
Proof.
  apply (suggestCrop_box_invariant true sampleImage (mkBox 1 1 3 3));
    [reflexivity | reflexivity | vm_compute; reflexivity].
Defined.

(** C10: on an image of positive width and height, the area of a returned
    box is strictly above 0.015 times the image area. *)
Theorem suggestCrop_area_above_minimum (ctx : bool) (img : HTMLImageElement) (box : CropBox) :
  0 < naturalWidth img -> 0 < naturalHeight img ->
  suggestCropWithEdgeDetection ctx img = Ok (Some box) ->
  ((15 # 1000) * inject_Z (naturalWidth img) * inject_Z (naturalHeight img)
     < inject_Z (box_w box * box_h box))%Q.
Proof.
  intros _ _ Hr. apply suggestCrop_candidate in Hr as [_ Ha].
  unfold Qlt, Qmult, inject_Z. simpl. lia.
Qed.

Lemma suggestCrop_area_above_minimum_witness :
  ((15 # 1000) * inject_Z (naturalWidth sampleImage) * inject_Z (naturalHeight sampleImage)
     < inject_Z (box_w (mkBox 1 1 3 3) * box_h (mkBox 1 1 3 3)))%Q.
Proof.
  apply (suggestCrop_area_above_minimum true sampleImage (mkBox 1 1 3 3));
    [reflexivity | reflexivity | vm_compute; reflexivity].
Defined.

Lemma ratioExceeds_spec (num den : Z) :
  0 < den -> ratioExceeds num den (95 # 100) = true <-> 95 * den < 100 * num.
Proof.
  intros Hden. unfold ratioExceeds.
  destruct (Z.eqb_spec den 0); [lia|]. rewrite Qltb_lt.
  destruct den as [|d|d]; try lia.
  unfold Qlt, Qdiv, Qmult, Qinv, inject_Z. simpl. lia.
Qed.

(** C6: once a merged box has been selected, the selector answers null
    exactly when that box covers more than 95% of the image area, and
    returns the box otherwise; a box at exactly 96% is rejected and one at
    exactly 94% is returned. *)
Theorem suggestCrop_sanity_check (ctx : bool) (img : HTMLImageElement)
    (mergedBoxes : list CropBox) :
  mergedCandidates ctx img = Ok (Some mergedBoxes) ->
  let imageArea := inject_Z (naturalWidth img * naturalHeight img) in
  exists bestBox,
    reduceLargest mergedBoxes = Some bestBox /\
    (suggestCropWithEdgeDetection ctx img = Ok None
       <-> ((95 # 100) * imageArea < inject_Z (area bestBox))%Q) /\
    (suggestCropWithEdgeDetection ctx img = Ok (Some bestBox)
       <-> (inject_Z (area bestBox) <= (95 # 100) * imageArea)%Q) /\
    ((inject_Z (area bestBox) == (96 # 100) * imageArea)%Q ->
       suggestCropWithEdgeDetection ctx img = Ok None) /\
    ((inject_Z (area bestBox) == (94 # 100) * imageArea)%Q ->
       suggestCropWithEdgeDetection ctx img = Ok (Some bestBox)).
Proof.
  intros Hm. pose proof (mergedCandidates_candidate _ _ _ Hm) as (Hne & HW & HH & _).
  destruct mergedBoxes as [|first others]; [done|].
  exists (fold_left largerBox others first). split; [done|].
  set (best := fold_left largerBox others first).
  assert (Harea : 0 < naturalWidth img * naturalHeight img) by nia.
  pose proof (ratioExceeds_spec (area best) _ Harea) as Hspec.
  assert (Hrun : suggestCropWithEdgeDetection ctx img =
    if ratioExceeds (area best) (naturalWidth img * naturalHeight img) (95 # 100)
    then Ok None else Ok (Some best)).
  { unfold suggestCropWithEdgeDetection, tryBlock. rewrite Hm.
    unfold chooseCrop. simpl. fold best. unfold area.
    by destruct (ratioExceeds _ _ _). }
  rewrite Hrun. simpl.
  unfold Qlt, Qle, Qeq, Qmult, inject_Z. simpl.
  destruct (ratioExceeds _ _ _) eqn:Er.
  - pose proof (proj1 Hspec eq_refl) as Hlt.
    repeat split; try done; intros; try lia.
  - assert (~ 95 * (naturalWidth img * naturalHeight img) < 100 * area best)
      by (intros Hc; apply Hspec in Hc; done).
    repeat split; try done; intros; try lia.
Qed.

Lemma suggestCrop_sanity_check_witness :
  let imageArea := inject_Z (naturalWidth sampleImage * naturalHeight sampleImage) in
  exists bestBox,
    reduceLargest [mkBox 1 1 3 3] = Some bestBox /\
    (suggestCropWithEdgeDetection true sampleImage = Ok None
       <-> ((95 # 100) * imageArea < inject_Z (area bestBox))%Q) /\
    (suggestCropWithEdgeDetection true sampleImage = Ok (Some bestBox)
       <-> (inject_Z (area bestBox) <= (95 # 100) * imageArea)%Q) /\
    ((inject_Z (area bestBox) == (96 # 100) * imageArea)%Q ->
       suggestCropWithEdgeDetection true sampleImage = Ok None) /\
    ((inject_Z (area bestBox) == (94 # 100) * imageArea)%Q ->
       suggestCropWithEdgeDetection true sampleImage = Ok (Some bestBox)).
Proof.
  apply (suggestCrop_sanity_check true sampleImage [mkBox 1 1 3 3]).
  vm_compute. reflexivity.
Defined.

(** ** Clamped stores *)

Lemma toUint8Clamp_range (q : Q) : 0 <= toUint8Clamp q <= 255.
Proof.
  unfold toUint8Clamp.
  destruct (Qle_bool q 0) eqn:E0; [lia|].
  destruct (Qle_bool 255 q) eqn:E255; [lia|].
  assert (H0 : (0 < q)%Q).
  { apply Qnot_le_lt. intros Hc. apply Qle_bool_iff in Hc. congruence. }
  assert (H255 : (q < 255)%Q).
  { apply Qnot_le_lt. intros Hc. apply Qle_bool_iff in Hc. congruence. }
  assert (Hlo : 0 <= Qfloor q).
  { change 0 with (Qfloor 0). apply Qfloor_resp_le. by apply Qlt_le_weak. }
  assert (Hhi : Qfloor q < 255).
  { rewrite Zlt_Qlt. eapply Qle_lt_trans; [apply Qfloor_le|done]. }
  repeat destruct (Qltb _ _); try destruct (Z.even _); lia.
Qed.

Lemma toUint8Clamp_third (s : Z) :
  0 <= s <= 765 -> toUint8Clamp (inject_Z s / 3) = (s + 1) / 3.
Proof.
  intros Hs.
  assert (Hall : forallb (fun s => toUint8Clamp (inject_Z s / 3) =? (s + 1) / 3)
                   (seqZ 0 766) = true) by (vm_compute; reflexivity).
  rewrite forallb_forall in Hall.
  apply Z.eqb_eq, Hall, list_elem_of_In, elem_of_seqZ. lia.
Qed.

Lemma writeAt_length {A : Type} (arr : list A) (i : Z) (v : A) :
  length (writeAt arr i v) = length arr.
Proof. unfold writeAt. destruct (i <? 0); [done|apply length_insert]. Qed.

(** Closes [Forall (fun v => 0 <= v <= 255)] on a literal list. *)
Ltac all_bytes := repeat (apply Forall_cons; split; [lia|]); apply Forall_nil_2.

(** ** Grayscale reducer *)

Lemma grayStep_fold (d : list Z) (ks : list Z) (g0 : list Z) (j : nat) :
  Forall (fun k => 0 <= k) ks ->
  fold_left (grayStep d) ((fun k => 4 * k) <$> ks) g0 !! j =
    if decide (Z.of_nat j ∈ ks /\ (j < length g0)%nat)
    then Some (storeClamped ((fun s => (inject_Z s / 3)%Q) <$> channelSum d (4 * Z.of_nat j)))
    else g0 !! j.
Proof.
  revert g0. induction ks as [|k ks IH]; intros g0 Hks; simpl.
  - destruct (decide (Z.of_nat j ∈ [] /\ (j < length g0)%nat)) as [[Hd _]|Hd]; [|done].
    by apply elem_of_nil in Hd.
  - apply Forall_cons in Hks as [Hk Hks]. rewrite IH by done.
    assert (Hstep : grayStep d g0 (4 * k) = <[Z.to_nat k :=
      storeClamped ((fun s => (inject_Z s / 3)%Q) <$> channelSum d (4 * k))]> g0).
    { unfold grayStep, writeAt. rewrite (Z.mul_comm 4 k), Z.div_mul by lia.
      by destruct (Z.ltb_spec k 0); [lia|]. }
    rewrite Hstep, length_insert, list_lookup_insert.
    destruct (decide (Z.of_nat j ∈ ks /\ (j < length g0)%nat)) as [[Hin Hlt]|Hn1];
      destruct (decide (Z.of_nat j ∈ k :: ks /\ (j < length g0)%nat)) as [[Hin' Hlt']|Hn2];
      try done.
    + exfalso. apply Hn2. split; [by right|done].
    + destruct (decide (Z.to_nat k = j /\ (Z.to_nat k < length g0)%nat)) as [[<- ?]|Hn3].
      * by rewrite Z2Nat.id by lia.
      * exfalso. apply elem_of_cons in Hin' as [Heq|?]; [|tauto].
        apply Hn3. subst k. by rewrite Nat2Z.id.
    + destruct (decide (Z.to_nat k = j /\ (Z.to_nat k < length g0)%nat)) as [[<- ?]|Hn3];
        [|done].
      exfalso. apply Hn2. split; [|done]. rewrite Z2Nat.id by lia. left.
Qed.

Lemma toGrayscale_lookup (imageData : Buffer) (k : Z) :
  wellFormedRGBA imageData ->
  0 <= k < width imageData * height imageData ->
  readAt (data (toGrayscale imageData)) k =
    Some (storeClamped ((fun s => (inject_Z s / 3)%Q) <$> channelSum (data imageData) (4 * k))).
Proof.
  intros (HW & HH & Hlen & _) Hk. unfold toGrayscale. simpl.
  unfold readAt. destruct (Z.ltb_spec k 0); [lia|].
  unfold range4. rewrite grayStep_fold.
  - rewrite Z2Nat.id by lia. unfold newArray. rewrite length_replicate.
    match goal with |- context [decide ?P] => destruct (decide P) as [Hd|Hd] end; [done|].
    exfalso. apply Hd. split; [|lia].
    apply elem_of_seqZ. rewrite Hlen.
    assert ((4 * (width imageData * height imageData) + 3) / 4
            = width imageData * height imageData) as ->; [|lia].
    symmetry. apply Z.div_unique with (r := 3); lia.
  - apply Forall_forall. intros i Hi%elem_of_seqZ. lia.
Qed.

Lemma toGrayscale_length (imageData : Buffer) :
  length (data (toGrayscale imageData))
    = Z.to_nat (width imageData * height imageData).
Proof.
  unfold toGrayscale. simpl.
  apply (fold_left_preserves
    (fun g => length g = Z.to_nat (width imageData * height imageData))).
  - intros g i Hg. unfold grayStep. by rewrite writeAt_length.
  - unfold newArray. apply length_replicate.
Qed.

(** C7 (as the code has it): on a well-formed RGBA buffer the grayscale
    buffer has the same width and height, one value per pixel, and each
    value is the mean of the pixel's R, G and B bytes rounded to the nearest
    integer (not truncated); alpha plays no part. *)
Theorem toGrayscale_rounded_mean (imageData : Buffer) :
  wellFormedRGBA imageData ->
  let gray := toGrayscale imageData in
  width gray = width imageData /\ height gray = height imageData /\
  Z.of_nat (length (data gray)) = width imageData * height imageData /\
  forall k r g b,
    0 <= k < width imageData * height imageData ->
    readAt (data imageData) (4 * k) = Some r ->
    readAt (data imageData) (4 * k + 1) = Some g ->
    readAt (data imageData) (4 * k + 2) = Some b ->
    exists v, readAt (data gray) k = Some v /\
      v = toUint8Clamp (inject_Z (r + g + b) / 3) /\
      3 * v - 1 <= r + g + b <= 3 * v + 1 /\ 0 <= v <= 255.
Proof.
  intros Hwf. pose proof Hwf as (HW & HH & Hlen & Hbytes).
  repeat split; try done.
  - rewrite toGrayscale_length. nia.
  - intros k r g b Hk Hr Hg Hb.
    rewrite toGrayscale_lookup by done.
    unfold channelSum. rewrite Hr, Hg, Hb. simpl.
    eexists. split; [done|]. split; [done|].
    assert (Hbyte : forall i v, readAt (data imageData) i = Some v -> 0 <= v <= 255).
    { intros i v. unfold readAt. destruct (i <? 0); [done|].
      intros Hi. rewrite Forall_lookup in Hbytes. eauto. }
    apply Hbyte in Hr, Hg, Hb.
    rewrite toUint8Clamp_third by lia.
    split; Z.div_mod_to_equations; lia.
Qed.

Lemma toGrayscale_rounded_mean_witness :
  let imageData := mkBuffer [1; 1; 0; 255] 1 1 in
  let gray := toGrayscale imageData in
  width gray = width imageData /\ height gray = height imageData /\
  Z.of_nat (length (data gray)) = width imageData * height imageData /\
  forall k r g b,
    0 <= k < width imageData * height imageData ->
    readAt (data imageData) (4 * k) = Some r ->
    readAt (data imageData) (4 * k + 1) = Some g ->
    readAt (data imageData) (4 * k + 2) = Some b ->
    exists v, readAt (data gray) k = Some v /\
      v = toUint8Clamp (inject_Z (r + g + b) / 3) /\
      3 * v - 1 <= r + g + b <= 3 * v + 1 /\ 0 <= v <= 255.
Proof.
  apply (toGrayscale_rounded_mean (mkBuffer [1; 1; 0; 255] 1 1)).
  unfold wellFormedRGBA. simpl. repeat split; try lia.
  all_bytes.
Defined.

(** C7 as stated fails: the pixel (1, 1, 0) has truncated mean 0 but the
    reducer stores 1. *)
Lemma toGrayscale_not_truncated :
  ~ (forall imageData k r g b,
       wellFormedRGBA imageData ->
       0 <= k < width imageData * height imageData ->
       readAt (data imageData) (4 * k) = Some r ->
       readAt (data imageData) (4 * k + 1) = Some g ->
       readAt (data imageData) (4 * k + 2) = Some b ->
       readAt (data (toGrayscale imageData)) k = Some (truncatedMean r g b)).
Proof.
  intros Hclaim.
  specialize (Hclaim (mkBuffer [1; 1; 0; 255] 1 1) 0 1 1 0).
  assert (Hwf : wellFormedRGBA (mkBuffer [1; 1; 0; 255] 1 1)).
  { unfold wellFormedRGBA. simpl. repeat split; try lia.
    all_bytes. }
  specialize (Hclaim Hwf).
  vm_compute in Hclaim.
  assert (Hr : Some 1 = Some 0) by (apply Hclaim; (split; congruence) || reflexivity).
  discriminate.
Qed.

(** ** Contrast and brightness *)

Lemma adjust_write_lookup (d : list Z) (i : Z) (j : nat) :
  0 <= i ->
  writeAt d i (adjust (readAt d i)) !! j =
    (if decide (j = Z.to_nat i) then (fun v => adjust (Some v)) else id) <$> d !! j.
Proof.
  intros Hi. unfold writeAt, readAt. destruct (Z.ltb_spec i 0); [lia|].
  destruct (decide (j = Z.to_nat i)) as [->|Hne].
  - destruct (d !! Z.to_nat i) as [v|] eqn:E; simpl.
    + apply list_lookup_insert_eq. by eapply lookup_lt_Some.
    + rewrite list_insert_ge; [done|]. by apply lookup_ge_None.
  - rewrite list_lookup_insert_ne by done. by destruct (d !! j).
Qed.

Lemma contrastStep_lookup (d : list Z) (k : Z) (j : nat) :
  0 <= k ->
  contrastStep d (4 * k) !! j =
    (if decide (Z.of_nat j / 4 = k /\ Z.of_nat j mod 4 <> 3)
     then (fun v => adjust (Some v)) else id) <$> d !! j.
Proof.
  intros Hk. unfold contrastStep.
  rewrite !adjust_write_lookup by lia.
  destruct (d !! j) as [v|]; simpl; [|by repeat destruct (decide _)].
  destruct (decide (Z.of_nat j / 4 = k /\ Z.of_nat j mod 4 <> 3)) as [[Hq Hr]|Hn];
    repeat destruct (decide (j = _)); simpl; try done; exfalso.
  all: try (apply Hn; clear Hn); subst; Z.div_mod_to_equations; lia.
Qed.

Lemma contrast_fold_lookup (ks : list Z) (d : list Z) (j : nat) :
  NoDup ks -> Forall (fun k => 0 <= k) ks ->
  fold_left contrastStep ((fun k => 4 * k) <$> ks) d !! j =
    (if decide (Z.of_nat j / 4 ∈ ks /\ Z.of_nat j mod 4 <> 3)
     then (fun v => adjust (Some v)) else id) <$> d !! j.
Proof.
  revert d. induction ks as [|k ks IH]; intros d Hnd Hks; simpl.
  - destruct (decide (Z.of_nat j / 4 ∈ [] /\ Z.of_nat j mod 4 <> 3)) as [[Hd _]|_].
    + by apply elem_of_nil in Hd.
    + by destruct (d !! j).
  - apply NoDup_cons in Hnd as [Hk Hnd]. apply Forall_cons in Hks as [Hk0 Hks].
    rewrite IH, contrastStep_lookup by done.
    destruct (d !! j) as [v|]; simpl; [|done].
    destruct (decide (Z.of_nat j / 4 ∈ ks /\ Z.of_nat j mod 4 <> 3)) as [[Hin Hr]|Hn1];
      destruct (decide (Z.of_nat j / 4 = k /\ Z.of_nat j mod 4 <> 3)) as [[Heq Hr']|Hn2];
      destruct (decide (Z.of_nat j / 4 ∈ k :: ks /\ Z.of_nat j mod 4 <> 3)) as [[Hin' Hr'']|Hn3];
      simpl; try done; exfalso.
    + subst k. done.
    + subst k. done.
    + apply Hn3. split; [by right|done].
    + apply Hn3. split; [subst k; left|done].
    + apply elem_of_cons in Hin' as [?|?]; tauto.
Qed.

Lemma contrastBrightness_lookup (d : list Z) (j : nat) :
  contrastBrightness d !! j =
    (if decide (Z.of_nat j mod 4 <> 3) then (fun v => adjust (Some v)) else id) <$> d !! j.
Proof.
  unfold contrastBrightness, range4. rewrite contrast_fold_lookup.
  - destruct (d !! j) as [v|] eqn:E; simpl; [|done].
    apply lookup_lt_Some in E.
    destruct (decide (Z.of_nat j mod 4 <> 3)) as [Hr|Hr];
      match goal with |- context [decide ?P] => destruct (decide P) as [Hd|Hd] end;
      try done; exfalso; [|tauto].
    apply Hd. split; [|done]. apply elem_of_seqZ.
    Z.div_mod_to_equations; lia.
  - apply NoDup_seqZ.
  - apply Forall_forall. intros i Hi%elem_of_seqZ. lia.
Qed.

Lemma contrastBrightness_length (d : list Z) :
  length (contrastBrightness d) = length d.
Proof.
  unfold contrastBrightness.
  apply (fold_left_preserves (fun out => length out = length d)); [|done].
  intros out i Hout. unfold contrastStep. by rewrite !writeAt_length.
Qed.

Lemma linearContrast_nearest (v : Z) :
  0 <= v <= 255 ->
  (Qabs (inject_Z (toUint8Clamp (linearContrast v)) - linearContrast v) <= 1 # 2)%Q /\
  ((Qabs (inject_Z (toUint8Clamp (linearContrast v)) - linearContrast v) == 1 # 2)%Q ->
   Z.even (toUint8Clamp (linearContrast v)) = true).
Proof.
  intros Hv.
  assert (Hall : forallb (fun v =>
            let e := Qabs (inject_Z (toUint8Clamp (linearContrast v)) - linearContrast v) in
            Qle_bool e (1 # 2)
            && (negb (Qeq_bool e (1 # 2)) || Z.even (toUint8Clamp (linearContrast v))))
          (seqZ 0 256) = true) by (vm_compute; reflexivity).
  rewrite forallb_forall in Hall.
  assert (Hin : In v (seqZ 0 256)) by (apply list_elem_of_In, elem_of_seqZ; lia).
  specialize (Hall v Hin). cbv zeta in Hall.
  apply andb_true_iff in Hall as [Hle Htie].
  split; [by apply Qle_bool_iff|].
  intros Heq. apply Qeq_bool_iff in Heq. rewrite Heq in Htie. done.
Qed.

(** C9: the contrast/brightness stage maps every R, G and B byte [v] to
    the byte for [clamp(1.05 * v + 10, 0, 255)], that is the integer
    nearest to it (the store into the 8-bit clamped array rounds, a tie going
    to the even byte), leaves every alpha byte as it is, and every byte of
    its output is in [0, 255]. *)
Theorem contrastBrightness_spec (d : list Z) :
  Forall (fun v => 0 <= v <= 255) d ->
  length (contrastBrightness d) = length d /\
  forall j v, d !! j = Some v ->
    (Z.of_nat j mod 4 = 3 -> contrastBrightness d !! j = Some v) /\
    (Z.of_nat j mod 4 <> 3 ->
       exists v', contrastBrightness d !! j = Some v' /\
         v' = toUint8Clamp (linearContrast v) /\
         (Qabs (inject_Z v' - linearContrast v) <= 1 # 2)%Q /\
         ((Qabs (inject_Z v' - linearContrast v) == 1 # 2)%Q -> Z.even v' = true)) /\
    exists v', contrastBrightness d !! j = Some v' /\ 0 <= v' <= 255.
Proof.
  intros Hbytes. split; [apply contrastBrightness_length|].
  intros j v Hj. rewrite contrastBrightness_lookup, Hj. simpl.
  assert (Hv : 0 <= v <= 255) by (rewrite Forall_lookup in Hbytes; eauto).
  destruct (decide (Z.of_nat j mod 4 <> 3)) as [Hr|Hr]; simpl.
  - split; [done|]. split.
    + intros _. eexists. split; [reflexivity|]. split; [reflexivity|].
      by apply linearContrast_nearest.
    + eexists. split; [done|]. apply toUint8Clamp_range.
  - split; [done|]. split; [tauto|]. exists v. done.
Qed.

Lemma contrastBrightness_spec_witness :
  length (contrastBrightness [1; 10; 234; 77]) = length [1; 10; 234; 77] /\
  contrastBrightness [1; 10; 234; 77] = [11; 20; 255; 77] /\
  (exists v', contrastBrightness [1; 10; 234; 77] !! 1%nat = Some v' /\
     v' = toUint8Clamp (linearContrast 10) /\
     (Qabs (inject_Z v' - linearContrast 10) <= 1 # 2)%Q /\
     ((Qabs (inject_Z v' - linearContrast 10) == 1 # 2)%Q -> Z.even v' = true)).
Proof.
  assert (Hbytes : Forall (fun v => 0 <= v <= 255) [1; 10; 234; 77]) by all_bytes.
  destruct (contrastBrightness_spec [1; 10; 234; 77] Hbytes) as [Hlen Hall].
  split; [exact Hlen|]. split; [reflexivity|].
  destruct (Hall 1%nat 10 eq_refl) as (_ & Hcolour & _).
  apply Hcolour. cbv. discriminate.
Defined.

(** ** Enhancement engine *)

Lemma sharpen_length (d : list Z) (w h : Z) : length (sharpen d w h) = length d.
Proof.
  unfold sharpen.
  apply (fold_left_preserves (fun out => length out = length d)).
  - intros out i Hout. unfold sharpenStep. rewrite writeAt_length.
    revert out Hout.
    apply (fold_left_preserves (fun out => length out = length d)).
    intros out c Hout. by rewrite writeAt_length.
  - unfold newArray. by rewrite length_replicate, Nat2Z.id.
Qed.

(** C8: the output of the enhancement pipeline is twice as wide and twice
    as high as its input when the width or the height is below 512, and as
    wide and as high as its input when both are at least 512. *)
Theorem enhanceImage_dimensions (input : EnhanceInput) (out : Buffer) :
  enhanceImage input = Ok out ->
  (imgWidth input < 512 \/ imgHeight input < 512 ->
     width out = 2 * imgWidth input /\ height out = 2 * imgHeight input) /\
  (512 <= imgWidth input /\ 512 <= imgHeight input ->
     width out = imgWidth input /\ height out = imgHeight input).
Proof.
  unfold enhanceImage, workingSize, upscaleFactor.
  destruct (decodes input); [|done]. destruct (ctxAvailable input); [|done]. simpl.
  destruct (Z.ltb_spec (imgHeight input) 512), (Z.ltb_spec (imgWidth input) 512); simpl.
  1-3: destruct (upscaledCtxAvailable input); [|done]; simpl.
  all: destruct (_ || _); [done|].
  all: destruct (negb _); [done|].
  all: destruct (blobCreated input); [|done].
  all: intros [= <-]; simpl; lia.
Qed.

Lemma enhanceImage_dimensions_witness :
  (imgWidth sampleInput < 512 \/ imgHeight sampleInput < 512 ->
     width sampleOutput = 2 * imgWidth sampleInput /\
     height sampleOutput = 2 * imgHeight sampleInput) /\
  (512 <= imgWidth sampleInput /\ 512 <= imgHeight sampleInput ->
     width sampleOutput = imgWidth sampleInput /\
     height sampleOutput = imgHeight sampleInput).
Proof.
  apply (enhanceImage_dimensions sampleInput sampleOutput).
  vm_compute. reflexivity.
Defined.

(* ================================================================== *)
(** * Further properties of the detection engine *)

(** ** Bounding rectangles and unions *)

Lemma boundStep_fold_extremes (rest seen : list Point) (acc : Z * Z * Z * Z) :
  extremesOf seen acc -> extremesOf (seen ++ rest) (fold_left boundStep rest acc).
Proof.
  revert seen acc. induction rest as [|p rest IH]; intros seen acc Hacc; simpl.
  - by rewrite app_nil_r.
  - replace (seen ++ p :: rest) with ((seen ++ [p]) ++ rest) by by rewrite <- app_assoc.
    apply IH. destruct acc as [[[minX minY] maxX] maxY].
    destruct Hacc as (Hall & (p1 & Hp1 & E1) & (p2 & Hp2 & E2) & (p3 & Hp3 & E3) & (p4 & Hp4 & E4)).
    assert (Hp : p ∈ seen ++ [p]) by (apply elem_of_app; right; left).
    assert (Hs : forall q, q ∈ seen -> q ∈ seen ++ [p]) by (intros; apply elem_of_app; by left).
    unfold boundStep, extremesOf.
    pose proof (Hall p1 Hp1). pose proof (Hall p2 Hp2).
    pose proof (Hall p3 Hp3). pose proof (Hall p4 Hp4).
    split; [|split; [|split; [|split]]].
    + intros q [Hq| ->%list_elem_of_singleton]%elem_of_app.
      * specialize (Hall q Hq).
        destruct (Z.ltb_spec (pt_x p) minX), (Z.ltb_spec (pt_y p) minY),
          (Z.ltb_spec maxX (pt_x p)), (Z.ltb_spec maxY (pt_y p)); lia.
      * destruct (Z.ltb_spec (pt_x p) minX), (Z.ltb_spec (pt_y p) minY),
          (Z.ltb_spec maxX (pt_x p)), (Z.ltb_spec maxY (pt_y p)); lia.
    + destruct (Z.ltb_spec (pt_x p) minX); [by exists p|exists p1; auto].
    + destruct (Z.ltb_spec (pt_y p) minY); [by exists p|exists p2; auto].
    + destruct (Z.ltb_spec maxX (pt_x p)); [by exists p|exists p3; auto].
    + destruct (Z.ltb_spec maxY (pt_y p)); [by exists p|exists p4; auto].
Qed.

Lemma getBoundingRect_extremes (p0 : Point) (rest : list Point) :
  let b := getBoundingRect (p0 :: rest) in
  extremesOf (p0 :: rest) (box_x b, box_y b, box_x b + box_w b, box_y b + box_h b).
Proof.
  simpl.
  pose proof (boundStep_fold_extremes rest [p0] (pt_x p0, pt_y p0, pt_x p0, pt_y p0)) as Hf.
  destruct (fold_left boundStep rest _) as [[[minX minY] maxX] maxY]. simpl.
  replace (minX + (maxX - minX)) with maxX by lia.
  replace (minY + (maxY - minY)) with maxY by lia.
  apply Hf. unfold extremesOf.
  split; [intros p ->%list_elem_of_singleton; lia|].
  repeat split; exists p0; (split; [left|done]).
Qed.

(** X1: the bounding rectangle of a non-empty contour covers every point of
    the contour, and each of its four sides passes through a point of it. *)
Theorem getBoundingRect_tight (contour : list Point) :
  contour <> [] ->
  let b := getBoundingRect contour in
  (forall p, p ∈ contour ->
     box_x b <= pt_x p <= box_x b + box_w b /\ box_y b <= pt_y p <= box_y b + box_h b) /\
  (exists p, p ∈ contour /\ pt_x p = box_x b) /\
  (exists p, p ∈ contour /\ pt_y p = box_y b) /\
  (exists p, p ∈ contour /\ pt_x p = box_x b + box_w b) /\
  (exists p, p ∈ contour /\ pt_y p = box_y b + box_h b).
Proof.
  destruct contour as [|p0 rest]; [done|]. intros _.
  apply (getBoundingRect_extremes p0 rest).
Qed.

Lemma getBoundingRect_tight_witness :
  let contour := [mkPoint 3 4; mkPoint 1 7; mkPoint 5 2] in
  let b := getBoundingRect contour in
  (forall p, p ∈ contour ->
     box_x b <= pt_x p <= box_x b + box_w b /\ box_y b <= pt_y p <= box_y b + box_h b) /\
  (exists p, p ∈ contour /\ pt_x p = box_x b) /\
  (exists p, p ∈ contour /\ pt_y p = box_y b) /\
  (exists p, p ∈ contour /\ pt_x p = box_x b + box_w b) /\
  (exists p, p ∈ contour /\ pt_y p = box_y b + box_h b).
Proof.
  apply (getBoundingRect_tight [mkPoint 3 4; mkPoint 1 7; mkPoint 5 2]). discriminate.
Defined.

(** X2: a contour whose points share one column, or share one row (a
    single point in particular), and the empty contour, never pass the
    area filter. *)
Theorem flat_contour_filtered (W H : Z) (contour : list Point) :
  0 <= W * H ->
  (forall p q, p ∈ contour -> q ∈ contour -> pt_x p = pt_x q) \/
  (forall p q, p ∈ contour -> q ∈ contour -> pt_y p = pt_y q) ->
  exceedsMinArea W H (getBoundingRect contour) = false.
Proof.
  intros HWH Hflat. apply not_true_is_false. rewrite exceedsMinArea_spec.
  destruct contour as [|p0 rest]; [simpl; lia|].
  destruct (getBoundingRect_extremes p0 rest)
    as (_ & (p1 & Hp1 & E1) & (p2 & Hp2 & E2) & (p3 & Hp3 & E3) & (p4 & Hp4 & E4)).
  destruct Hflat as [Hx|Hy].
  - specialize (Hx p1 p3 Hp1 Hp3).
    assert (box_w (getBoundingRect (p0 :: rest)) = 0) as -> by lia. lia.
  - specialize (Hy p2 p4 Hp2 Hp4).
    assert (box_h (getBoundingRect (p0 :: rest)) = 0) as -> by lia. lia.
Qed.

Lemma flat_contour_filtered_witness :
  exceedsMinArea 6 6 (getBoundingRect [mkPoint 2 1; mkPoint 2 2; mkPoint 2 3]) = false.
Proof.
  apply (flat_contour_filtered 6 6 [mkPoint 2 1; mkPoint 2 2; mkPoint 2 3]); [lia|].
  left. intros p q Hp Hq.
  repeat (apply elem_of_cons in Hp as [->|Hp]); try (by apply elem_of_nil in Hp);
  repeat (apply elem_of_cons in Hq as [->|Hq]); try (by apply elem_of_nil in Hq);
  reflexivity.
Defined.

(** X3: [mergeRects] is the least box covering both arguments, and does
    not depend on their order. *)
Theorem mergeRects_hull (a b : CropBox) :
  contains (mergeRects a b) a /\ contains (mergeRects a b) b /\
  (forall c, contains c a -> contains c b -> contains c (mergeRects a b)) /\
  mergeRects a b = mergeRects b a.
Proof.
  unfold contains, mergeRects. simpl.
  split; [lia|]. split; [lia|]. split.
  - intros c (? & ? & ? & ?) (? & ? & ? & ?). lia.
  - f_equal; lia.
Qed.


(** ** What the merge loop leaves behind *)

Lemma shouldMerge_comm (a b : CropBox) (m : Q) : shouldMerge a b m = shouldMerge b a m.
Proof.
  apply eq_true_iff_eq. rewrite !shouldMerge_spec.
  split; intros H; repeat split; lra.
Qed.





Lemma contains_refl (a : CropBox) : contains a a.
Proof. unfold contains. lia. Qed.

Lemma contains_trans (a b c : CropBox) : contains a b -> contains b c -> contains a c.
Proof. unfold contains. lia. Qed.

Lemma mergeAt_covers boxes m i j :
  findPair boxes m = Some (i, j) ->
  (forall b, b ∈ boxes -> exists o, o ∈ mergeAt boxes i j /\ contains o b) /\
  (forall o, o ∈ mergeAt boxes i j -> exists b, b ∈ boxes /\ contains o b).
Proof.
  intros (bi & bj & Hi & Hj & Hlt & _)%findPair_Some.
  unfold mergeAt. rewrite Hi, Hj.
  set (mg := mergeRects bi bj).
  assert (Hmi : contains mg bi) by (unfold mg, contains, mergeRects; simpl; lia).
  assert (Hmj : contains mg bj) by (unfold mg, contains, mergeRects; simpl; lia).
  assert (Hleni : (i < length boxes)%nat) by by eapply lookup_lt_Some.
  assert (Hnew : delete j (<[i := mg]> boxes) !! i = Some mg).
  { rewrite list_lookup_delete_lt by done. by apply list_lookup_insert_eq. }
  split.
  - intros b (k & Hk)%list_elem_of_lookup.
    destruct (decide (k = i)) as [->|Hki].
    { exists mg. split; [by eapply list_elem_of_lookup_2|]. congruence. }
    destruct (decide (k = j)) as [->|Hkj].
    { exists mg. split; [by eapply list_elem_of_lookup_2|]. congruence. }
    exists b. split; [|apply contains_refl].
    destruct (decide (k < j)%nat).
    + apply (list_elem_of_lookup_2 _ k).
      rewrite list_lookup_delete_lt by done. by rewrite list_lookup_insert_ne.
    + apply (list_elem_of_lookup_2 _ (pred k)).
      rewrite list_lookup_delete_ge by lia. rewrite list_lookup_insert_ne by lia.
      replace (S (pred k)) with k by lia. done.
  - intros o (k & Hk)%list_elem_of_lookup.
    destruct (decide (k < j)%nat).
    + rewrite list_lookup_delete_lt in Hk by done.
      destruct (decide (i = k)) as [->|Hki].
      * rewrite list_lookup_insert_eq in Hk by done. injection Hk as <-.
        exists bi. split; [by eapply list_elem_of_lookup_2|done].
      * rewrite list_lookup_insert_ne in Hk by done.
        exists o. split; [by eapply list_elem_of_lookup_2|apply contains_refl].
    + rewrite list_lookup_delete_ge in Hk by lia.
      rewrite list_lookup_insert_ne in Hk by lia.
      exists o. split; [by eapply list_elem_of_lookup_2|apply contains_refl].
Qed.

Lemma mergeLoop_covers fuel boxes m out :
  mergeLoop fuel boxes m = Some out ->
  (forall b, b ∈ boxes -> exists o, o ∈ out /\ contains o b) /\
  (forall o, o ∈ out -> exists b, b ∈ boxes /\ contains o b) /\
  (length out <= length boxes)%nat.
Proof.
  revert boxes. induction fuel as [|fuel IH]; intros boxes; simpl;
    destruct (findPair boxes m) as [[i j]|] eqn:E; try done.
  - intros [= <-]. repeat split; eauto using contains_refl.
  - intros Hl. destruct (IH _ Hl) as (H1 & H2 & H3).
    destruct (mergeAt_covers _ _ _ _ E) as [G1 G2].
    pose proof (mergeAt_length _ _ _ _ E).
    split; [|split; [|lia]].
    + intros b Hb. destruct (G1 b Hb) as (o & Ho & Hc).
      destruct (H1 o Ho) as (o' & Ho' & Hc'). eauto using contains_trans.
    + intros o Ho. destruct (H2 o Ho) as (b & Hb & Hc).
      destruct (G2 b Hb) as (b' & Hb' & Hc'). eauto using contains_trans.
  - intros [= <-]. repeat split; eauto using contains_refl.
Qed.

(** X5: [mergeNearbyBoxes] loses no region and invents none: every input
    box lies inside some output box, every output box covers some input
    box, and the list never grows nor becomes empty. *)
Theorem mergeNearbyBoxes_covers (boxes : list CropBox) (W H : Z) :
  exists out,
    mergeNearbyBoxes boxes W H = Some out /\
    (forall b, b ∈ boxes -> exists o, o ∈ out /\ contains o b) /\
    (forall o, o ∈ out -> exists b, b ∈ boxes /\ contains o b) /\
    (length out <= length boxes)%nat /\
    (out = [] <-> boxes = []).
Proof.
  destruct (mergeNearbyBoxes_total boxes W H) as [out Hout].
  exists out. split; [done|].
  assert (Hcov : (forall b, b ∈ boxes -> exists o, o ∈ out /\ contains o b) /\
                 (forall o, o ∈ out -> exists b, b ∈ boxes /\ contains o b) /\
                 (length out <= length boxes)%nat).
  { unfold mergeNearbyBoxes in Hout. destruct (length boxes <? 2)%nat.
    - injection Hout as <-. repeat split; eauto using contains_refl.
    - by eapply mergeLoop_covers. }
  destruct Hcov as (H1 & H2 & H3). repeat split; try done.
  - intros ->. destruct boxes as [|b boxes]; [done|].
    destruct (H1 b) as (o & Ho & _); [left|]. by apply elem_of_nil in Ho.
  - intros ->. destruct out as [|o out]; [done|]. simpl in H3. lia.
Qed.

(** ** The reducer *)

Lemma largerBox_fold_first (others seen : list CropBox) (cur : CropBox) (k : nat) :
  firstLargest seen k cur ->
  exists k', firstLargest (seen ++ others) k' (fold_left largerBox others cur).
Proof.
  revert seen cur k. induction others as [|b others IH]; intros seen cur k Hk; simpl.
  - exists k. by rewrite app_nil_r.
  - replace (seen ++ b :: others) with ((seen ++ [b]) ++ others) by by rewrite <- app_assoc.
    destruct Hk as (Hk & Hmax & Hfirst).
    unfold largerBox. fold (area cur) (area b).
    destruct (Z.ltb_spec (area cur) (area b)).
    + apply (IH _ _ (length seen)). split; [|split].
      * rewrite lookup_app_r by lia. by rewrite Nat.sub_diag.
      * intros b' [Hb'| ->%list_elem_of_singleton]%elem_of_app; [|lia].
        specialize (Hmax b' Hb'). lia.
      * intros k' b' Hlt Hb'. rewrite lookup_app_l in Hb' by done.
        apply list_elem_of_lookup_2, Hmax in Hb'. lia.
    + apply (IH _ _ k). split; [|split].
      * apply lookup_app_l_Some. done.
      * intros b' [Hb'| ->%list_elem_of_singleton]%elem_of_app; [auto|lia].
      * intros k' b' Hlt Hb'. apply (Hfirst k' b' Hlt).
        apply lookup_lt_Some in Hk. by rewrite lookup_app_l in Hb' by lia.
Qed.

(** X6: on a non-empty list the reducer returns a box of the largest area,
    and of several such boxes the first in list order. *)
Theorem reduceLargest_first_largest (boxes : list CropBox) :
  boxes <> [] ->
  exists k best, reduceLargest boxes = Some best /\ firstLargest boxes k best.
Proof.
  destruct boxes as [|first others]; [done|]. intros _. simpl.
  destruct (largerBox_fold_first others [first] first 0) as [k Hk].
  - split; [done|]. split.
    + intros b ->%list_elem_of_singleton. lia.
    + intros k' b Hlt. lia.
  - eauto.
Qed.

Lemma reduceLargest_first_largest_witness :
  exists k best,
    reduceLargest [mkBox 0 0 2 2; mkBox 1 1 4 1; mkBox 0 0 1 4] = Some best /\
    firstLargest [mkBox 0 0 2 2; mkBox 1 1 4 1; mkBox 0 0 1 4] k best.
Proof.
  apply (reduceLargest_first_largest [mkBox 0 0 2 2; mkBox 1 1 4 1; mkBox 0 0 1 4]).
  discriminate.
Defined.


(** ** Loops that fill a raster *)

Lemma fold_left_ext {S A : Type} (f g : S -> A -> S) (l : list A) (s : S) :
  (forall s a, f s a = g s a) -> fold_left f l s = fold_left g l s.
Proof. intros Hfg. revert s. induction l as [|a l IH]; intros s; simpl; [done|]. by rewrite Hfg, IH. Qed.

Lemma writeAt_lookup (out : list Z) (i : Z) (v : Z) (j : nat) :
  0 <= i ->
  writeAt out i v !! j =
    if (Z.of_nat j =? i) && (j <? length out)%nat then Some v else out !! j.
Proof.
  intros Hi. unfold writeAt. destruct (Z.ltb_spec i 0); [lia|].
  rewrite list_lookup_insert.
  destruct (Z.eqb_spec (Z.of_nat j) i), (Nat.ltb_spec j (length out)); simpl;
    destruct (decide _) as [[? ?]|Hn]; try done; try lia;
    exfalso; apply Hn; split; lia.
Qed.

Lemma range_elem (lo hi i : Z) : i ∈ range lo hi <-> lo <= i < hi.
Proof. unfold range. rewrite elem_of_seqZ. lia. Qed.

Lemma memZ_range (a lo hi : Z) : memZ a (range lo hi) = (lo <=? a) && (a <? hi).
Proof.
  unfold memZ. apply eq_true_iff_eq.
  rewrite existsb_exists, andb_true_iff, Z.leb_le, Z.ltb_lt. split.
  - intros (x & Hx & E). apply Z.eqb_eq in E. subst x.
    apply list_elem_of_In, range_elem in Hx. lia.
  - intros Ha. exists a. rewrite Z.eqb_eq. split; [|done].
    apply list_elem_of_In, range_elem. lia.
Qed.

Section Raster.
Variable w : Z.
Variable act : Z -> Z -> option Z.
Hypothesis w_pos : 0 < w.

Lemma rasterRow_length y xs out :
  length (fold_left (rasterStep w act y) xs out) = length out.
Proof.
  revert out. induction xs as [|x xs IH]; intros out; simpl; [done|].
  rewrite IH. unfold rasterStep. destruct (act x y); [apply writeAt_length|done].
Qed.

(** One row: the only [x] that can reach cell [j] is [j - y * w]. *)
Lemma rasterRow_lookup y xs out j :
  0 <= y -> Forall (fun x => 0 <= x) xs ->
  fold_left (rasterStep w act y) xs out !! j =
    if memZ (Z.of_nat j - y * w) xs && (j <? length out)%nat
    then match act (Z.of_nat j - y * w) y with
         | Some v => Some v
         | None => out !! j
         end
    else out !! j.
Proof.
  intros Hy. revert out. induction xs as [|x xs IH]; intros out Hxs; simpl; [done|].
  apply Forall_cons in Hxs as [Hx Hxs]. rewrite IH by done.
  assert (Hlen : length (rasterStep w act y out x) = length out).
  { unfold rasterStep. destruct (act x y); [apply writeAt_length|done]. }
  rewrite Hlen.
  assert (Hstep : rasterStep w act y out x !! j =
    if (Z.of_nat j - y * w =? x) && (j <? length out)%nat
    then match act x y with Some v => Some v | None => out !! j end
    else out !! j).
  { unfold rasterStep. destruct (act x y) as [v|].
    - rewrite writeAt_lookup by nia.
      destruct (Z.eqb_spec (Z.of_nat j) (y * w + x)),
        (Z.eqb_spec (Z.of_nat j - y * w) x); try lia; done.
    - by destruct (_ && _). }
  rewrite Hstep. clear IH Hstep.
  destruct (Z.eqb_spec (Z.of_nat j - y * w) x) as [->|Hne]; simpl; [|done].
  destruct (memZ _ xs), (j <? length out)%nat, (act _ y); done.
Qed.

(** All rows: cell [j] is written by row [j / w] at column [j mod w]. *)
Lemma raster_lookup xs ys out j :
  Forall (fun x => 0 <= x < w) xs -> Forall (fun y => 0 <= y) ys ->
  fold_left (fun out y => fold_left (rasterStep w act y) xs out) ys out !! j =
    if memZ (Z.of_nat j / w) ys && memZ (Z.of_nat j mod w) xs && (j <? length out)%nat
    then match act (Z.of_nat j mod w) (Z.of_nat j / w) with
         | Some v => Some v
         | None => out !! j
         end
    else out !! j.
Proof.
  intros Hxs. revert out. induction ys as [|y ys IH]; intros out Hys; simpl; [done|].
  apply Forall_cons in Hys as [Hy Hys]. rewrite IH by done. clear IH.
  rewrite rasterRow_length, rasterRow_lookup; [|done|].
  2: { eapply Forall_impl; [exact Hxs|]. simpl. intros; lia. }
  destruct (Z.eqb_spec (Z.of_nat j / w) y) as [<-|Hne]; simpl.
  - replace (Z.of_nat j - Z.of_nat j / w * w) with (Z.of_nat j mod w)
      by (rewrite Z.mod_eq by lia; lia).
    destruct (memZ _ ys), (memZ _ xs), (j <? length out)%nat, (act _ _); done.
  - assert (Hout : memZ (Z.of_nat j - y * w) xs = false).
    { apply not_true_is_false. unfold memZ. rewrite existsb_exists.
      intros (x & Hx & E). apply Z.eqb_eq in E. apply list_elem_of_In in Hx.
      rewrite Forall_forall in Hxs. specialize (Hxs x Hx).
      apply Hne. symmetry. apply (Z.div_unique _ _ y x); lia. }
    rewrite Hout. simpl. done.
Qed.

Lemma raster_length xs ys out :
  length (fold_left (fun out y => fold_left (rasterStep w act y) xs out) ys out)
    = length out.
Proof.
  revert out. induction ys as [|y ys IH]; intros out; simpl; [done|].
  by rewrite IH, rasterRow_length.
Qed.

End Raster.

Lemma pixel_index (w h x y : Z) :
  0 <= x < w -> 0 <= y < h ->
  0 <= y * w + x < w * h /\ (y * w + x) / w = y /\ (y * w + x) mod w = x.
Proof.
  intros Hx Hy. split; [nia|]. split.
  - symmetry. apply (Z.div_unique _ _ y x); lia.
  - symmetry. apply (Z.mod_unique _ _ y x); lia.
Qed.

Lemma interior_range (w h x y : Z) :
  memZ y (range 1 (h - 1)) && memZ x (range 1 (w - 1)) = interior w h x y.
Proof. rewrite !memZ_range. unfold interior. by destruct (1 <=? x), (x <? w - 1), (1 <=? y), (y <? h - 1). Qed.

Lemma range_Forall (lo hi : Z) (P : Z -> Prop) :
  (forall i, lo <= i < hi -> P i) -> Forall P (range lo hi).
Proof. intros HP. apply Forall_forall. intros i Hi%range_elem. auto. Qed.

(** ** Blur filter *)

Lemma gaussianBlur_raster (gray : Buffer) :
  data (gaussianBlur gray) =
    fold_left (fun out y =>
        fold_left (rasterStep (width gray)
                     (fun x y => Some (blurValue (data gray) (width gray) x y)) y)
          (range 1 (width gray - 1)) out)
      (range 1 (height gray - 1)) (newArray (width gray * height gray)).
Proof. reflexivity. Qed.

Lemma gaussianBlur_lookup (gray : Buffer) (x y : Z) :
  0 <= x < width gray -> 0 <= y < height gray ->
  readAt (data (gaussianBlur gray)) (y * width gray + x) =
    Some (if interior (width gray) (height gray) x y
          then blurValue (data gray) (width gray) x y else 0).
Proof.
  intros Hx Hy. destruct (pixel_index _ _ x y Hx Hy) as (Hidx & Hdiv & Hmod).
  rewrite gaussianBlur_raster.
  unfold readAt. destruct (Z.ltb_spec (y * width gray + x) 0); [lia|].
  rewrite raster_lookup; [|lia|apply range_Forall; lia|apply range_Forall; lia].
  rewrite Z2Nat.id, Hdiv, Hmod, interior_range by lia.
  unfold newArray. rewrite length_replicate.
  assert (Hlt : (Z.to_nat (y * width gray + x) <? Z.to_nat (width gray * height gray))%nat = true)
    by (apply Nat.ltb_lt; lia).
  rewrite Hlt, andb_true_r.
  destruct (interior _ _ x y); [done|].
  apply lookup_replicate. split; [done|]. by apply Nat.ltb_lt.
Qed.

(** X7: the blur keeps the buffer's shape, leaves the outermost ring of
    pixels at 0 and stores at every other pixel the clamped, rounded
    weighted mean of its 3x3 window. *)
Theorem gaussianBlur_pixel (gray : Buffer) (x y : Z) :
  0 <= x < width gray -> 0 <= y < height gray ->
  width (gaussianBlur gray) = width gray /\
  height (gaussianBlur gray) = height gray /\
  Z.of_nat (length (data (gaussianBlur gray))) = width gray * height gray /\
  readAt (data (gaussianBlur gray)) (y * width gray + x) =
    Some (if interior (width gray) (height gray) x y
          then blurValue (data gray) (width gray) x y else 0).
Proof.
  intros Hx Hy. split; [done|]. split; [done|]. split; [|by apply gaussianBlur_lookup].
  rewrite gaussianBlur_raster, raster_length. unfold newArray. rewrite length_replicate. nia.
Qed.

Lemma gaussianBlur_pixel_witness :
  let gray := mkBuffer [0; 0; 0; 0; 0; 255; 8; 0; 0; 0; 0; 0] 4 3 in
  width (gaussianBlur gray) = width gray /\
  height (gaussianBlur gray) = height gray /\
  Z.of_nat (length (data (gaussianBlur gray))) = width gray * height gray /\
  readAt (data (gaussianBlur gray)) (1 * width gray + 2) =
    Some (if interior (width gray) (height gray) 2 1
          then blurValue (data gray) (width gray) 2 1 else 0).
Proof.
  apply (gaussianBlur_pixel (mkBuffer [0; 0; 0; 0; 0; 255; 8; 0; 0; 0; 0; 0] 4 3) 2 1);
    simpl; lia.
Defined.

(** ** Gradient edge extractor *)

Lemma cannyEdgeDetector_raster (gray : Buffer) (t : Z) :
  data (cannyEdgeDetector gray t) =
    fold_left (fun out y =>
        fold_left (rasterStep (width gray)
                     (fun x y => if gradientExceeds (data gray) (width gray) t x y
                                 then Some 255 else None) y)
          (range 1 (width gray - 1)) out)
      (range 1 (height gray - 1)) (newArray (width gray * height gray)).
Proof.
  unfold cannyEdgeDetector. simpl. apply fold_left_ext. intros out y.
  apply fold_left_ext. intros out' x. unfold rasterStep, gradientExceeds.
  by destruct (magnitudeExceeds _ _ _).
Qed.

Lemma cannyEdgeDetector_lookup (gray : Buffer) (t x y : Z) :
  0 <= x < width gray -> 0 <= y < height gray ->
  readAt (data (cannyEdgeDetector gray t)) (y * width gray + x) =
    Some (if interior (width gray) (height gray) x y
             && gradientExceeds (data gray) (width gray) t x y
          then 255 else 0).
Proof.
  intros Hx Hy. destruct (pixel_index _ _ x y Hx Hy) as (Hidx & Hdiv & Hmod).
  rewrite cannyEdgeDetector_raster.
  unfold readAt. destruct (Z.ltb_spec (y * width gray + x) 0); [lia|].
  rewrite raster_lookup; [|lia|apply range_Forall; lia|apply range_Forall; lia].
  rewrite Z2Nat.id, Hdiv, Hmod, interior_range by lia.
  unfold newArray. rewrite length_replicate.
  assert (Hlt : (Z.to_nat (y * width gray + x) <? Z.to_nat (width gray * height gray))%nat = true)
    by (apply Nat.ltb_lt; lia).
  rewrite Hlt, andb_true_r.
  assert (H0 : replicate (Z.to_nat (width gray * height gray)) 0
                 !! Z.to_nat (y * width gray + x) = Some 0).
  { apply lookup_replicate. split; [done|]. by apply Nat.ltb_lt. }
  destruct (interior _ _ x y); simpl; [|done].
  by destruct (gradientExceeds _ _ _ _ _).
Qed.

(** X8: the edge extractor yields a binary mask of the buffer's shape: a
    pixel is 255 exactly when it is off the outermost ring and its Sobel
    magnitude exceeds the threshold, and 0 otherwise. *)
Theorem cannyEdgeDetector_mask (gray : Buffer) (t x y : Z) :
  0 <= x < width gray -> 0 <= y < height gray ->
  Z.of_nat (length (data (cannyEdgeDetector gray t))) = width gray * height gray /\
  readAt (data (cannyEdgeDetector gray t)) (y * width gray + x) =
    Some (if interior (width gray) (height gray) x y
             && gradientExceeds (data gray) (width gray) t x y
          then 255 else 0).
Proof.
  intros Hx Hy. split; [|by apply cannyEdgeDetector_lookup].
  rewrite cannyEdgeDetector_raster, raster_length.
  unfold newArray. rewrite length_replicate. nia.
Qed.

Lemma cannyEdgeDetector_mask_witness :
  let gray := mkBuffer [0; 0; 0; 0; 0; 255; 8; 0; 0; 0; 30; 0] 4 3 in
  Z.of_nat (length (data (cannyEdgeDetector gray 30))) = width gray * height gray /\
  readAt (data (cannyEdgeDetector gray 30)) (1 * width gray + 1) =
    Some (if interior (width gray) (height gray) 1 1
             && gradientExceeds (data gray) (width gray) 30 1 1
          then 255 else 0).
Proof.
  apply (cannyEdgeDetector_mask (mkBuffer [0; 0; 0; 0; 0; 255; 8; 0; 0; 0; 30; 0] 4 3) 30 1 1);
    simpl; lia.
Defined.

Lemma isEdgePixel_canny (gray : Buffer) (t : Z) (p : Point) :
  isEdgePixel (cannyEdgeDetector gray t) p <->
  inBounds gray p /\
  interior (width gray) (height gray) (pt_x p) (pt_y p) = true /\
  gradientExceeds (data gray) (width gray) t (pt_x p) (pt_y p) = true.
Proof.
  unfold isEdgePixel, inBounds.
  change (width (cannyEdgeDetector gray t)) with (width gray).
  change (height (cannyEdgeDetector gray t)) with (height gray).
  split.
  - intros [[Hx Hy] Hd]. rewrite cannyEdgeDetector_lookup in Hd by done.
    destruct (interior _ _ _ _), (gradientExceeds _ _ _ _ _); simpl in Hd; try done.
  - intros ([Hx Hy] & Hi & Hg). split; [done|].
    rewrite cannyEdgeDetector_lookup by done. by rewrite Hi, Hg.
Qed.

Lemma sqrtExceeds_mono (n t1 t2 : Z) :
  t1 <= t2 -> sqrtExceeds n t2 = true -> sqrtExceeds n t1 = true.
Proof.
  unfold sqrtExceeds. rewrite !orb_true_iff, !Z.ltb_lt. intros Ht [H2|H2].
  - left. lia.
  - destruct (Z.lt_ge_cases t1 0); [by left|right]. nia.
Qed.

Lemma cannyEdgeDetector_threshold_mono_aux (gray : Buffer) (t1 t2 : Z) (p : Point) :
  t1 <= t2 ->
  isEdgePixel (cannyEdgeDetector gray t2) p ->
  isEdgePixel (cannyEdgeDetector gray t1) p.
Proof.
  intros Ht. rewrite !isEdgePixel_canny. intros (Hb & Hi & Hg).
  split; [done|]. split; [done|].
  unfold gradientExceeds, magnitudeExceeds in *.
  destruct (convolve3 (data gray) (width gray) sobelX (pt_x p) (pt_y p)) as [gx|]; [|done].
  destruct (convolve3 (data gray) (width gray) sobelY (pt_x p) (pt_y p)) as [gy|]; [|done].
  by eapply sqrtExceeds_mono.
Qed.

(** X9: lowering the threshold only adds edges: every edge pixel found at
    a threshold is an edge pixel at every smaller one, so the contours of
    the pass at 70 lie inside those of the pass at 30. *)
Theorem cannyEdgeDetector_threshold_mono (gray : Buffer) (t1 t2 : Z) (p : Point) :
  t1 <= t2 ->
  isEdgePixel (cannyEdgeDetector gray t2) p ->
  isEdgePixel (cannyEdgeDetector gray t1) p.
Proof. apply cannyEdgeDetector_threshold_mono_aux. Qed.

Lemma cannyEdgeDetector_threshold_mono_witness :
  isEdgePixel (cannyEdgeDetector (mkBuffer [0; 0; 0; 0; 0; 255; 80; 0; 0; 0; 30; 0] 4 3) 30)
    (mkPoint 1 1).
Proof.
  apply (cannyEdgeDetector_threshold_mono
           (mkBuffer [0; 0; 0; 0; 0; 255; 80; 0; 0; 0; 30; 0] 4 3) 30 70 (mkPoint 1 1)).
  - lia.
  - split; [split; simpl; lia|]. vm_compute. reflexivity.
Defined.


Lemma toUint8Clamp_byte (v : Z) :
  0 <= v <= 255 -> toUint8Clamp (inject_Z (16 * v) / inject_Z kernelWeight) = v.
Proof.
  intros Hv.
  assert (Hall : forallb (fun v => toUint8Clamp (inject_Z (16 * v) / inject_Z kernelWeight) =? v)
                   (seqZ 0 256) = true) by (vm_compute; reflexivity).
  rewrite forallb_forall in Hall.
  apply Z.eqb_eq, Hall, list_elem_of_In, elem_of_seqZ. lia.
Qed.

Lemma blurValue_flat (d : list Z) (w x y v : Z) :
  0 <= v <= 255 ->
  (forall kx ky, -1 <= kx <= 1 -> -1 <= ky <= 1 ->
     readAt d ((y + ky) * w + (x + kx)) = Some v) ->
  blurValue d w x y = v.
Proof.
  intros Hv Hread. unfold blurValue, convolve3.
  change (range (-1) 2) with [-1; 0; 1]. simpl.
  rewrite !Hread by lia. simpl.
  change (kernelAt gaussKernel (-1) (-1)) with 1.
  change (kernelAt gaussKernel (-1) 0) with 2.
  change (kernelAt gaussKernel (-1) 1) with 1.
  change (kernelAt gaussKernel 0 (-1)) with 2.
  change (kernelAt gaussKernel 0 0) with 4.
  change (kernelAt gaussKernel 0 1) with 2.
  change (kernelAt gaussKernel 1 (-1)) with 1.
  change (kernelAt gaussKernel 1 0) with 2.
  change (kernelAt gaussKernel 1 1) with 1.
  match goal with |- toUint8Clamp (inject_Z ?s / _) = _ =>
    replace s with (16 * v) by lia end.
  by apply toUint8Clamp_byte.
Qed.

(** X10: the blur leaves flat regions alone: a pixel off the outermost ring
    whose 3x3 window holds the byte [v] nine times keeps the value [v]. *)
Theorem gaussianBlur_flat (gray : Buffer) (x y v : Z) :
  1 <= x < width gray - 1 -> 1 <= y < height gray - 1 -> 0 <= v <= 255 ->
  (forall kx ky, -1 <= kx <= 1 -> -1 <= ky <= 1 ->
     readAt (data gray) ((y + ky) * width gray + (x + kx)) = Some v) ->
  readAt (data (gaussianBlur gray)) (y * width gray + x) = Some v.
Proof.
  intros Hx Hy Hv Hflat. rewrite gaussianBlur_lookup by lia.
  assert (interior (width gray) (height gray) x y = true) as ->.
  { unfold interior. rewrite !andb_true_iff, !Z.leb_le, !Z.ltb_lt. lia. }
  f_equal. by apply blurValue_flat.
Qed.

Lemma gaussianBlur_flat_witness :
  readAt (data (gaussianBlur (mkBuffer [7; 7; 7; 7; 7; 7; 7; 7; 7] 3 3))) (1 * 3 + 1) = Some 7.
Proof.
  apply (gaussianBlur_flat (mkBuffer [7; 7; 7; 7; 7; 7; 7; 7; 7] 3 3) 1 1 7);
    try (simpl; lia).
  intros kx ky Hkx Hky.
  assert (kx = -1 \/ kx = 0 \/ kx = 1) as [->|[->| ->]] by lia;
  assert (ky = -1 \/ ky = 0 \/ ky = 1) as [->|[->| ->]] by lia; reflexivity.
Defined.

(** ** Where a suggestion can lie *)

Lemma mergeRects_insideRing (W H : Z) (a b : CropBox) :
  insideRing W H a -> insideRing W H b -> insideRing W H (mergeRects a b).
Proof. unfold insideRing, mergeRects. simpl. lia. Qed.

Lemma collectContours_interior (blurredData : Buffer) :
  exists allContours,
    collectContours blurredData = Some allContours /\
    Forall (fun c => c <> [] /\ forall p, p ∈ c ->
              1 <= pt_x p <= width blurredData - 2 /\
              1 <= pt_y p <= height blurredData - 2) allContours.
Proof.
  assert (Hone : forall t, exists cs,
    findContours (cannyEdgeDetector blurredData t) = Some cs /\
    Forall (fun c => c <> [] /\ forall p, p ∈ c ->
              1 <= pt_x p <= width blurredData - 2 /\
              1 <= pt_y p <= height blurredData - 2) cs).
  { intros t.
    destruct (findContours_spec (cannyEdgeDetector blurredData t))
      as (cs & E & _ & Hpts & Hne).
    exists cs. split; [done|]. rewrite Forall_forall in *. intros c Hc.
    split; [by apply Hne|]. intros p Hp.
    apply list_elem_of_lookup in Hc as [k Hk].
    assert (Hin : p ∈ concat cs) by eauto using concat_elem.
    apply Hpts, isEdgePixel_canny in Hin as (_ & Hi & _).
    unfold interior in Hi. lia. }
  unfold collectContours, thresholds. simpl.
  destruct (Hone 30) as (cs1 & -> & H1), (Hone 70) as (cs2 & -> & H2). simpl.
  eexists. split; [done|]. apply Forall_app. done.
Qed.

Lemma mergedCandidates_insideRing ctx img mergedBoxes :
  mergedCandidates ctx img = Ok (Some mergedBoxes) ->
  Forall (insideRing (naturalWidth img) (naturalHeight img)) mergedBoxes.
Proof.
  unfold mergedCandidates. destruct ctx; simpl; [|done].
  set (W := naturalWidth img). set (H := naturalHeight img).
  destruct ((W <=? 0) || (H <=? 0)); [done|].
  destruct (collectContours_interior (gaussianBlur (toGrayscale (mkBuffer (raster img) W H))))
    as (allContours & -> & Hall).
  change (width (gaussianBlur _)) with W in Hall.
  change (height (gaussianBlur _)) with H in Hall.
  destruct (length allContours =? 0)%nat; [done|].
  set (validBoxes := List.filter _ _).
  assert (Hvalid : Forall (insideRing W H) validBoxes).
  { apply Forall_forall. intros b Hb. apply list_elem_of_In, filter_In in Hb as [Hb _].
    apply in_map_iff in Hb as (c & <- & Hc).
    rewrite Forall_forall in Hall. apply list_elem_of_In, Hall in Hc as [Hne Hin].
    destruct c as [|p0 rest]; [done|].
    destruct (getBoundingRect_extremes p0 rest)
      as (_ & (p1 & Hp1 & E1) & (p2 & Hp2 & E2) & (p3 & Hp3 & E3) & (p4 & Hp4 & E4)).
    apply Hin in Hp1, Hp2, Hp3, Hp4. unfold insideRing. lia. }
  destruct (length validBoxes =? 0)%nat; [done|].
  destruct (mergeNearbyBoxes validBoxes W H) as [merged|] eqn:Em; [|done].
  destruct (length merged =? 0)%nat; [done|].
  intros [= <-].
  eapply mergeNearbyBoxes_Forall; eauto. apply mergeRects_insideRing.
Qed.

Lemma suggestCrop_inner ctx img box :
  suggestCropWithEdgeDetection ctx img = Ok (Some box) ->
  insideRing (naturalWidth img) (naturalHeight img) box /\
  100 * area box <= 95 * (naturalWidth img * naturalHeight img).
Proof.
  unfold suggestCropWithEdgeDetection, tryBlock.
  destruct (mergedCandidates ctx img) as [[merged|]|msg|] eqn:E; try done.
  pose proof (mergedCandidates_insideRing _ _ _ E) as Hring.
  apply mergedCandidates_candidate in E as (_ & HW & HH & _).
  destruct (chooseCrop merged _ _) as [[b|]|msg|] eqn:Ec; try done.
  intros [= <-]. split.
  - apply chooseCrop_elem in Ec. rewrite Forall_forall in Hring. auto.
  - unfold chooseCrop in Ec. destruct (reduceLargest merged) as [best|]; [|done].
    destruct (ratioExceeds _ _ _) eqn:Er; [done|]. injection Ec as <-.
    assert (Hpos : 0 < naturalWidth img * naturalHeight img) by nia.
    pose proof (ratioExceeds_spec (box_w best * box_h best) _ Hpos) as Hspec.
    unfold area. destruct (Z.le_gt_cases (100 * (box_w best * box_h best))
                             (95 * (naturalWidth img * naturalHeight img))); [done|].
    assert (ratioExceeds (box_w best * box_h best)
              (naturalWidth img * naturalHeight img) (95 # 100) = true)
      by (apply Hspec; lia).
    congruence.
Qed.

(** X11: a suggested crop never reaches the outermost ring of pixels: it
    starts at column and row 1 or later and ends at column [W - 2] and row
    [H - 2] or earlier. *)
Theorem suggestCrop_inside_ring (ctx : bool) (img : HTMLImageElement) (box : CropBox) :
  suggestCropWithEdgeDetection ctx img = Ok (Some box) ->
  1 <= box_x box /\ 1 <= box_y box /\
  box_x box + box_w box <= naturalWidth img - 2 /\
  box_y box + box_h box <= naturalHeight img - 2.
Proof. intros Hr. by apply suggestCrop_inner in Hr as [Hring _]. Qed.

Lemma suggestCrop_inside_ring_witness :
  1 <= box_x (mkBox 1 1 3 3) /\ 1 <= box_y (mkBox 1 1 3 3) /\
  box_x (mkBox 1 1 3 3) + box_w (mkBox 1 1 3 3) <= naturalWidth sampleImage - 2 /\
  box_y (mkBox 1 1 3 3) + box_h (mkBox 1 1 3 3) <= naturalHeight sampleImage - 2.
Proof.
  apply (suggestCrop_inside_ring true sampleImage (mkBox 1 1 3 3)).
  vm_compute. reflexivity.
Defined.

(** X12: a suggested crop never covers more than 95% of the image. *)
Theorem suggestCrop_area_at_most (ctx : bool) (img : HTMLImageElement) (box : CropBox) :
  suggestCropWithEdgeDetection ctx img = Ok (Some box) ->
  (inject_Z (area box)
     <= (95 # 100) * inject_Z (naturalWidth img * naturalHeight img))%Q.
Proof.
  intros Hr. apply suggestCrop_inner in Hr as [_ Ha].
  unfold Qle, Qmult, inject_Z. simpl. lia.
Qed.

Lemma suggestCrop_area_at_most_witness :
  (inject_Z (area (mkBox 1 1 3 3))
     <= (95 # 100) * inject_Z (naturalWidth sampleImage * naturalHeight sampleImage))%Q.
Proof.
  apply (suggestCrop_area_at_most true sampleImage (mkBox 1 1 3 3)).
  vm_compute. reflexivity.
Defined.

(** X13: an image narrower or lower than 4 pixels never gets a suggestion:
    the selector answers null. *)
Theorem suggestCrop_tiny_image (ctx : bool) (img : HTMLImageElement) :
  naturalWidth img < 4 \/ naturalHeight img < 4 ->
  suggestCropWithEdgeDetection ctx img = Ok None.
Proof.
  intros Hsmall. destruct (suggestCrop_resolves ctx img) as [[box|] Hv]; [|done].
  exfalso. pose proof (suggestCrop_inner _ _ _ Hv) as [(? & ? & ? & ?) _].
  apply suggestCrop_candidate in Hv as [(? & ? & _) _]. lia.
Qed.

Lemma suggestCrop_tiny_image_witness :
  suggestCropWithEdgeDetection true (mkImage 3 3 (mjoin (replicate 9%nat (grayPixel 200))))
    = Ok None.
Proof.
  apply (suggestCrop_tiny_image true (mkImage 3 3 (mjoin (replicate 9%nat (grayPixel 200))))).
  left. simpl. lia.
Defined.


Lemma findContours_no_edges (binaryImage : Buffer) :
  (forall p, ~ isEdgePixel binaryImage p) -> findContours binaryImage = Some [].
Proof.
  intros Hnone.
  destruct (findContours_spec binaryImage) as (cs & -> & _ & Hpts & Hne).
  f_equal. destruct cs as [|c cs]; [done|]. exfalso.
  apply Forall_cons in Hne as [Hc _]. destruct c as [|p c]; [done|].
  apply (Hnone p), Hpts. simpl. left.
Qed.

(** X14: where the blurred image has no gradient above the lower threshold
    at any pixel off the outermost ring, the selector finds no contour and
    answers null. *)
Theorem suggestCrop_no_gradient (ctx : bool) (img : HTMLImageElement) :
  (let W := naturalWidth img in
   let H := naturalHeight img in
   let blurredData := gaussianBlur (toGrayscale (mkBuffer (raster img) W H)) in
   forall x y, interior W H x y = true ->
     gradientExceeds (data blurredData) W 30 x y = false) ->
  suggestCropWithEdgeDetection ctx img = Ok None.
Proof.
  cbv zeta. intros Hflat.
  unfold suggestCropWithEdgeDetection, tryBlock, mergedCandidates.
  destruct ctx; [|done]. cbn [negb].
  destruct ((naturalWidth img <=? 0) || (naturalHeight img <=? 0)); [done|].
  set (blurredData := gaussianBlur (toGrayscale _)) in *.
  assert (Hnone : forall t, 30 <= t ->
            findContours (cannyEdgeDetector blurredData t) = Some []).
  { intros t Ht. apply findContours_no_edges. intros p Hp.
    apply (cannyEdgeDetector_threshold_mono_aux blurredData 30 t p Ht) in Hp.
    apply isEdgePixel_canny in Hp as (_ & Hi & Hg).
    change (width blurredData) with (naturalWidth img) in Hi, Hg.
    change (height blurredData) with (naturalHeight img) in Hi.
    rewrite (Hflat _ _ Hi) in Hg. done. }
  unfold collectContours, thresholds. cbn [fold_left].
  rewrite (Hnone 30), (Hnone 70) by lia. done.
Qed.

Lemma suggestCrop_no_gradient_witness :
  suggestCropWithEdgeDetection true (mkImage 4 4 (mjoin (replicate 16%nat (grayPixel 7))))
    = Ok None.
Proof.
  apply (suggestCrop_no_gradient true (mkImage 4 4 (mjoin (replicate 16%nat (grayPixel 7))))).
  cbv zeta. intros x y Hi. unfold interior in Hi. simpl in Hi.
  assert (x = 1 \/ x = 2) as [->| ->] by lia;
  assert (y = 1 \/ y = 2) as [->| ->] by lia; vm_compute; reflexivity.
Defined.

(** The hypothesis is about the blurred image, whose outermost ring is 0:
    a uniform image is not free of gradients there. The uniform white 4 by
    4 image has edges on its inner 2 by 2 square and gets that square. *)
Lemma suggestCrop_uniform_white_sample :
  suggestCropWithEdgeDetection true (mkImage 4 4 (mjoin (replicate 16%nat (grayPixel 255))))
    = Ok (Some (mkBox 1 1 1 1)).
Proof. by vm_compute. Qed.


(** ** Shape of the contours *)

Lemma fold_left_preserves_dom {S A : Type} (P : S -> Prop) (dom : A -> Prop)
    (f : S -> A -> S) (l : list A) :
  (forall s a, dom a -> P s -> P (f s a)) -> Forall dom l ->
  forall s, P s -> P (fold_left f l s).
Proof.
  intros Hf. induction l as [|a l IH]; intros Hl s Hs; simpl; [done|].
  apply Forall_cons in Hl as [Ha Hl]. auto.
Qed.

Lemma adjacent_sym (p q : Point) : adjacent p q -> adjacent q p.
Proof. unfold adjacent. intros (Hne & ? & ?). split; [congruence|lia]. Qed.

Lemma chained_snoc (l : list Point) (p n : Point) :
  chained l -> p ∈ l -> adjacent p n -> chained (l ++ [n]).
Proof.
  intros Hl Hp Hadj k q Hk Hq.
  destruct (decide (k < length l)%nat) as [Hlt|Hge].
  - rewrite lookup_app_l in Hq by done.
    destruct (Hl k q Hk Hq) as (k' & p' & Hk' & Hp' & Ha).
    exists k', p'. split; [done|]. split; [|done]. by apply lookup_app_l_Some.
  - rewrite lookup_app_r in Hq by lia.
    destruct (k - length l)%nat as [|m] eqn:Em; simpl in Hq; [|by destruct m].
    injection Hq as <-.
    apply list_elem_of_lookup in Hp as [k' Hk'].
    exists k', p. split; [apply lookup_lt_Some in Hk'; lia|].
    split; [by apply lookup_app_l_Some|done].
Qed.

Lemma concat_closed (binaryImage : Buffer) (contours : list (list Point)) p q :
  Forall (closedContour binaryImage) contours ->
  p ∈ concat contours -> isEdgePixel binaryImage q -> adjacent p q ->
  q ∈ concat contours.
Proof.
  induction contours as [|c cs IH]; simpl; [by intros _ ?%elem_of_nil|].
  intros [Hc Hcs]%Forall_cons [Hp|Hp]%elem_of_app Hq Ha; apply elem_of_app.
  - left. eapply Hc; eauto.
  - right. auto.
Qed.

Section Shape.
Variable binaryImage : Buffer.

Lemma visitNeighbour_grows point dy st dx :
  exists extra, (visitNeighbour binaryImage point dy st dx).2 = st.2 ++ extra.
Proof.
  destruct st as [visited queue]. unfold visitNeighbour.
  destruct ((dx =? 0) && (dy =? 0)); [exists []; by rewrite app_nil_r|].
  match goal with |- context [if ?c then _ else _] => destruct c end; simpl;
    [eauto|exists []; by rewrite app_nil_r].
Qed.

(** After the step for [(dx, dy)] the neighbour, if it is an edge pixel, is
    among the collected points. *)
Lemma visitNeighbour_cover pre q0 M point dy st dx :
  neighbourInv binaryImage pre q0 M st ->
  let n := mkPoint (pt_x point + dx) (pt_y point + dy) in
  n <> point -> isEdgePixel binaryImage n ->
  n ∈ pre ++ (visitNeighbour binaryImage point dy st dx).2.
Proof.
  destruct st as [visited queue]. intros (Hinv & _ & _) n Hne Hedge.
  pose proof Hedge as [[Hx Hy] Hd]. subst n. simpl in *. unfold visitNeighbour.
  assert ((dx =? 0) && (dy =? 0) = false) as ->.
  { apply not_true_is_false. intros [E1%Z.eqb_eq E2%Z.eqb_eq]%andb_prop.
    apply Hne. destruct point; simpl. f_equal; lia. }
  cbv zeta. rewrite Hd. simpl.
  destruct (Z.leb_spec 0 (pt_x point + dx)); [|lia].
  destruct (Z.ltb_spec (pt_x point + dx) (width binaryImage)); [|lia].
  destruct (Z.leb_spec 0 (pt_y point + dy)); [|lia].
  destruct (Z.ltb_spec (pt_y point + dy) (height binaryImage)); [|lia]. simpl.
  destruct (isVisited visited _) eqn:Ev; simpl.
  - apply (inv_marked _ _ _ Hinv); [done|].
    by apply (isVisited_true binaryImage visited
                (mkPoint (pt_x point + dx) (pt_y point + dy))).
  - rewrite app_assoc. apply elem_of_app. right. left.
Qed.

Lemma visitNeighbours_cover pre q0 M point st n :
  neighbourInv binaryImage pre q0 M st ->
  isEdgePixel binaryImage n -> adjacent point n ->
  n ∈ pre ++ (visitNeighbours binaryImage point st).2.
Proof.
  intros Hst Hn (Hne & Hdx & Hdy). unfold visitNeighbours.
  destruct (scan_fold (neighbourInv binaryImage pre q0 M) (fun st => pre ++ st.2)
    (fun st dy => fold_left (visitNeighbour binaryImage point dy) (range (-1) 2) st)
    (fun _ => True)
    (fun dy l => forall dx, -1 <= dx <= 1 ->
       let m := mkPoint (pt_x point + dx) (pt_y point + dy) in
       m <> point -> isEdgePixel binaryImage m -> m ∈ l))
    with (l := range (-1) 2) (st := st) as (_ & _ & Hcov).
  - intros dy l l' Hc Hsub dx Hd m Hm He. apply Hsub. by apply Hc.
  - intros s dy _ Hs.
    destruct (scan_fold (neighbourInv binaryImage pre q0 M) (fun st => pre ++ st.2)
      (visitNeighbour binaryImage point dy) (fun _ => True)
      (fun dx l => let m := mkPoint (pt_x point + dx) (pt_y point + dy) in
         m <> point -> isEdgePixel binaryImage m -> m ∈ l))
      with (l := range (-1) 2) (st := s) as (Hg & Hsub & Hcov).
    + intros dx l l' Hc Hsub m Hm He. apply Hsub. by apply Hc.
    + intros s' dx _ Hs'. split; [by apply visitNeighbour_inv|]. split.
      * intros p Hp. destruct (visitNeighbour_grows point dy s' dx) as [e ->].
        rewrite app_assoc. apply elem_of_app. by left.
      * intros m. by apply (visitNeighbour_cover pre q0 M).
    + by apply Forall_forall.
    + done.
    + split; [done|]. split; [done|]. intros dx Hd.
      rewrite Forall_forall in Hcov. apply Hcov. apply range_elem. lia.
  - by apply Forall_forall.
  - done.
  - rewrite Forall_forall in Hcov.
    assert (Hy : pt_y n - pt_y point ∈ range (-1) 2) by (apply range_elem; lia).
    specialize (Hcov _ Hy (pt_x n - pt_x point) Hdx). simpl in Hcov.
    replace (mkPoint (pt_x point + (pt_x n - pt_x point)) (pt_y point + (pt_y n - pt_y point)))
      with n in Hcov by (destruct n; simpl; f_equal; lia).
    apply Hcov; [congruence|done].
Qed.

(** Every point enqueued while [point] is processed touches [point]. *)
Lemma visitNeighbour_chain done point dy st dx :
  -1 <= dx <= 1 -> -1 <= dy <= 1 ->
  point ∈ done -> chained (done ++ st.2) ->
  chained (done ++ (visitNeighbour binaryImage point dy st dx).2).
Proof.
  destruct st as [visited queue]. intros Hdx Hdy Hp Hch. simpl in *.
  unfold visitNeighbour.
  destruct ((dx =? 0) && (dy =? 0)) eqn:E0; [done|].
  match goal with |- context [if ?c then _ else _] => destruct c end; simpl; [|done].
  rewrite app_assoc. apply (chained_snoc _ point).
  - done.
  - apply elem_of_app. by left.
  - split; [|simpl; lia].
    intros Heq. destruct point as [px py]. injection Heq as Hx Hy.
    apply andb_false_iff in E0 as [E0|E0]; apply Z.eqb_neq in E0; lia.
Qed.

Lemma visitNeighbours_chain done point st :
  point ∈ done -> chained (done ++ st.2) ->
  chained (done ++ (visitNeighbours binaryImage point st).2).
Proof.
  intros Hp. unfold visitNeighbours. revert st.
  apply (fold_left_preserves_dom (fun st => chained (done ++ st.2))
           (fun dy => -1 <= dy <= 1)); [|apply range_Forall; lia].
  intros s dy Hdy. revert s.
  apply (fold_left_preserves_dom (fun st => chained (done ++ st.2))
           (fun dx => -1 <= dx <= 1)); [|apply range_Forall; lia].
  intros s dx Hdx Hs. by apply visitNeighbour_chain.
Qed.

(** The flood fill returns a contour that is closed under touching edge
    pixels and in which every point touches an earlier one. *)
Lemma floodFill_shape fuel pre visited queue contour :
  fillInv binaryImage visited (pre ++ contour ++ queue) ->
  (unvisited visited + length queue <= fuel)%nat ->
  (forall p n, p ∈ pre -> isEdgePixel binaryImage n -> adjacent p n -> n ∈ pre) ->
  (forall p n, p ∈ contour -> isEdgePixel binaryImage n -> adjacent p n ->
     n ∈ contour ++ queue) ->
  chained (contour ++ queue) ->
  exists visited' extra,
    floodFill fuel binaryImage visited queue contour
      = Some (visited', contour ++ queue ++ extra) /\
    fillInv binaryImage visited' (pre ++ contour ++ queue ++ extra) /\
    closedContour binaryImage (contour ++ queue ++ extra) /\
    chained (contour ++ queue ++ extra).
Proof.
  revert visited queue contour.
  induction fuel as [|fuel IH]; intros visited queue contour Hinv Hfuel Hpre Hsemi Hch.
  - destruct queue as [|p rest]; [|simpl in Hfuel; lia].
    exists visited, []. simpl. rewrite !app_nil_r in *.
    split; [done|]. split; [done|]. split; [|done].
    intros p q Hp Hq Ha. eauto.
  - destruct queue as [|p rest].
    { exists visited, []. simpl. rewrite !app_nil_r in *.
      split; [done|]. split; [done|]. split; [|done].
      intros p q Hp Hq Ha. eauto. }
    simpl.
    assert (Hn : neighbourInv binaryImage (pre ++ contour ++ [p]) rest
                   (unvisited visited + length rest) (visited, rest)).
    { split; [|split]; simpl; [|done|exists []; by rewrite app_nil_r].
      by rewrite <- !app_assoc. }
    pose proof (fun n => visitNeighbours_cover _ _ _ p _ n Hn) as Hcov.
    pose proof (visitNeighbours_chain (contour ++ [p]) p (visited, rest)) as Hch1.
    apply (visitNeighbours_inv _ _ _ _ p) in Hn.
    destruct (visitNeighbours binaryImage p (visited, rest)) as [visited1 queue1].
    destruct Hn as (Hinv1 & HM & e1 & Hq1). simpl in *. subst queue1.
    assert (Hpedge : isEdgePixel binaryImage p).
    { apply (inv_edge _ _ _ Hinv). rewrite !elem_of_app. right. right. left. }
    assert (Hpfresh : p ∉ pre).
    { intros Hin. pose proof (inv_nodup _ _ _ Hinv) as Hnd.
      apply NoDup_app in Hnd as (_ & Hdisj & _). apply (Hdisj p Hin).
      apply elem_of_app. right. left. }
    destruct (IH visited1 (rest ++ e1) (contour ++ [p])) as (v' & extra & Hff & Hinv' & Hcl & Hc').
    + by rewrite <- !app_assoc in *.
    + lia.
    + done.
    + intros p' n [Hp'| ->%list_elem_of_singleton]%elem_of_app Hne Ha.
      * specialize (Hsemi p' n Hp' Hne Ha).
        rewrite !elem_of_app, elem_of_cons in Hsemi.
        rewrite !elem_of_app, list_elem_of_singleton. tauto.
      * specialize (Hcov n Hne Ha).
        rewrite <- !app_assoc in Hcov.
        apply elem_of_app in Hcov as [Hin|Hin]; [|by rewrite <- !app_assoc].
        exfalso. apply Hpfresh. apply (Hpre n p Hin Hpedge). by apply adjacent_sym.
    + apply Hch1.
      * apply elem_of_app. right. left.
      * by rewrite <- !app_assoc.
    + exists v', (e1 ++ extra). rewrite Hff.
      rewrite <- !app_assoc in *. simpl in *. done.
Qed.

Lemma scanPixel_shape y st x :
  0 <= y < height binaryImage -> 0 <= x < width binaryImage ->
  shapeInv binaryImage st -> shapeInv binaryImage (scanPixel binaryImage y st x).
Proof.
  intros Hy Hx (visited & contours & -> & Hinv & Hcl & Hch).
  assert (Hin : inBounds binaryImage (mkPoint x y)) by done.
  unfold scanPixel. simpl.
  destruct (is255 _ && negb _) eqn:Hc; [|by exists visited, contours].
  apply andb_prop in Hc as [H255 Hnv]. apply negb_true_iff in Hnv.
  assert (Hed : isEdgePixel binaryImage (mkPoint x y)).
  { split; [done|]. simpl.
    destruct (readAt (data binaryImage) _) as [z|]; simpl in *; [|done].
    f_equal. lia. }
  assert (Hfresh : visited !! pointIndex binaryImage (mkPoint x y) = Some false).
  { apply isVisited_false; [apply Hinv|done|done]. }
  change (writeAt visited (y * width binaryImage + x) true)
    with (writeAt visited (pt_y (mkPoint x y) * width binaryImage + pt_x (mkPoint x y)) true).
  rewrite writeAt_index by done.
  pose proof (fillInv_mark _ _ _ _ Hinv Hed Hfresh) as Hinv1.
  destruct (floodFill_shape (fillFuel binaryImage) (concat contours)
              (<[pointIndex binaryImage (mkPoint x y) := true]> visited)
              [mkPoint x y] []) as (v' & extra & -> & Hinv' & Hcl' & Hch').
  - done.
  - pose proof (unvisited_mark _ _ Hfresh). pose proof (unvisited_le visited).
    rewrite (inv_length _ _ _ Hinv) in *. simpl. lia.
  - intros p n. by apply concat_closed.
  - intros p n ?%elem_of_nil. done.
  - intros k q Hk Hq. simpl in Hq. destruct k; [lia|]. by destruct k.
  - simpl in *. exists v', (contours ++ [mkPoint x y :: extra]). split; [done|].
    split; [|split].
    + rewrite concat_app. simpl. by rewrite app_nil_r.
    + apply Forall_app. split; [done|]. by apply Forall_singleton.
    + apply Forall_app. split; [done|]. by apply Forall_singleton.
Qed.

Lemma findContours_shape :
  exists contours,
    findContours binaryImage = Some contours /\
    Forall (closedContour binaryImage) contours /\
    Forall chained contours.
Proof.
  unfold findContours, scanRows.
  set (st0 := Some (replicate (Z.to_nat (width binaryImage * height binaryImage)) false,
                    @nil (list Point))).
  assert (H0 : shapeInv binaryImage st0).
  { exists (replicate (Z.to_nat (width binaryImage * height binaryImage)) false), [].
    split; [done|]. split; [|by split]. split; simpl.
    - by rewrite length_replicate.
    - intros p Hp. split.
      + intros [? _]%lookup_replicate. done.
      + intros ?%elem_of_nil. done.
    - apply NoDup_nil_2.
    - intros p ?%elem_of_nil. done. }
  assert (Hend : shapeInv binaryImage
    (fold_left (fun st y => fold_left (scanPixel binaryImage y)
                              (range 0 (width binaryImage)) st)
       (range 0 (height binaryImage)) st0)).
  { revert H0. generalize st0.
    apply (fold_left_preserves_dom (shapeInv binaryImage)
             (fun y => 0 <= y < height binaryImage)); [|apply range_Forall; lia].
    intros s y Hy. revert s.
    apply (fold_left_preserves_dom (shapeInv binaryImage)
             (fun x => 0 <= x < width binaryImage)); [|apply range_Forall; lia].
    intros s x Hx Hs. by apply scanPixel_shape. }
  destruct Hend as (v & cs & -> & _ & Hcl & Hch). by exists cs.
Qed.

End Shape.

(** X15: contours are maximal: an edge pixel that touches a point of a
    contour, diagonally or not, belongs to that same contour. *)
Theorem findContours_maximal (binaryImage : Buffer) :
  exists contours,
    findContours binaryImage = Some contours /\
    forall c p q, c ∈ contours -> p ∈ c ->
      isEdgePixel binaryImage q -> adjacent p q -> q ∈ c.
Proof.
  destruct (findContours_shape binaryImage) as (cs & E & Hcl & _).
  exists cs. split; [done|]. intros c p q Hc. rewrite Forall_forall in Hcl.
  apply (Hcl c Hc).
Qed.

(** X16: contours are connected: in each contour every point after the
    first touches a point listed before it, so each point is linked to the
    seed by a chain of touching points of the contour. *)
Theorem findContours_connected (binaryImage : Buffer) :
  exists contours,
    findContours binaryImage = Some contours /\
    forall c k q, c ∈ contours -> (0 < k)%nat -> c !! k = Some q ->
      exists k' p, (k' < k)%nat /\ c !! k' = Some p /\ adjacent p q.
Proof.
  destruct (findContours_shape binaryImage) as (cs & E & _ & Hch).
  exists cs. split; [done|]. intros c k q Hc. rewrite Forall_forall in Hch.
  apply (Hch c Hc).
Qed.


(* ================================================================== *)
(** * Further properties of the enhancement engine *)

(** ** Loops that write a value fixed by the cell *)

Lemma fold_left_fmap {S A B : Type} (f : S -> B -> S) (g : A -> B) (l : list A) (s : S) :
  fold_left f (g <$> l) s = fold_left (fun s a => f s (g a)) l s.
Proof. revert s. induction l as [|a l IH]; intros s; simpl; [done|]. apply IH. Qed.

Section WriteFold.
Context {K : Type}.
Variable step : list Z -> K -> list Z.
Variable hit : K -> nat -> bool.
Variable value : nat -> Z.
Variable dom : K -> Prop.
Hypothesis step_length : forall out k, length (step out k) = length out.
Hypothesis step_lookup : forall out k j, dom k ->
  step out k !! j =
    if hit k j && (j <? length out)%nat then Some (value j) else out !! j.

Lemma write_fold_length ks out : length (fold_left step ks out) = length out.
Proof.
  revert out. induction ks as [|k ks IH]; intros out; simpl; [done|].
  by rewrite IH, step_length.
Qed.

Lemma write_fold_lookup ks out j :
  Forall dom ks ->
  fold_left step ks out !! j =
    if existsb (fun k => hit k j) ks && (j <? length out)%nat
    then Some (value j) else out !! j.
Proof.
  revert out. induction ks as [|k ks IH]; intros out Hks; simpl; [done|].
  apply Forall_cons in Hks as [Hk Hks].
  rewrite IH, step_length, step_lookup by done. clear IH.
  by destruct (hit k j), (existsb _ ks), (j <? length out)%nat.
Qed.
End WriteFold.

(** ** Sharpening *)

Lemma sharpenSum_taps (d : list Z) (w h i c : Z) :
  Z.of_nat (length d) = 4 * (w * h) -> 0 <= c < 4 ->
  sharpenSum d w h i c =
    fold_left (fun sum k =>
      fold_left (fun sum l =>
          s ← sum;
          Some (s + tapValue d w h (Z.rem (i / 4) w + l) (i / 4 / w + k) c
                    * kernelAt sharpenKernel k l))
        (range (-1) 2) sum)
      (range (-1) 2) (Some 0).
Proof.
  intros Hlen Hc. unfold sharpenSum.
  apply fold_left_ext. intros sum k. apply fold_left_ext. intros sum' l.
  unfold tapValue.
  set (x := Z.rem (i / 4) w + l). set (y := i / 4 / w + k).
  destruct ((0 <=? x) && (x <? w) && (0 <=? y) && (y <? h)) eqn:Eb.
  - destruct sum' as [s|]; simpl; [|done].
    repeat (apply andb_prop in Eb as [Eb ?]).
    assert (Hin : (Z.to_nat ((y * w + x) * 4 + c) < length d)%nat) by nia.
    unfold readAt. destruct (Z.ltb_spec ((y * w + x) * 4 + c) 0); [nia|].
    apply lookup_lt_is_Some in Hin as [v ->]. done.
  - destruct sum' as [s|]; simpl; [|done]. f_equal. lia.
Qed.

Lemma sharpenSum_eval (d : list Z) (w h x y c : Z) :
  Z.of_nat (length d) = 4 * (w * h) -> 0 <= x < w -> 0 <= y < h -> 0 <= c < 4 ->
  clampSum (sharpenSum d w h (4 * (y * w + x)) c) = sharpenedValue d w h x y c.
Proof.
  intros Hlen Hx Hy Hc. rewrite sharpenSum_taps by done.
  destruct (pixel_index w h x y Hx Hy) as (Hidx & Hdiv & Hmod).
  rewrite (Z.mul_comm 4), Z.div_mul by lia.
  rewrite Z.rem_mod_nonneg by lia. rewrite Hdiv, Hmod.
  change (range (-1) 2) with [-1; 0; 1]. cbn [fold_left mbind option_bind].
  change (kernelAt sharpenKernel (-1) (-1)) with 0.
  change (kernelAt sharpenKernel (-1) 0) with (-1).
  change (kernelAt sharpenKernel (-1) 1) with 0.
  change (kernelAt sharpenKernel 0 (-1)) with (-1).
  change (kernelAt sharpenKernel 0 0) with 5.
  change (kernelAt sharpenKernel 0 1) with (-1).
  change (kernelAt sharpenKernel 1 (-1)) with 0.
  change (kernelAt sharpenKernel 1 0) with (-1).
  change (kernelAt sharpenKernel 1 1) with 0.
  unfold clampSum, sharpenedValue.
  replace (x + 0) with x by lia. replace (y + 0) with y by lia.
  replace (x + -1) with (x - 1) by lia. replace (y + -1) with (y - 1) by lia.
  f_equal. f_equal. lia.
Qed.

Lemma sharpenStep_length d w h out i : length (sharpenStep d w h out i) = length out.
Proof.
  unfold sharpenStep. rewrite writeAt_length.
  apply (fold_left_preserves (fun o => length o = length out)); [|done].
  intros o c Ho. by rewrite writeAt_length.
Qed.

Lemma sharpenStep_lookup d w h out k j :
  0 <= k ->
  sharpenStep d w h out (4 * k) !! j =
    if (Z.of_nat j / 4 =? k) && (j <? length out)%nat
    then Some (sharpenedByte d w h j) else out !! j.
Proof.
  intros Hk. unfold sharpenStep. change (range 0 3) with [0; 1; 2].
  cbn [fold_left]. rewrite !writeAt_lookup, !writeAt_length by lia.
  unfold sharpenedByte.
  destruct (Nat.ltb_spec j (length out)); rewrite ?andb_false_r, ?andb_true_r; [|done].
  destruct (Z.eqb_spec (Z.of_nat j) (4 * k + 3)) as [E3|N3].
  { assert (Z.of_nat j / 4 = k) as -> by (Z.div_mod_to_equations; lia).
    assert (Z.of_nat j mod 4 = 3) as -> by (Z.div_mod_to_equations; lia).
    rewrite Z.eqb_refl. simpl. rewrite <- E3. unfold readAt.
    destruct (Z.ltb_spec (Z.of_nat j) 0); [lia|]. by rewrite Nat2Z.id. }
  destruct (Z.eqb_spec (Z.of_nat j) (4 * k + 2)) as [E2|N2].
  { assert (Z.of_nat j / 4 = k) as -> by (Z.div_mod_to_equations; lia).
    assert (Z.of_nat j mod 4 = 2) as -> by (Z.div_mod_to_equations; lia).
    by rewrite Z.eqb_refl. }
  destruct (Z.eqb_spec (Z.of_nat j) (4 * k + 1)) as [E1|N1].
  { assert (Z.of_nat j / 4 = k) as -> by (Z.div_mod_to_equations; lia).
    assert (Z.of_nat j mod 4 = 1) as -> by (Z.div_mod_to_equations; lia).
    by rewrite Z.eqb_refl. }
  destruct (Z.eqb_spec (Z.of_nat j) (4 * k + 0)) as [E0|N0].
  { assert (Z.of_nat j / 4 = k) as -> by (Z.div_mod_to_equations; lia).
    assert (Z.of_nat j mod 4 = 0) as -> by (Z.div_mod_to_equations; lia).
    by rewrite Z.eqb_refl. }
  destruct (Z.eqb_spec (Z.of_nat j / 4) k); [|done].
  exfalso. Z.div_mod_to_equations. lia.
Qed.

Lemma sharpen_lookup d w h j :
  (j < length d)%nat -> sharpen d w h !! j = Some (sharpenedByte d w h j).
Proof.
  intros Hj. unfold sharpen, range4. rewrite fold_left_fmap.
  rewrite (write_fold_lookup (fun out k => sharpenStep d w h out (4 * k))
             (fun k j => Z.of_nat j / 4 =? k) (sharpenedByte d w h) (fun k => 0 <= k)).
  - unfold newArray. rewrite length_replicate, Nat2Z.id.
    assert (Hlt : (j <? length d)%nat = true) by by apply Nat.ltb_lt.
    rewrite Hlt, andb_true_r.
    assert (Hex : existsb (fun k => Z.of_nat j / 4 =? k)
                    (seqZ 0 ((Z.of_nat (length d) + 3) / 4)) = true).
    { apply existsb_exists. exists (Z.of_nat j / 4). split; [|apply Z.eqb_refl].
      apply list_elem_of_In, elem_of_seqZ. Z.div_mod_to_equations. lia. }
    by rewrite Hex.
  - intros out k. apply sharpenStep_length.
  - intros out k j' Hk. by apply sharpenStep_lookup.
  - apply Forall_forall. intros k Hk%elem_of_seqZ. lia.
Qed.

(** X17: on a buffer of four bytes per pixel, sharpening replaces each
    colour byte by five times itself minus its four direct neighbours in
    the same channel, neighbours outside the image counting for nothing,
    clamped to [0, 255]; the alpha byte is copied. *)
Theorem sharpen_pixel (d : list Z) (w h x y : Z) :
  Z.of_nat (length d) = 4 * (w * h) -> 0 <= x < w -> 0 <= y < h ->
  (forall c, 0 <= c < 3 ->
     readAt (sharpen d w h) ((y * w + x) * 4 + c) = Some (sharpenedValue d w h x y c)) /\
  readAt (sharpen d w h) ((y * w + x) * 4 + 3) = readAt d ((y * w + x) * 4 + 3).
Proof.
  intros Hlen Hx Hy. destruct (pixel_index w h x y Hx Hy) as (Hidx & _ & _).
  assert (Hread : forall c, 0 <= c < 4 ->
    readAt (sharpen d w h) ((y * w + x) * 4 + c)
      = Some (sharpenedByte d w h (Z.to_nat ((y * w + x) * 4 + c))) /\
    Z.of_nat (Z.to_nat ((y * w + x) * 4 + c)) / 4 = y * w + x /\
    Z.of_nat (Z.to_nat ((y * w + x) * 4 + c)) mod 4 = c /\
    (Z.to_nat ((y * w + x) * 4 + c) < length d)%nat).
  { intros c Hc. unfold readAt. destruct (Z.ltb_spec ((y * w + x) * 4 + c) 0); [lia|].
    rewrite sharpen_lookup by lia. rewrite Z2Nat.id by lia.
    repeat split; [| |lia]; Z.div_mod_to_equations; lia. }
  split.
  - intros c Hc. destruct (Hread c) as (-> & Hq & Hr & _); [lia|].
    unfold sharpenedByte. rewrite Hq, Hr.
    destruct (Z.eqb_spec c 3); [lia|]. f_equal. apply sharpenSum_eval; lia.
  - destruct (Hread 3) as (-> & Hq & Hr & Hlt); [lia|].
    unfold sharpenedByte. rewrite Hr. simpl.
    unfold readAt. destruct (Z.ltb_spec ((y * w + x) * 4 + 3) 0); [lia|].
    apply lookup_lt_is_Some in Hlt as [v ->]. done.
Qed.

Lemma sharpen_pixel_witness :
  let d := [10; 20; 30; 255; 40; 50; 60; 255; 10; 20; 30; 255; 40; 90; 60; 255] in
  (forall c, 0 <= c < 3 ->
     readAt (sharpen d 2 2) ((0 * 2 + 0) * 4 + c) = Some (sharpenedValue d 2 2 0 0 c)) /\
  readAt (sharpen d 2 2) ((0 * 2 + 0) * 4 + 3) = readAt d ((0 * 2 + 0) * 4 + 3).
Proof.
  apply (sharpen_pixel
           [10; 20; 30; 255; 40; 50; 60; 255; 10; 20; 30; 255; 40; 90; 60; 255] 2 2 0 0);
    simpl; lia.
Defined.

(** X18: sharpening leaves flat regions alone: a pixel off the image border
    whose four direct neighbours carry the same byte [v] in a channel keeps
    [v] in that channel. *)
Theorem sharpen_flat (d : list Z) (w h x y c v : Z) :
  Z.of_nat (length d) = 4 * (w * h) ->
  1 <= x < w - 1 -> 1 <= y < h - 1 -> 0 <= c < 3 -> 0 <= v <= 255 ->
  (forall dx dy, Z.abs dx + Z.abs dy <= 1 ->
     readAt d (((y + dy) * w + (x + dx)) * 4 + c) = Some v) ->
  readAt (sharpen d w h) ((y * w + x) * 4 + c) = Some v.
Proof.
  intros Hlen Hx Hy Hc Hv Hflat.
  assert (Hidx : 0 <= y * w + x < w * h) by (destruct (pixel_index w h x y) as (? & _ & _); lia).
  unfold readAt. destruct (Z.ltb_spec ((y * w + x) * 4 + c) 0); [lia|].
  rewrite sharpen_lookup by lia. f_equal.
  unfold sharpenedByte. rewrite Z2Nat.id by lia.
  assert (((y * w + x) * 4 + c) / 4 = y * w + x) as -> by (Z.div_mod_to_equations; lia).
  assert (((y * w + x) * 4 + c) mod 4 = c) as -> by (Z.div_mod_to_equations; lia).
  destruct (Z.eqb_spec c 3); [lia|].
  rewrite sharpenSum_eval by lia. unfold sharpenedValue.
  assert (Htap : forall dx dy, Z.abs dx + Z.abs dy <= 1 ->
            tapValue d w h (x + dx) (y + dy) c = v).
  { intros dx dy Hd. unfold tapValue.
    destruct (Z.leb_spec 0 (x + dx)), (Z.ltb_spec (x + dx) w),
      (Z.leb_spec 0 (y + dy)), (Z.ltb_spec (y + dy) h); try lia. simpl.
    by rewrite Hflat. }
  pose proof (Htap 0 0) as H00. pose proof (Htap (-1) 0) as Hl.
  pose proof (Htap 1 0) as Hr. pose proof (Htap 0 (-1)) as Hu. pose proof (Htap 0 1) as Hd.
  replace (x + 0) with x in * by lia. replace (y + 0) with y in * by lia.
  replace (x + -1) with (x - 1) in * by lia. replace (y + -1) with (y - 1) in * by lia.
  rewrite H00, Hl, Hr, Hu, Hd by (simpl; lia). lia.
Qed.

Lemma sharpen_flat_witness :
  readAt (sharpen (mjoin (replicate 9%nat [7; 8; 9; 255])) 3 3) ((1 * 3 + 1) * 4 + 1) = Some 8.
Proof.
  apply (sharpen_flat (mjoin (replicate 9%nat [7; 8; 9; 255])) 3 3 1 1 1 8);
    try (simpl; lia).
  intros dx dy Hd.
  assert (dx = -1 \/ dx = 0 \/ dx = 1) as [->|[->| ->]] by lia;
  assert (dy = -1 \/ dy = 0 \/ dy = 1) as [->|[->| ->]] by lia;
  try reflexivity; simpl in Hd; lia.
Defined.


(** ** Contrast and brightness, continued *)

Lemma adjust_brightens (v : Z) :
  0 <= v <= 255 -> v <= adjust (Some v) /\ Z.min 255 (v + 10) <= adjust (Some v).
Proof.
  intros Hv.
  assert (Hall : forallb (fun v => (v <=? adjust (Some v))
                                   && (Z.min 255 (v + 10) <=? adjust (Some v)))
                   (seqZ 0 256) = true) by (vm_compute; reflexivity).
  rewrite forallb_forall in Hall.
  specialize (Hall v). rewrite andb_true_iff, !Z.leb_le in Hall.
  apply Hall, list_elem_of_In, elem_of_seqZ. lia.
Qed.

Lemma adjust_monotone (v1 v2 : Z) :
  0 <= v1 <= v2 -> v2 <= 255 -> adjust (Some v1) <= adjust (Some v2).
Proof.
  intros H1 H2.
  assert (Hall : forallb (fun a => forallb (fun b =>
                     (b <? a) || (adjust (Some a) <=? adjust (Some b)))
                   (seqZ 0 256)) (seqZ 0 256) = true) by (vm_compute; reflexivity).
  rewrite forallb_forall in Hall.
  assert (Hv1 : In v1 (seqZ 0 256)) by (apply list_elem_of_In, elem_of_seqZ; lia).
  specialize (Hall v1 Hv1). rewrite forallb_forall in Hall.
  assert (Hv2 : In v2 (seqZ 0 256)) by (apply list_elem_of_In, elem_of_seqZ; lia).
  specialize (Hall v2 Hv2). apply orb_true_iff in Hall as [Hlt|Hle].
  - apply Z.ltb_lt in Hlt. lia.
  - by apply Z.leb_le.
Qed.

(** X19: the contrast stage never darkens: every byte of the output is at
    least the input byte, and a colour byte gains at least 10 unless it
    saturates at 255. *)
Theorem contrastBrightness_brightens (d : list Z) (j : nat) (v : Z) :
  Forall (fun v => 0 <= v <= 255) d -> d !! j = Some v ->
  exists v', contrastBrightness d !! j = Some v' /\ v <= v' /\
             (Z.of_nat j mod 4 <> 3 -> Z.min 255 (v + 10) <= v').
Proof.
  intros Hbytes Hj. rewrite contrastBrightness_lookup, Hj. simpl.
  rewrite Forall_lookup in Hbytes. specialize (Hbytes j v Hj).
  destruct (adjust_brightens v Hbytes) as [H1 H2].
  destruct (decide (Z.of_nat j mod 4 <> 3)) as [Hr|Hr]; simpl.
  - eexists. split; [done|]. split; [done|]. done.
  - exists v. split; [done|]. split; [lia|]. tauto.
Qed.

Lemma contrastBrightness_brightens_witness :
  exists v', contrastBrightness [1; 10; 250; 77] !! 2%nat = Some v' /\ 250 <= v' /\
             (Z.of_nat 2 mod 4 <> 3 -> Z.min 255 (250 + 10) <= v').
Proof.
  apply (contrastBrightness_brightens [1; 10; 250; 77] 2 250); [all_bytes|reflexivity].
Defined.

(** X20: the contrast stage keeps the order of colour bytes: a byte that
    was not larger than another is not larger afterwards. *)
Theorem contrastBrightness_monotone (d : list Z) (i j : nat) (vi vj : Z) :
  Forall (fun v => 0 <= v <= 255) d ->
  d !! i = Some vi -> d !! j = Some vj ->
  Z.of_nat i mod 4 <> 3 -> Z.of_nat j mod 4 <> 3 -> vi <= vj ->
  exists vi' vj', contrastBrightness d !! i = Some vi' /\
                  contrastBrightness d !! j = Some vj' /\ vi' <= vj'.
Proof.
  intros Hbytes Hi Hj Hci Hcj Hle.
  rewrite !contrastBrightness_lookup, Hi, Hj. simpl.
  rewrite Forall_lookup in Hbytes.
  pose proof (Hbytes i vi Hi). pose proof (Hbytes j vj Hj).
  destruct (decide (Z.of_nat i mod 4 <> 3)); [|done].
  destruct (decide (Z.of_nat j mod 4 <> 3)); [|done]. simpl.
  eexists _, _. split; [done|]. split; [done|]. apply adjust_monotone; lia.
Qed.

Lemma contrastBrightness_monotone_witness :
  exists vi' vj', contrastBrightness [1; 10; 250; 77] !! 0%nat = Some vi' /\
                  contrastBrightness [1; 10; 250; 77] !! 1%nat = Some vj' /\ vi' <= vj'.
Proof.
  apply (contrastBrightness_monotone [1; 10; 250; 77] 0 1 1 10);
    [all_bytes|reflexivity|reflexivity|cbv; discriminate|cbv; discriminate|lia].
Defined.

(** ** The enhancement pipeline as a whole *)

Lemma workingSize_spec (input : EnhanceInput) (w h : Z) :
  workingSize input = Ok (w, h) <->
  (workingFactor input = 2 -> upscaledCtxAvailable input = true) /\
  w = workingFactor input * imgWidth input /\
  h = workingFactor input * imgHeight input.
Proof.
  unfold workingSize, workingFactor, upscaleFactor.
  destruct ((imgHeight input <? 512) || (imgWidth input <? 512)); cbv iota.
  - destruct (upscaledCtxAvailable input); simpl; split.
    + intros [= <- <-]. split; [done|]. split; lia.
    + intros (_ & -> & ->). by rewrite !(Z.mul_comm 2).
    + done.
    + intros (Hc & _). by specialize (Hc eq_refl).
  - split.
    + intros [= <- <-]. split; [done|]. split; lia.
    + intros (_ & -> & ->). by rewrite !Z.mul_1_l.
Qed.

Lemma enhanceImage_Ok_inv (input : EnhanceInput) (out : Buffer) :
  enhanceImage input = Ok out ->
  decodes input = true /\ ctxAvailable input = true /\ blobCreated input = true /\
  exists w h,
    workingSize input = Ok (w, h) /\ 0 < w /\ 0 < h /\
    Z.of_nat (length (drawn input w h)) = 4 * w * h /\
    out = mkBuffer (contrastBrightness (sharpen (drawn input w h) w h)) w h.
Proof.
  unfold enhanceImage.
  destruct (decodes input); [|discriminate].
  destruct (ctxAvailable input); [|discriminate]. cbn [negb].
  destruct (workingSize input) as [[w h]|msg|]; [|discriminate|discriminate].
  destruct (Z.leb_spec w 0); [discriminate|].
  destruct (Z.leb_spec h 0); [discriminate|]. cbn [orb]. cbv zeta.
  rewrite contrastBrightness_length, sharpen_length.
  destruct (Z.eqb_spec (Z.of_nat (length (drawn input w h))) (4 * w * h)); [|discriminate].
  cbn [negb]. destruct (blobCreated input); [|discriminate].
  intros [= <-]. repeat split. exists w, h. repeat split; done.
Qed.

(** X21: [enhanceImage] produces an output exactly when the blob decodes
    to an image of positive size, the canvas gives a context (and, for an
    image under 512 pixels in a dimension, so does the upscaling canvas),
    the read-back has four bytes per pixel and [toBlob] succeeds; in every
    other case it fails with an error, and it never runs forever. *)
Theorem enhanceImage_succeeds_iff (input : EnhanceInput) :
  let f := workingFactor input in
  ((exists out, enhanceImage input = Ok out) <->
   decodes input = true /\ ctxAvailable input = true /\
   (f = 2 -> upscaledCtxAvailable input = true) /\
   0 < imgWidth input /\ 0 < imgHeight input /\
   Z.of_nat (length (drawn input (f * imgWidth input) (f * imgHeight input)))
     = 4 * (f * imgWidth input) * (f * imgHeight input) /\
   blobCreated input = true) /\
  ((exists out, enhanceImage input = Ok out) \/ exists msg, enhanceImage input = Thrown msg).
Proof.
  intros f. assert (Hf : f = 1 \/ f = 2).
  { unfold f, workingFactor. destruct (_ || _); auto. }
  split; [split|].
  - intros [out Hout]. apply enhanceImage_Ok_inv in Hout
      as (Hd & Hc & Hb & w & h & Hws & Hw & Hh & Hlen & _).
    apply workingSize_spec in Hws as (Hu & -> & ->). fold f in Hu, Hw, Hh, Hlen.
    repeat split; try done; nia.
  - intros (Hd & Hc & Hu & Hw & Hh & Hlen & Hb).
    assert (Hws : workingSize input = Ok (f * imgWidth input, f * imgHeight input))
      by by apply workingSize_spec.
    unfold enhanceImage. rewrite Hd, Hc, Hws, Hb. cbn [negb].
    destruct (Z.leb_spec (f * imgWidth input) 0); [nia|].
    destruct (Z.leb_spec (f * imgHeight input) 0); [nia|]. cbn [orb]. cbv zeta.
    rewrite contrastBrightness_length, sharpen_length, Hlen, Z.eqb_refl. cbn [negb].
    eauto.
  - unfold enhanceImage.
    destruct (decodes input); cbn [negb]; [|eauto].
    destruct (ctxAvailable input); cbn [negb]; [|eauto].
    assert (Hws : (exists w h, workingSize input = Ok (w, h)) \/
                  exists msg, workingSize input = Thrown msg).
    { unfold workingSize. destruct (_ || _); [|eauto].
      destruct (upscaledCtxAvailable input); simpl; eauto. }
    destruct Hws as [(w & h & ->)|(msg & ->)]; [|eauto].
    destruct ((w <=? 0) || (h <=? 0)); [eauto|]. cbv zeta.
    destruct (negb _); [eauto|]. destruct (blobCreated input); eauto.
Qed.

(** X22: whatever [enhanceImage] outputs holds bytes only, and its alpha
    bytes are those read back from the canvas: neither sharpening nor the
    contrast stage touches transparency. *)
Theorem enhanceImage_bytes (input : EnhanceInput) (out : Buffer) :
  enhanceImage input = Ok out ->
  (forall w h, Forall (fun v => 0 <= v <= 255) (drawn input w h)) ->
  Forall (fun v => 0 <= v <= 255) (data out) /\
  Z.of_nat (length (data out)) = 4 * width out * height out /\
  forall j, Z.of_nat j mod 4 = 3 ->
    data out !! j = drawn input (width out) (height out) !! j.
Proof.
  intros Hout Hbytes.
  apply enhanceImage_Ok_inv in Hout as (_ & _ & _ & w & h & _ & _ & _ & Hlen & ->).
  simpl. specialize (Hbytes w h). set (d := drawn input w h) in *.
  assert (Hlook : forall j, contrastBrightness (sharpen d w h) !! j =
            (if decide (Z.of_nat j mod 4 <> 3) then fun v => adjust (Some v) else id)
              <$> (if decide (j < length d)%nat then Some (sharpenedByte d w h j) else None)).
  { intros j. rewrite contrastBrightness_lookup. f_equal.
    destruct (decide (j < length d)%nat); [by apply sharpen_lookup|].
    apply lookup_ge_None. rewrite sharpen_length. lia. }
  split; [|split].
  - apply Forall_lookup. intros j v. rewrite Hlook.
    destruct (decide (j < length d)%nat) as [Hj|]; [|done]. simpl.
    destruct (decide (Z.of_nat j mod 4 <> 3)) as [Hr|Hr]; intros [= <-].
    + unfold adjust. simpl. apply toUint8Clamp_range.
    + unfold sharpenedByte.
      assert (Z.of_nat j mod 4 = 3) as -> by lia. simpl.
      apply lookup_lt_is_Some in Hj as [v Hv]. rewrite Hv. simpl.
      rewrite Forall_lookup in Hbytes. eauto.
  - by rewrite contrastBrightness_length, sharpen_length.
  - intros j Hr. rewrite Hlook.
    destruct (decide (Z.of_nat j mod 4 <> 3)); [done|].
    destruct (decide (j < length d)%nat) as [Hj|Hj]; simpl.
    + unfold sharpenedByte. rewrite Hr. simpl.
      apply lookup_lt_is_Some in Hj as [v Hv]. by rewrite Hv.
    + symmetry. apply lookup_ge_None. lia.
Qed.

Lemma enhanceImage_bytes_witness :
  Forall (fun v => 0 <= v <= 255) (data sampleOutput) /\
  Z.of_nat (length (data sampleOutput)) = 4 * width sampleOutput * height sampleOutput /\
  forall j, Z.of_nat j mod 4 = 3 ->
    data sampleOutput !! j = drawn sampleInput (width sampleOutput) (height sampleOutput) !! j.
Proof.
  apply (enhanceImage_bytes sampleInput sampleOutput).
  - vm_compute. reflexivity.
  - intros w h. simpl. generalize (Z.to_nat (w * h)). intros n.
    induction n as [|n IH]; simpl; [apply Forall_nil_2|].
    repeat (apply Forall_cons; split; [lia|]). exact IH.
Defined.


(* ================================================================== *)
(** * The caller: padding and fallback *)

Lemma mathRound_minus_pad (a m : Z) :
  mathRound (inject_Z a - inject_Z m * (2 # 100)) = (100 * a - 2 * m + 50) / 100.
Proof.
  unfold mathRound, Qfloor, Qplus, Qminus, Qopp, Qmult, inject_Z. simpl.
  change (Z.pos (1 * 100)) with 100. change (Z.pos (1 * (1 * 100))) with 100.
  change (Z.pos (1 * (1 * 100) * 2)) with 200.
  Z.div_mod_to_equations. lia.
Qed.

Lemma mathRound_plus_pad (a m : Z) :
  mathRound (inject_Z a + inject_Z m * (2 # 100) * 2) = (100 * a + 4 * m + 50) / 100.
Proof.
  unfold mathRound, Qfloor, Qplus, Qmult, inject_Z. simpl.
  change (Z.pos (1 * 100 * 1)) with 100. change (Z.pos (1 * (1 * 100 * 1))) with 100.
  change (Z.pos (1 * (1 * 100 * 1) * 2)) with 200.
  Z.div_mod_to_equations. lia.
Qed.

Lemma padCrop_spec (W H : Z) (s : CropBox) :
  boxInvariant W H s ->
  boxInvariant W H (padCrop W H s) /\ contains (padCrop W H s) s.
Proof.
  unfold boxInvariant, contains, padCrop. intros (Hw & Hh & Hx & Hy & HxW & HyH).
  rewrite !mathRound_minus_pad, !mathRound_plus_pad. cbv zeta.
  set (m := Z.min (box_w s) (box_h s)).
  assert (Hm : 1 <= m /\ m <= box_w s /\ m <= box_h s) by (unfold m; lia).
  set (qx := (100 * box_x s - 2 * m + 50) / 100).
  set (qy := (100 * box_y s - 2 * m + 50) / 100).
  set (qw := (100 * box_w s + 4 * m + 50) / 100).
  set (qh := (100 * box_h s + 4 * m + 50) / 100).
  assert (Hqx : qx <= box_x s /\ box_x s + box_w s <= qx + qw)
    by (unfold qx, qw; Z.div_mod_to_equations; lia).
  assert (Hqy : qy <= box_y s /\ box_y s + box_h s <= qy + qh)
    by (unfold qy, qh; Z.div_mod_to_equations; lia).
  assert (Hqw : box_w s <= qw) by (unfold qw; Z.div_mod_to_equations; lia).
  assert (Hqh : box_h s <= qh) by (unfold qh; Z.div_mod_to_equations; lia).
  simpl.
  destruct (Z.ltb_spec W (Z.max 0 qx + qw)), (Z.ltb_spec H (Z.max 0 qy + qh)); simpl; lia.
Qed.

(** X23: padding and clamping a suggestion that lies inside the image gives
    a box that still lies inside the image, has positive sides, and covers
    the suggestion. *)
Theorem padCrop_within (W H : Z) (s : CropBox) :
  0 < box_w s -> 0 < box_h s -> 0 <= box_x s -> 0 <= box_y s ->
  box_x s + box_w s <= W -> box_y s + box_h s <= H ->
  let c := padCrop W H s in
  (0 < box_w c /\ 0 < box_h c /\ 0 <= box_x c /\ 0 <= box_y c /\
   box_x c + box_w c <= W /\ box_y c + box_h c <= H) /\
  contains c s.
Proof. intros. apply padCrop_spec. unfold boxInvariant. lia. Qed.

Lemma padCrop_within_witness :
  let c := padCrop 200 100 (mkBox 10 5 60 30) in
  (0 < box_w c /\ 0 < box_h c /\ 0 <= box_x c /\ 0 <= box_y c /\
   box_x c + box_w c <= 200 /\ box_y c + box_h c <= 100) /\
  contains c (mkBox 10 5 60 30).
Proof. apply (padCrop_within 200 100 (mkBox 10 5 60 30)); simpl; lia. Defined.

(** X24: once the engine is ready [predict] always answers with a box, and
    on an image of positive size that box has positive sides and lies
    inside the image, whatever the detector did. *)
Theorem predict_valid (ctx : bool) (img : HTMLImageElement) :
  0 < naturalWidth img -> 0 < naturalHeight img ->
  exists box, predict true ctx img = Ok box /\
    0 < box_w box /\ 0 < box_h box /\ 0 <= box_x box /\ 0 <= box_y box /\
    box_x box + box_w box <= naturalWidth img /\
    box_y box + box_h box <= naturalHeight img.
Proof.
  intros HW HH. unfold predict. cbn [negb].
  destruct (suggestCrop_resolves ctx img) as [[s|] Hs]; rewrite Hs.
  - apply suggestCrop_candidate in Hs as [Hs _].
    destruct ((box_w s <=? 0) || (box_h s <=? 0)).
    + eexists. split; [done|]. simpl. lia.
    + eexists. split; [done|]. by apply padCrop_spec.
  - eexists. split; [done|]. simpl. lia.
Qed.

Lemma predict_valid_witness :
  exists box, predict true true sampleImage = Ok box /\
    0 < box_w box /\ 0 < box_h box /\ 0 <= box_x box /\ 0 <= box_y box /\
    box_x box + box_w box <= naturalWidth sampleImage /\
    box_y box + box_h box <= naturalHeight sampleImage.
Proof. apply (predict_valid true sampleImage); reflexivity. Defined.

(** X25: when the detector returns a box, [predict] returns a box that
    covers it: the padding never cuts into the suggestion. *)
Theorem predict_covers_suggestion (ctx : bool) (img : HTMLImageElement) (s : CropBox) :
  suggestCropWithEdgeDetection ctx img = Ok (Some s) ->
  predict true ctx img = Ok (padCrop (naturalWidth img) (naturalHeight img) s) /\
  contains (padCrop (naturalWidth img) (naturalHeight img) s) s.
Proof.
  intros Hs. unfold predict. cbn [negb]. rewrite Hs.
  apply suggestCrop_candidate in Hs as [Hs _]. pose proof Hs as (Hw & Hh & _).
  destruct (Z.leb_spec (box_w s) 0); [lia|]. destruct (Z.leb_spec (box_h s) 0); [lia|].
  split; [done|]. by apply padCrop_spec.
Qed.

Lemma predict_covers_suggestion_witness :
  predict true true sampleImage
    = Ok (padCrop (naturalWidth sampleImage) (naturalHeight sampleImage) (mkBox 1 1 3 3)) /\
  contains (padCrop (naturalWidth sampleImage) (naturalHeight sampleImage) (mkBox 1 1 3 3))
    (mkBox 1 1 3 3).
Proof.
  apply (predict_covers_suggestion true sampleImage (mkBox 1 1 3 3)).
  vm_compute. reflexivity.
Defined.

(** X26: without a canvas context, or on an image narrower or lower than 4
    pixels, [predict] falls back to the whole image. *)
Theorem predict_fallback (ctx : bool) (img : HTMLImageElement) :
  ctx = false \/ naturalWidth img < 4 \/ naturalHeight img < 4 ->
  predict true ctx img = Ok (mkBox 0 0 (naturalWidth img) (naturalHeight img)).
Proof.
  intros Hcase. unfold predict. cbn [negb].
  assert (Hnone : suggestCropWithEdgeDetection ctx img = Ok None).
  { destruct Hcase as [->|Hsmall]; [done|].
    destruct (suggestCrop_resolves ctx img) as [[box|] Hv]; [|done].
    exfalso. pose proof (suggestCrop_inner _ _ _ Hv) as [(? & ? & ? & ?) _].
    apply suggestCrop_candidate in Hv as [(? & ? & _) _]. lia. }
  by rewrite Hnone.
Qed.

Lemma predict_fallback_witness :
  predict true false sampleImage
    = Ok (mkBox 0 0 (naturalWidth sampleImage) (naturalHeight sampleImage)).
Proof. apply (predict_fallback false sampleImage). by left. Defined.


(* ================================================================== *)
(** * Crop history *)

Lemma readAt_app_last {A : Type} (l : list A) (x : A) :
  readAt (l ++ [x]) (Z.of_nat (length (l ++ [x])) - 1) = Some x.
Proof.
  unfold readAt. rewrite length_app. simpl.
  destruct (Z.ltb_spec (Z.of_nat (length l + 1) - 1) 0); [lia|].
  replace (Z.to_nat (Z.of_nat (length l + 1) - 1)) with (length l) by lia.
  rewrite lookup_app_r by lia. by rewrite Nat.sub_diag.
Qed.

Lemma sliceTo_history (history : list CropBox) (index : Z) :
  0 <= index < Z.of_nat (length history) ->
  sliceTo history (index + 1) = take (S (Z.to_nat index)) history /\
  length (sliceTo history (index + 1)) = S (Z.to_nat index).
Proof.
  intros Hi. unfold sliceTo. destruct (Z.ltb_spec (index + 1) 0); [lia|].
  replace (Z.to_nat (index + 1)) with (S (Z.to_nat index)) by lia.
  split; [done|]. rewrite length_take. lia.
Qed.

Lemma undoItem_historyAt item history index :
  historyAt item history index ->
  historyAt (undoItem item) history (if 0 <? index then index - 1 else index).
Proof.
  intros (Hh & Hi & Hrange & Hc). unfold undoItem. rewrite Hh, Hi.
  destruct (Z.ltb_spec 0 index); [|done].
  unfold historyAt. simpl. repeat split; (done || lia).
Qed.

Lemma redoItem_historyAt item history index :
  historyAt item history index ->
  historyAt (redoItem item) history
    (if index <? Z.of_nat (length history) - 1 then index + 1 else index).
Proof.
  intros (Hh & Hi & Hrange & Hc). unfold redoItem. rewrite Hh, Hi.
  destruct (Z.ltb_spec index (Z.of_nat (length history) - 1)); [|done].
  unfold historyAt. simpl. repeat split; (done || lia).
Qed.

Lemma updateItemCrop_historyAt (item : ImgItem) (newCrop : CropBox)
    (dimensions : option (Z * Z)) :
  let kept := sliceTo (default [] (cropHistory item))
                (default 0 (cropHistoryIndex item) + 1) in
  historyAt (updateItemCrop item newCrop dimensions) (kept ++ [newCrop])
    (Z.of_nat (length kept)).
Proof.
  cbv zeta. unfold historyAt, updateItemCrop. simpl.
  set (kept := sliceTo _ _).
  assert (Hlast : Z.of_nat (length (kept ++ [newCrop])) - 1 = Z.of_nat (length kept))
    by (rewrite length_app; simpl; lia).
  split; [done|]. split; [by rewrite Hlast|]. split; [rewrite length_app; simpl; lia|].
  symmetry. rewrite <- Hlast. apply readAt_app_last.
Qed.

(** X27: recording a crop works from any item: afterwards the item shows
    the new crop as the last entry of its history, the entries before it
    are the old history up to the old index (what could have been redone is
    dropped), and nothing is left to redo. *)
Theorem updateItemCrop_records (item : ImgItem) (newCrop : CropBox)
    (dimensions : option (Z * Z)) :
  let item' := updateItemCrop item newCrop dimensions in
  let kept := sliceTo (default [] (cropHistory item))
                (default 0 (cropHistoryIndex item) + 1) in
  historyAt item' (kept ++ [newCrop]) (Z.of_nat (length kept)) /\
  crop item' = Some newCrop /\ canRedo item' = false /\
  item_error item' = None.
Proof.
  cbv zeta. split; [apply updateItemCrop_historyAt|].
  split; [done|]. split; [|done].
  unfold canRedo, updateItemCrop. simpl. apply Z.ltb_ge. lia.
Qed.

(** X28: undo after a recorded crop shows the crop the item had before, and
    a following redo shows the recorded crop again. *)
Theorem undo_restores_previous (item : ImgItem) (history : list CropBox) (index : Z)
    (newCrop : CropBox) (dimensions : option (Z * Z)) :
  historyAt item history index ->
  crop (undoItem (updateItemCrop item newCrop dimensions)) = crop item /\
  crop (redoItem (undoItem (updateItemCrop item newCrop dimensions))) = Some newCrop.
Proof.
  intros (Hh & Hi & Hrange & Hc).
  pose proof (updateItemCrop_historyAt item newCrop dimensions) as Hup.
  cbv zeta in Hup. rewrite Hh, Hi in Hup. simpl in Hup.
  destruct (sliceTo_history history index Hrange) as [Hs Hlen].
  rewrite Hlen in Hup.
  set (hist' := sliceTo history (index + 1) ++ [newCrop]) in *.
  assert (Hlen' : Z.of_nat (length hist') = index + 2).
  { unfold hist'. rewrite length_app, Hlen. simpl. lia. }
  apply undoItem_historyAt in Hup as Hun.
  destruct (Z.ltb_spec 0 (Z.of_nat (S (Z.to_nat index)))); [|lia].
  replace (Z.of_nat (S (Z.to_nat index)) - 1) with index in Hun by lia.
  apply redoItem_historyAt in Hun as Hre.
  destruct (Z.ltb_spec index (Z.of_nat (length hist') - 1)); [|lia].
  destruct Hun as (_ & _ & _ & ->). destruct Hre as (_ & _ & _ & ->).
  split.
  - rewrite Hc. unfold readAt, hist'. destruct (Z.ltb_spec index 0); [lia|].
    rewrite lookup_app_l by lia. rewrite Hs. apply lookup_take_lt. lia.
  - replace (index + 1) with (Z.of_nat (length hist') - 1) by lia.
    apply readAt_app_last.
Qed.

Lemma undo_restores_previous_witness :
  let item := mkItem "a" (Some 6) (Some 6) (Some (mkBox 0 0 6 6))
                (Some [mkBox 0 0 6 6]) (Some 0) None in
  crop (undoItem (updateItemCrop item (mkBox 1 1 3 3) None)) = crop item /\
  crop (redoItem (undoItem (updateItemCrop item (mkBox 1 1 3 3) None))) = Some (mkBox 1 1 3 3).
Proof.
  apply (undo_restores_previous
           (mkItem "a" (Some 6) (Some 6) (Some (mkBox 0 0 6 6))
              (Some [mkBox 0 0 6 6]) (Some 0) None)
           [mkBox 0 0 6 6] 0 (mkBox 1 1 3 3) None).
  unfold historyAt. simpl. repeat split; lia.
Defined.

(** X29: on an item at rest, undo followed by redo, and redo followed by
    undo, give the item back unchanged whenever the first step is possible;
    at the ends of the history undo and redo change nothing. *)
Theorem undo_redo_inverse (item : ImgItem) (history : list CropBox) (index : Z) :
  historyAt item history index ->
  (canUndo item = true -> redoItem (undoItem item) = item) /\
  (canRedo item = true -> undoItem (redoItem item) = item) /\
  (canUndo item = false -> undoItem item = item) /\
  (canRedo item = false -> redoItem item = item).
Proof.
  intros (Hh & Hi & Hrange & Hc). destruct item as [id w h c hist idx err].
  simpl in *. subst hist idx c. unfold canUndo, canRedo. simpl.
  split; [|split; [|split]].
  - intros Hu. unfold undoItem. simpl. rewrite Hu. unfold redoItem. simpl.
    apply Z.ltb_lt in Hu.
    destruct (Z.ltb_spec (index - 1) (Z.of_nat (length history) - 1)); [|lia].
    replace (index - 1 + 1) with index by lia. done.
  - intros Hr. unfold redoItem. simpl. rewrite Hr. unfold undoItem. simpl.
    apply Z.ltb_lt in Hr.
    destruct (Z.ltb_spec 0 (index + 1)); [|lia].
    replace (index + 1 - 1) with index by lia. done.
  - intros Hu. unfold undoItem. simpl. by rewrite Hu.
  - intros Hr. unfold redoItem. simpl. by rewrite Hr.
Qed.

Lemma undo_redo_inverse_witness :
  let item := mkItem "a" None None (Some (mkBox 1 1 3 3))
                (Some [mkBox 0 0 6 6; mkBox 1 1 3 3; mkBox 2 2 2 2]) (Some 1) None in
  (canUndo item = true -> redoItem (undoItem item) = item) /\
  (canRedo item = true -> undoItem (redoItem item) = item) /\
  (canUndo item = false -> undoItem item = item) /\
  (canRedo item = false -> redoItem item = item).
Proof.
  apply (undo_redo_inverse
           (mkItem "a" None None (Some (mkBox 1 1 3 3))
              (Some [mkBox 0 0 6 6; mkBox 1 1 3 3; mkBox 2 2 2 2]) (Some 1) None)
           [mkBox 0 0 6 6; mkBox 1 1 3 3; mkBox 2 2 2 2] 1).
  unfold historyAt. simpl. repeat split; lia.
Defined.

(** X30: [handleUndo] and [handleRedo] touch only items with the given id,
    keep every item's history list, and keep every item at rest at rest:
    the index stays inside the history and the crop shown is the entry it
    points at. *)
Theorem handleUndo_handleRedo_preserve (id : string) (items : list ImgItem) :
  Forall (fun item => exists history index, historyAt item history index) items ->
  forall handler, handler = handleUndo \/ handler = handleRedo ->
    length (handler id items) = length items /\
    forall k item, items !! k = Some item ->
      exists item', handler id items !! k = Some item' /\
        item_id item' = item_id item /\
        cropHistory item' = cropHistory item /\
        (item_id item <> id -> item' = item) /\
        exists history index, historyAt item' history index.
Proof.
  intros Hall handler Hh. rewrite Forall_lookup in Hall.
  destruct Hh as [->| ->]; unfold handleUndo, handleRedo;
    (split; [by rewrite length_fmap|]); intros k item Hk;
    rewrite list_lookup_fmap, Hk; simpl;
    destruct (Hall k item Hk) as (history & index & Hat);
    pose proof Hat as (Hhist & Hidx & _ & _).
  - destruct (String.eqb_spec (item_id item) id) as [E|E].
    + eexists. split; [done|].
      pose proof (undoItem_historyAt _ _ _ Hat) as Hat'.
      pose proof Hat' as (Hhist' & _).
      split; [|split; [congruence|split; [done|eauto]]].
      unfold undoItem. rewrite Hhist, Hidx. by destruct (0 <? index).
    + eexists. split; [done|]. repeat split; eauto.
  - destruct (String.eqb_spec (item_id item) id) as [E|E].
    + eexists. split; [done|].
      pose proof (redoItem_historyAt _ _ _ Hat) as Hat'.
      pose proof Hat' as (Hhist' & _).
      split; [|split; [congruence|split; [done|eauto]]].
      unfold redoItem. rewrite Hhist, Hidx. by destruct (index <? _).
    + eexists. split; [done|]. repeat split; eauto.
Qed.

Lemma handleUndo_handleRedo_preserve_witness :
  let items := [mkItem "a" None None (Some (mkBox 1 1 3 3))
                  (Some [mkBox 0 0 6 6; mkBox 1 1 3 3]) (Some 1) None] in
  length (handleUndo "a"%string items) = length items /\
  exists item', handleUndo "a"%string items !! 0%nat = Some item' /\
    item_id item' = "a"%string /\
    cropHistory item' = Some [mkBox 0 0 6 6; mkBox 1 1 3 3] /\
    exists history index, historyAt item' history index.
Proof.
  intros items.
  assert (Hrest : Forall (fun item => exists history index, historyAt item history index) items).
  { apply Forall_singleton. exists [mkBox 0 0 6 6; mkBox 1 1 3 3], 1.
    unfold historyAt. simpl. repeat split; lia. }
  destruct (handleUndo_handleRedo_preserve "a"%string items Hrest handleUndo
              (or_introl eq_refl)) as [Hlen Hitems].
  split; [exact Hlen|].
  destruct (Hitems 0%nat _ eq_refl) as (item' & Hlook & Hid & Hhist & _ & Hat).
  exists item'. repeat split; assumption.
Defined.


(** ** Double-precision rounding *)

Lemma pow2_pos (e : Z) : (0 < Double.pow2 e)%Q.
Proof. unfold Double.pow2. by apply Qpower_0_lt. Qed.

Lemma pow2_Z (n : Z) : 0 <= n -> (Double.pow2 n == inject_Z (2 ^ n))%Q.
Proof. intros Hn. unfold Double.pow2. by rewrite Zpower_Qpower. Qed.

Lemma pow2_split (s t : Z) :
  t <= s -> (Double.pow2 s == inject_Z (2 ^ (s - t)) * Double.pow2 t)%Q.
Proof.
  intros Hts. rewrite <- pow2_Z by lia. unfold Double.pow2.
  rewrite <- Qpower_plus by discriminate. by replace (s - t + t) with s by lia.
Qed.

Lemma exponentOf_le (k : Z) (q : Q) :
  0 <= k -> (Qabs q <= inject_Z (2 ^ k))%Q -> Double.exponentOf q <= k.
Proof.
  intros Hk Hq. unfold Double.exponentOf.
  destruct q as [n d]. cbn [Qnum Qden].
  assert (He : Z.log2 (Z.abs n) - Z.log2 (Z.pos d) <= k).
  { unfold Qle in Hq. cbn in Hq. rewrite Z.mul_1_r in Hq.
    destruct (decide (Z.abs n = 0)) as [->|Hn].
    - change (Z.log2 0) with 0. pose proof (Z.log2_nonneg (Z.pos d)). lia.
    - assert (Hlog : Z.log2 (Z.abs n) <= Z.log2 (Z.pos d * 2 ^ k)).
      { apply Z.log2_le_mono. lia. }
      rewrite Z.log2_mul_pow2 in Hlog by lia. lia. }
  destruct (Qltb _ _); lia.
Qed.

Lemma exponentOf_lt (q : Q) : (Qabs q < Double.pow2 (Double.exponentOf q + 1))%Q.
Proof.
  unfold Double.exponentOf.
  set (e := Z.log2 (Z.abs (Qnum q)) - Z.log2 (Z.pos (Qden q))).
  destruct (Qltb (Qabs q) (Double.pow2 e)) eqn:Hlt.
  - apply Qltb_lt in Hlt. by replace (e - 1 + 1) with e by lia.
  - clear Hlt. destruct q as [n d]. cbn [Qnum Qden] in e.
    set (a := Z.log2 (Z.abs n)) in *. set (b := Z.log2 (Z.pos d)) in *.
    assert (Ha : Z.abs n < 2 ^ (a + 1)).
    { destruct (decide (Z.abs n = 0)) as [Hn|Hn].
      - rewrite Hn. apply Z.pow_pos_nonneg; [lia|]. subst a. rewrite Hn. done.
      - replace (a + 1) with (Z.succ a) by lia. apply Z.log2_spec. lia. }
    assert (Hb : 2 ^ b <= Z.pos d) by (apply Z.log2_spec; lia).
    assert (Ha0 : 0 <= a) by apply Z.log2_nonneg.
    assert (Hb0 : 0 <= b) by apply Z.log2_nonneg.
    rewrite (pow2_split (e + 1) (- b)) by lia.
    replace (e + 1 - - b) with (a + 1) by lia.
    assert (Hinv : (Double.pow2 (- b) == / inject_Z (2 ^ b))%Q).
    { unfold Double.pow2. rewrite Qpower_opp. by rewrite Zpower_Qpower. }
    rewrite Hinv.
    assert (Hpb : 0 < 2 ^ b) by (apply Z.pow_pos_nonneg; lia).
    destruct (2 ^ b) as [|pb|pb] eqn:Epb; try lia.
    unfold Qlt, Qabs, Qmult, Qinv, inject_Z. cbn.
    rewrite Z.mul_1_r. nia.
Qed.

Lemma roundEven_ge (K : Z) (x : Q) : (inject_Z K <= x)%Q -> K <= Double.roundEven x.
Proof.
  intros HK. assert (Hf : K <= Qfloor x).
  { rewrite <- (Qfloor_Z K). by apply Qfloor_resp_le. }
  unfold Double.roundEven. cbv zeta.
  repeat match goal with |- context [if ?c then _ else _] => destruct c end; lia.
Qed.

Lemma roundEven_le (K : Z) (x : Q) : (x <= inject_Z K)%Q -> Double.roundEven x <= K.
Proof.
  intros HK. pose proof (Qfloor_le x) as Hlo.
  assert (Hf : Qfloor x <= K).
  { rewrite <- (Qfloor_Z K). by apply Qfloor_resp_le. }
  unfold Double.roundEven. cbv zeta.
  destruct (Qltb (inject_Z (Qfloor x) + (1 # 2)) x) eqn:Hup.
  - apply Qltb_lt in Hup.
    assert (Hlt : (inject_Z (Qfloor x) < inject_Z K)%Q) by lra.
    rewrite <- Zlt_Qlt in Hlt. lia.
  - destruct (Qltb x (inject_Z (Qfloor x) + (1 # 2))) eqn:Hdown; [lia|].
    assert (Hge : ~ (x < inject_Z (Qfloor x) + (1 # 2))%Q).
    { intros H. apply Qltb_lt in H. congruence. }
    assert (Hlt : (inject_Z (Qfloor x) < inject_Z K)%Q) by lra.
    rewrite <- Zlt_Qlt in Hlt. destruct (Z.even _); lia.
Qed.

Lemma roundEven_near (K : Z) (x : Q) :
  (inject_Z K <= x)%Q -> (x < inject_Z K + (1 # 2))%Q -> Double.roundEven x = K.
Proof.
  intros Hlo Hhi.
  assert (Hf : Qfloor x = K).
  { apply Z.le_antisymm.
    - assert (H1 : Qfloor x < K + 1); [|lia].
      rewrite Zlt_Qlt, inject_Z_plus. pose proof (Qfloor_le x). 
      change (inject_Z 1) with 1%Q. lra.
    - rewrite <- (Qfloor_Z K). by apply Qfloor_resp_le. }
  unfold Double.roundEven. cbv zeta. rewrite Hf.
  destruct (Qltb (inject_Z K + (1 # 2)) x) eqn:Hup.
  { apply Qltb_lt in Hup. lra. }
  destruct (Qltb x (inject_Z K + (1 # 2))) eqn:Hdown; [done|].
  assert (x < inject_Z K + (1 # 2))%Q as H%Qltb_lt by done. congruence.
Qed.

(** [exponentOf] is the binary exponent: [2^e <= |q| < 2^(e+1)]. *)
Lemma exponentOf_spec (q : Q) :
  ~ (q == 0)%Q ->
  (Double.pow2 (Double.exponentOf q) <= Qabs q < Double.pow2 (Double.exponentOf q + 1))%Q.
Proof.
  intros Hq. split; [|apply exponentOf_lt].
  unfold Double.exponentOf.
  set (e := Z.log2 (Z.abs (Qnum q)) - Z.log2 (Z.pos (Qden q))).
  destruct (Qltb (Qabs q) (Double.pow2 e)) eqn:Hlt.
  - clear Hlt. destruct q as [n d]. cbn [Qnum Qden] in e.
    assert (Hn : n <> 0).
    { intros ->. apply Hq. reflexivity. }
    set (a := Z.log2 (Z.abs n)) in *. set (b := Z.log2 (Z.pos d)) in *.
    assert (Ha : 2 ^ a <= Z.abs n) by (apply Z.log2_spec; lia).
    assert (Hb : Z.pos d < 2 ^ (b + 1)).
    { replace (b + 1) with (Z.succ b) by lia. apply Z.log2_spec. lia. }
    assert (Ha0 : 0 <= a) by apply Z.log2_nonneg.
    assert (Hb0 : 0 <= b) by apply Z.log2_nonneg.
    rewrite (pow2_split (e - 1) (- (b + 1))) by lia.
    replace (e - 1 - - (b + 1)) with a by lia.
    assert (Hinv : (Double.pow2 (- (b + 1)) == / inject_Z (2 ^ (b + 1)))%Q).
    { unfold Double.pow2. rewrite Qpower_opp. by rewrite Zpower_Qpower by lia. }
    rewrite Hinv.
    assert (Hpa : 0 < 2 ^ a) by (apply Z.pow_pos_nonneg; lia).
    destruct (2 ^ (b + 1)) as [|pb|pb] eqn:Epb; try lia.
    unfold Qle, Qabs, Qmult, Qinv, inject_Z. cbn.
    rewrite Z.mul_1_r. nia.
  - apply Qnot_lt_le. intros H. apply Qltb_lt in H. congruence.
Qed.

(** Samples of the rounding: the literal [0.1], a tie above 2^53 going to
    the even significand, and the smallest subnormal. *)
Lemma round_samples :
  (Double.round (1 # 10) == 3602879701896397 # 36028797018963968)%Q /\
  (Double.round 9007199254740993 == 9007199254740992)%Q /\
  (Double.round 9007199254740995 == 9007199254740996)%Q /\
  (Double.round (3 * Double.pow2 (-1075)) == Double.pow2 (-1073))%Q /\
  (Double.round (Double.pow2 (-1075)) == 0)%Q.
Proof. by vm_compute. Qed.

(** Below 2^25 in magnitude the doubles are spaced 2^-27 apart or closer, a
    power of two that divides 2^-27. *)
Lemma ulp_grid (q : Q) :
  (Qabs q <= 33554432)%Q ->
  exists P : Z, 0 < P /\ (inject_Z P * Double.ulp q == 1 # 134217728)%Q.
Proof.
  intros Hq. unfold Double.ulp.
  set (t := Z.max (Double.exponentOf q - 52) (-1074)).
  assert (He : Double.exponentOf q <= 25) by (apply exponentOf_le; [lia|exact Hq]).
  assert (Ht : t <= -27) by lia.
  exists (2 ^ (-27 - t)). split; [apply Z.pow_pos_nonneg; lia|].
  rewrite <- (pow2_split (-27) t) by lia. by vm_compute.
Qed.

(** Rounding never crosses a multiple of 2^-27: the doubles include them. *)
Lemma round_grid (q : Q) (A : Z) :
  (Qabs q <= 33554432)%Q ->
  ((inject_Z A <= q * 134217728)%Q -> (inject_Z A <= Double.round q * 134217728)%Q) /\
  ((q * 134217728 <= inject_Z A)%Q -> (Double.round q * 134217728 <= inject_Z A)%Q).
Proof.
  intros Hq. destruct (ulp_grid q Hq) as (P & HP & Hpu).
  assert (Hu : (0 < Double.ulp q)%Q) by apply pow2_pos.
  unfold Double.round. set (u := Double.ulp q) in *.
  set (r := Double.roundEven (q / u)).
  assert (Hscale : (inject_Z (A * P) * u == inject_Z A * (1 # 134217728))%Q).
  { by rewrite inject_Z_mult, <- Qmult_assoc, Hpu. }
  split; intros HA.
  - assert (H1 : (inject_Z (A * P) <= q / u)%Q).
    { apply Qle_shift_div_l; [done|]. rewrite Hscale. lra. }
    apply roundEven_ge in H1. fold r in H1. rewrite Zle_Qle in H1.
    assert (H2 : (inject_Z (A * P) * u <= inject_Z r * u)%Q).
    { apply Qmult_le_compat_r; [done|]. by apply Qlt_le_weak. }
    rewrite Hscale in H2. set (ru := (inject_Z r * u)%Q) in *. lra.
  - assert (H1 : (q / u <= inject_Z (A * P))%Q).
    { apply Qle_shift_div_r; [done|]. rewrite Hscale. lra. }
    apply roundEven_le in H1. fold r in H1. rewrite Zle_Qle in H1.
    assert (H2 : (inject_Z r * u <= inject_Z (A * P) * u)%Q).
    { apply Qmult_le_compat_r; [done|]. by apply Qlt_le_weak. }
    rewrite Hscale in H2. set (ru := (inject_Z r * u)%Q) in *. lra.
Qed.

Lemma round_between (q : Q) (A B : Z) :
  (Qabs q <= 33554432)%Q ->
  (inject_Z A <= q * 134217728 <= inject_Z B)%Q ->
  (inject_Z A <= Double.round q * 134217728 <= inject_Z B)%Q.
Proof.
  intros Hq [HA HB]. split.
  - by apply (round_grid q A Hq).
  - by apply (round_grid q B Hq).
Qed.

(** A multiple of 2^-27 below 2^25 is a double. *)
Lemma round_exact (q : Q) (A : Z) :
  (Qabs q <= 33554432)%Q -> (q * 134217728 == inject_Z A)%Q ->
  (Double.round q == q)%Q.
Proof.
  intros Hq HA.
  destruct (round_between q A A Hq) as [H1 H2]; [lra|]. lra.
Qed.

Lemma round_Z (z : Z) : - 33554432 <= z <= 33554432 -> (Double.round (inject_Z z) == inject_Z z)%Q.
Proof.
  intros Hz. apply (round_exact _ (z * 134217728)).
  - apply Qabs_Qle_condition. rewrite !Zle_Qle in Hz. destruct Hz as [H1 H2].
    change (inject_Z (-33554432)) with (-33554432)%Q in H1.
    change (inject_Z 33554432) with 33554432%Q in H2. lra.
  - by rewrite inject_Z_mult.
Qed.

(** A number just above an integer [k], by less than [k * 2^-53], rounds
    down to [k]. *)
Lemma round_just_above (k : Z) (q : Q) :
  1 <= k <= 33554432 ->
  (inject_Z k <= q)%Q -> (q <= inject_Z k + inject_Z k * (1 # 18014398509481984))%Q ->
  (Double.round q == inject_Z k)%Q.
Proof.
  intros Hk Hlo Hhi.
  assert (Hk1 : (1 <= inject_Z k <= 33554432)%Q).
  { destruct Hk as [H1 H2]. rewrite !Zle_Qle in H1, H2. done. } 
  assert (Hq : (Qabs q <= inject_Z (2 ^ 26))%Q).
  { apply Qabs_Qle_condition. change (inject_Z (2 ^ 26)) with 67108864%Q. lra. }
  pose proof (exponentOf_le 26 q ltac:(lia) Hq) as He.
  pose proof (exponentOf_lt q) as Hup.
  rewrite Qabs_pos in Hup by lra.
  set (e := Double.exponentOf q) in *.
  assert (He0 : 0 <= e).
  { destruct (Z_lt_le_dec e 0) as [Hneg|]; [|done]. exfalso.
    assert (Double.pow2 0 == inject_Z (2 ^ (0 - (e + 1))) * Double.pow2 (e + 1))%Q as H0
      by (apply pow2_split; lia).
    change (Double.pow2 0) with 1%Q in H0.
    assert (1 <= 2 ^ (0 - (e + 1))) as H1.
    { assert (0 < 2 ^ (0 - (e + 1))) by (apply Z.pow_pos_nonneg; lia). lia. }
    rewrite Zle_Qle in H1. change (inject_Z 1) with 1%Q in H1.
    pose proof (pow2_pos (e + 1)).
    set (a := inject_Z (2 ^ (0 - (e + 1)))) in *. set (b := Double.pow2 (e + 1)) in *.
    assert (b <= a * b)%Q by nra. lra. }
  assert (Hke : k < 2 ^ (e + 1)).
  { rewrite Zlt_Qlt, <- pow2_Z by lia. lra. }
  unfold Double.round, Double.ulp. fold e.
  set (t := Z.max (e - 52) (-1074)).
  assert (Ht : e - 52 <= t <= -26) by lia.
  assert (Hone : (1 == inject_Z (2 ^ (- t)) * Double.pow2 t)%Q).
  { change 1%Q with (Double.pow2 0). rewrite (pow2_split 0 t) by lia. by rewrite Z.sub_0_l. }
  pose proof (pow2_pos t) as Hu. set (u := Double.pow2 t) in *.
  set (P := 2 ^ (- t)) in *.
  assert (HkP : k * P < 2 ^ 53).
  { assert (P <= 2 ^ (52 - e)) by (apply Z.pow_le_mono_r; lia).
    assert (2 ^ (e + 1) * 2 ^ (52 - e) = 2 ^ 53).
    { rewrite <- Z.pow_add_r by lia. f_equal. lia. }
    assert (0 < P) by (apply Z.pow_pos_nonneg; lia). nia. }
  assert (Hdiv : (q / u == q * inject_Z P)%Q).
  { unfold Qdiv. 
    assert (/ u == inject_Z P)%Q as ->; [|reflexivity].
    apply Qmult_inj_r with u; [lra|]. rewrite Qmult_comm, Qmult_inv_r by lra. done. }
  assert (Hr : Double.roundEven (q / u) = k * P).
  { assert (HP : (0 < inject_Z P)%Q).
    { change 0%Q with (inject_Z 0). rewrite <- Zlt_Qlt. apply Z.pow_pos_nonneg; lia. }
    assert (HkPq : (inject_Z k * inject_Z P < 9007199254740992)%Q).
    { rewrite <- inject_Z_mult. change 9007199254740992%Q with (inject_Z (2 ^ 53)).
      by rewrite <- Zlt_Qlt. }
    apply roundEven_near; rewrite Hdiv, inject_Z_mult.
    - apply Qmult_le_compat_r; [done|]. by apply Qlt_le_weak.
    - set (p := inject_Z P) in *. set (kq := inject_Z k) in *.
      assert (q * p <= (kq + kq * (1 # 18014398509481984)) * p)%Q
        by (apply Qmult_le_compat_r; [done|lra]).
      set (kp := (kq * p)%Q) in *.
      assert ((kq + kq * (1 # 18014398509481984)) * p == kp + kp * (1 # 18014398509481984))%Q
        as Heq by (subst kp; ring).
      rewrite Heq in H. lra. }
  rewrite Hr, inject_Z_mult, <- Qmult_assoc, <- Hone. ring.
Qed.

(** ** The merge margin as a double *)

(** The literal [0.05]: 0x1.999999999999ap-5. *)
Lemma literal_005 :
  (Double.round (5 # 100) == 7205759403792794 # 144115188075855872)%Q.
Proof. by vm_compute. Qed.

(** [Math.min(w, h) * 0.05] is exactly [n / 20] when 20 divides the smaller
    side [n], and otherwise stays at least 1/32 away from the integers
    around [n / 20]. *)
Lemma mergeMargin_value (W H : Z) :
  0 <= Z.min W H <= maxCoord ->
  (Z.min W H mod 20 = 0 ->
     (Double.mergeMargin W H == inject_Z (Z.min W H / 20))%Q) /\
  (Z.min W H mod 20 <> 0 ->
     (inject_Z (Z.min W H / 20) + (1 # 32) <= Double.mergeMargin W H
        <= inject_Z (Z.min W H / 20) + (31 # 32))%Q).
Proof.
  unfold maxCoord. set (n := Z.min W H). intros Hn.
  unfold Double.mergeMargin, Double.mul. fold n.
  set (q := (inject_Z n * Double.round (5 # 100))%Q).
  assert (Hq : (q == inject_Z n * (7205759403792794 # 144115188075855872))%Q).
  { subst q. by rewrite literal_005. }
  pose proof (Z.div_mod n 20 ltac:(lia)) as Hdm.
  pose proof (Z.mod_pos_bound n 20 ltac:(lia)) as Hr.
  set (i := n / 20) in *. set (r := n mod 20) in *.
  assert (Hi : 0 <= i <= 209716) by lia.
  assert (Hnq : (inject_Z n == 20 * inject_Z i + inject_Z r)%Q).
  { rewrite Hdm, inject_Z_plus, inject_Z_mult. reflexivity. }
  assert (Hiq : (0 <= inject_Z i <= 209716)%Q).
  { destruct Hi as [H1 H2]. rewrite !Zle_Qle in H1, H2. done. }
  assert (Hrq : (0 <= inject_Z r <= 19)%Q).
  { assert (H1 : 0 <= r) by lia. assert (H2 : r <= 19) by lia.
    rewrite !Zle_Qle in H1, H2. done. }
  rewrite Hnq in Hq.
  assert (Hmag : (Qabs q <= 33554432)%Q) by (apply Qabs_Qle_condition; lra).
  split; intros Hmod.
  - assert (Hr0 : (inject_Z r == 0)%Q) by (rewrite Hmod; reflexivity).
    destruct (decide (i = 0)) as [Hi0|Hi0].
    + rewrite Hi0 in *. change (inject_Z 0) with 0%Q in *.
      rewrite (round_exact q 0 Hmag); [lra|]. change (inject_Z 0) with 0%Q. lra.
    + apply round_just_above; [lia|lra|lra].
  - assert (Hr1 : (1 <= inject_Z r)%Q).
    { assert (H1 : 1 <= r) by lia. rewrite Zle_Qle in H1. done. }
    destruct (round_between q (i * 134217728 + 4194304) (i * 134217728 + 130023424) Hmag)
      as [H1 H2].
    { rewrite !inject_Z_plus, !inject_Z_mult.
      change (inject_Z 134217728) with 134217728%Q.
      change (inject_Z 4194304) with 4194304%Q.
      change (inject_Z 130023424) with 130023424%Q. lra. }
    rewrite !inject_Z_plus, !inject_Z_mult in H1, H2.
    change (inject_Z 134217728) with 134217728%Q in H1, H2.
    change (inject_Z 4194304) with 4194304%Q in H1.
    change (inject_Z 130023424) with 130023424%Q in H2. lra.
Qed.

(** ** The proximity test in doubles and in exact arithmetic *)

Lemma Qltb_ext (a b c d : Q) : ((a < b)%Q <-> (c < d)%Q) -> Qltb a b = Qltb c d.
Proof. intros H. apply eq_true_iff_eq. by rewrite !Qltb_lt. Qed.

Lemma inject_Z_range (z lo hi : Z) :
  lo <= z <= hi -> (inject_Z lo <= inject_Z z <= inject_Z hi)%Q.
Proof. intros [H1 H2]. rewrite !Zle_Qle in H1, H2. done. Qed.

Lemma inject_Z_minus (x y : Z) : (inject_Z (x - y) == inject_Z x - inject_Z y)%Q.
Proof. unfold Z.sub. by rewrite inject_Z_plus, inject_Z_opp. Qed.

Lemma coord_range (z : Z) :
  - maxCoord <= z <= maxCoord -> (-4194304 <= inject_Z z <= 4194304)%Q.
Proof. intros [H1 H2]. rewrite Zle_Qle in H1, H2. split; [exact H1|exact H2]. Qed.

Lemma size_range (z : Z) :
  0 <= z <= maxCoord -> (0 <= inject_Z z <= 4194304)%Q.
Proof. intros [H1 H2]. rewrite Zle_Qle in H1, H2. split; [exact H1|exact H2]. Qed.

(** The sum of two coordinates is exact. *)
Lemma add_coordinates (x w : Z) :
  - maxCoord <= x <= maxCoord -> 0 <= w <= maxCoord ->
  (Double.add (inject_Z x) (inject_Z w) == inject_Z (x + w))%Q.
Proof.
  unfold maxCoord. intros Hx Hw. unfold Double.add.
  rewrite <- inject_Z_plus. apply round_Z. lia.
Qed.

(** One axis of the expanded box: from bounds on the margin in units of
    2^-27 to bounds on the expanded origin and on the expanded far side. *)
Lemma axis_bounds (X Wd A B : Z) (m : Q) :
  - maxCoord <= X <= maxCoord -> 0 <= Wd <= maxCoord ->
  (0 <= m <= 4194304)%Q ->
  (inject_Z A <= m * 134217728 <= inject_Z B)%Q ->
  let ex := Double.sub (inject_Z X) m in
  let ew := Double.add (inject_Z Wd) (Double.mul 2 m) in
  (inject_Z X * 134217728 - inject_Z B <= ex * 134217728
     <= inject_Z X * 134217728 - inject_Z A)%Q /\
  ((inject_Z X + inject_Z Wd) * 134217728 + 2 * inject_Z A - inject_Z B
     <= Double.add ex ew * 134217728
     <= (inject_Z X + inject_Z Wd) * 134217728 + 2 * inject_Z B - inject_Z A)%Q.
Proof.
  intros HX HW Hm HAB ex ew.
  apply coord_range in HX. apply size_range in HW.
  set (x := inject_Z X) in *. set (w := inject_Z Wd) in *.
  set (a := inject_Z A) in *. set (b := inject_Z B) in *.
  (* the expanded origin *)
  assert (Hex : (x * 134217728 - b <= ex * 134217728 <= x * 134217728 - a)%Q).
  { destruct (round_between (x - m) (X * 134217728 - B) (X * 134217728 - A)) as [H1 H2].
    - apply Qabs_Qle_condition. lra.
    - rewrite !inject_Z_minus, !inject_Z_mult.
      change (inject_Z 134217728) with 134217728%Q. fold x a b. lra.
    - rewrite !inject_Z_minus, !inject_Z_mult in H1, H2.
      change (inject_Z 134217728) with 134217728%Q in H1, H2. done. }
  assert (Hex' : (-8388608 <= ex <= 8388608)%Q).
  { destruct (round_between (x - m) (-8388608 * 134217728) (8388608 * 134217728)) as [H1 H2].
    - apply Qabs_Qle_condition. lra.
    - change (inject_Z (-8388608 * 134217728)) with (-8388608 * 134217728)%Q.
      change (inject_Z (8388608 * 134217728)) with (8388608 * 134217728)%Q. lra.
    - change (inject_Z (-8388608 * 134217728)) with (-8388608 * 134217728)%Q in H1.
      change (inject_Z (8388608 * 134217728)) with (8388608 * 134217728)%Q in H2.
      change (Double.round (x - m)) with ex in H1, H2. lra. }
  (* twice the margin *)
  set (m2 := Double.mul 2 m) in *.
  assert (Hm2 : (2 * a <= m2 * 134217728 <= 2 * b)%Q).
  { destruct (round_between (2 * m) (2 * A) (2 * B)) as [H1 H2].
    - apply Qabs_Qle_condition. lra.
    - rewrite !inject_Z_mult. change (inject_Z 2) with 2%Q. fold a b. lra.
    - rewrite !inject_Z_mult in H1, H2. change (inject_Z 2) with 2%Q in H1, H2. done. }
  assert (Hm2' : (0 <= m2 <= 8388608)%Q).
  { destruct (round_between (2 * m) 0 (8388608 * 134217728)) as [H1 H2].
    - apply Qabs_Qle_condition. lra.
    - change (inject_Z 0) with 0%Q.
      change (inject_Z (8388608 * 134217728)) with (8388608 * 134217728)%Q. lra.
    - change (inject_Z 0) with 0%Q in H1.
      change (inject_Z (8388608 * 134217728)) with (8388608 * 134217728)%Q in H2.
      change (Double.round (2 * m)) with m2 in H1, H2. lra. }
  (* the expanded width *)
  assert (Hew : (w * 134217728 + 2 * a <= ew * 134217728 <= w * 134217728 + 2 * b)%Q).
  { destruct (round_between (w + m2) (Wd * 134217728 + 2 * A) (Wd * 134217728 + 2 * B))
      as [H1 H2].
    - apply Qabs_Qle_condition. lra.
    - rewrite !inject_Z_plus, !inject_Z_mult.
      change (inject_Z 134217728) with 134217728%Q. change (inject_Z 2) with 2%Q.
      fold w a b. lra.
    - rewrite !inject_Z_plus, !inject_Z_mult in H1, H2.
      change (inject_Z 134217728) with 134217728%Q in H1, H2.
      change (inject_Z 2) with 2%Q in H1, H2. done. }
  assert (Hew' : (0 <= ew <= 12582912)%Q).
  { destruct (round_between (w + m2) 0 (12582912 * 134217728)) as [H1 H2].
    - apply Qabs_Qle_condition. lra.
    - change (inject_Z 0) with 0%Q.
      change (inject_Z (12582912 * 134217728)) with (12582912 * 134217728)%Q. lra.
    - change (inject_Z 0) with 0%Q in H1.
      change (inject_Z (12582912 * 134217728)) with (12582912 * 134217728)%Q in H2.
      change (Double.round (w + m2)) with ew in H1, H2. lra. }
  split; [done|].
  destruct (round_between (ex + ew)
              ((X + Wd) * 134217728 + 2 * A - B) ((X + Wd) * 134217728 + 2 * B - A))
    as [H1 H2].
  - apply Qabs_Qle_condition. lra.
  - rewrite !inject_Z_minus, !inject_Z_plus, !inject_Z_mult, !inject_Z_plus.
    change (inject_Z 134217728) with 134217728%Q. change (inject_Z 2) with 2%Q.
    fold x w a b. lra.
  - rewrite !inject_Z_minus, !inject_Z_plus, !inject_Z_mult, !inject_Z_plus in H1, H2.
    change (inject_Z 134217728) with 134217728%Q in H1, H2.
    change (inject_Z 2) with 2%Q in H1, H2. done.
Qed.

(** For a clear margin both comparisons of one axis come out as in exact
    arithmetic. *)
Lemma axis_agree (X Wd X2 W2 : Z) (m : Q) :
  - maxCoord <= X <= maxCoord -> 0 <= Wd <= maxCoord ->
  - maxCoord <= X2 <= maxCoord -> 0 <= W2 <= maxCoord ->
  (0 <= m <= 4194304)%Q -> clearMargin m ->
  Qltb (Double.sub (inject_Z X) m) (Double.add (inject_Z X2) (inject_Z W2))
    = Qltb (inject_Z X - m) (inject_Z (X2 + W2)) /\
  Qltb (inject_Z X2)
       (Double.add (Double.sub (inject_Z X) m)
                   (Double.add (inject_Z Wd) (Double.mul 2 m)))
    = Qltb (inject_Z X2) (inject_Z X - m + (inject_Z Wd + 2 * m)).
Proof.
  intros HX HW HX2 HW2 Hm (i & Hclear).
  pose proof (add_coordinates X2 W2 HX2 HW2) as HK.
  set (far := Double.add (inject_Z X2) (inject_Z W2)) in *.
  destruct Hclear as [Hint|[Hlo Hhi]].
  - destruct (axis_bounds X Wd (i * 134217728) (i * 134217728) m HX HW Hm) as [Hex Hsum].
    { rewrite inject_Z_mult. change (inject_Z 134217728) with 134217728%Q. lra. }
    rewrite inject_Z_mult in Hex, Hsum.
    change (inject_Z 134217728) with 134217728%Q in Hex, Hsum.
    set (ex := Double.sub (inject_Z X) m) in *.
    set (sum := Double.add ex _) in *.
    split; apply Qltb_ext; [rewrite HK|]; lra.
  - pose proof (Qfloor_le (m * 134217728)) as HL1.
    pose proof (Qlt_floor (m * 134217728)) as HL2.
    set (L := Qfloor (m * 134217728)) in *.
    rewrite inject_Z_plus in HL2. change (inject_Z 1) with 1%Q in HL2.
    destruct (axis_bounds X Wd L (L + 1) m HX HW Hm) as [Hex Hsum].
    { rewrite inject_Z_plus. change (inject_Z 1) with 1%Q. lra. }
    rewrite inject_Z_plus in Hex, Hsum. change (inject_Z 1) with 1%Q in Hex, Hsum.
    set (ex := Double.sub (inject_Z X) m) in *.
    set (sum := Double.add ex _) in *.
    split; apply Qltb_ext; [rewrite HK|].
    + destruct (Z_le_gt_dec (X - i) (X2 + W2)) as [Hz|Hz].
      * rewrite Zle_Qle, inject_Z_minus in Hz. split; intros _; lra.
      * assert (Hz' : X2 + W2 + 1 <= X - i) by lia.
        rewrite Zle_Qle, inject_Z_minus, inject_Z_plus in Hz'.
        change (inject_Z 1) with 1%Q in Hz'. split; intros; lra.
    + destruct (Z_le_gt_dec X2 (X + Wd + i)) as [Hz|Hz].
      * rewrite Zle_Qle, !inject_Z_plus in Hz. split; intros _; lra.
      * assert (Hz' : X + Wd + i + 1 <= X2) by lia.
        rewrite Zle_Qle, !inject_Z_plus in Hz'.
        change (inject_Z 1) with 1%Q in Hz'. split; intros; lra.
Qed.

(** On boxes of feasible size and a clear margin the double-precision test
    is the exact one. *)
Lemma shouldMerge_double_exact (a b : CropBox) (m : Q) :
  feasibleBox a -> feasibleBox b -> (0 <= m <= 4194304)%Q -> clearMargin m ->
  Double.shouldMerge a b m = shouldMerge a b m.
Proof.
  intros (Hax & Hay & Haw & Hah) (Hbx & Hby & Hbw & Hbh) Hm Hclear.
  destruct (axis_agree (box_x a) (box_w a) (box_x b) (box_w b) m) as [Hx1 Hx2]; try done.
  destruct (axis_agree (box_y a) (box_h a) (box_y b) (box_h b) m) as [Hy1 Hy2]; try done.
  unfold Double.shouldMerge, shouldMerge. cbv zeta.
  by rewrite Hx1, Hx2, Hy1, Hy2.
Qed.

(** The margin the merge loop computes is clear, and in range. *)
Lemma mergeMargin_clear (W H : Z) :
  0 <= W <= maxCoord -> 0 <= H <= maxCoord ->
  (0 <= Double.mergeMargin W H <= 4194304)%Q /\ clearMargin (Double.mergeMargin W H).
Proof.
  intros HW HH.
  assert (Hn : 0 <= Z.min W H <= maxCoord) by lia.
  destruct (mergeMargin_value W H Hn) as [Hdiv Hrest].
  unfold maxCoord in Hn.
  assert (Hi : 0 <= Z.min W H / 20 <= 209715).
  { clear -Hn. Z.div_mod_to_equations. lia. }
  apply inject_Z_range in Hi.
  change (inject_Z 0) with 0%Q in Hi. change (inject_Z 209715) with 209715%Q in Hi.
  destruct (decide (Z.min W H mod 20 = 0)) as [Hmod|Hmod].
  - specialize (Hdiv Hmod). split; [lra|]. exists (Z.min W H / 20). by left.
  - specialize (Hrest Hmod). split; [lra|]. exists (Z.min W H / 20). right. lra.
Qed.

(** The exact test does not tell the double margin from [n / 20]: both lie
    on the same side of every integer. *)
Lemma shouldMerge_margin_exact (a b : CropBox) (W H : Z) :
  0 <= W <= maxCoord -> 0 <= H <= maxCoord ->
  shouldMerge a b (Double.mergeMargin W H) = shouldMerge a b (mergeMargin W H).
Proof.
  intros HW HH.
  assert (Hn : 0 <= Z.min W H <= maxCoord) by lia.
  destruct (mergeMargin_value W H Hn) as [Hdiv Hrest].
  unfold mergeMargin.
  pose proof (Z.div_mod (Z.min W H) 20 ltac:(lia)) as Hdm.
  pose proof (Z.mod_pos_bound (Z.min W H) 20 ltac:(lia)) as Hr.
  set (mD := Double.mergeMargin W H) in *.
  set (n := Z.min W H) in *. set (i := n / 20) in *. set (r := n mod 20) in *.
  assert (Hnq : (inject_Z n == 20 * inject_Z i + inject_Z r)%Q).
  { rewrite Hdm, inject_Z_plus, inject_Z_mult. reflexivity. }
  assert (Hside : forall D : Z,
            ((inject_Z D < mD)%Q <-> (inject_Z D < inject_Z n * (5 # 100))%Q)).
  { intros D. rewrite Hnq.
    destruct (decide (r = 0)) as [Hmod|Hmod].
    - specialize (Hdiv Hmod). rewrite Hdiv, Hmod. change (inject_Z 0) with 0%Q.
      split; intros; lra.
    - specialize (Hrest Hmod).
      assert (Hr1 : 1 <= r <= 19) by lia. apply inject_Z_range in Hr1.
      change (inject_Z 1) with 1%Q in Hr1. change (inject_Z 19) with 19%Q in Hr1.
      destruct (Z_le_gt_dec D i) as [Hz|Hz].
      + rewrite Zle_Qle in Hz. split; intros _; lra.
      + assert (Hz' : i + 1 <= D) by lia.
        rewrite Zle_Qle, inject_Z_plus in Hz'. change (inject_Z 1) with 1%Q in Hz'.
        split; intros; lra. }
  apply eq_true_iff_eq. rewrite !shouldMerge_spec.
  set (mQ := (inject_Z n * (5 # 100))%Q) in *.
  pose proof (Hside (box_x a - box_x b - box_w b)) as H1.
  pose proof (Hside (box_x b - box_x a - box_w a)) as H2.
  pose proof (Hside (box_y a - box_y b - box_h b)) as H3.
  pose proof (Hside (box_y b - box_y a - box_h a)) as H4.
  rewrite !inject_Z_minus in H1, H2, H3, H4.
  split; intros (C1 & C2 & C3 & C4); repeat split.
  all: first [apply proj1 in H1; lra | idtac].
  all: try lra.
Qed.

(** C3 (as the code has it): in double precision the proximity test gives
    the same answer whichever box is expanded, for boxes with integer
    coordinates up to [maxCoord] and every margin up to [maxCoord] that is
    an integer or at least 2^-25 away from every integer; the margins
    [Math.min(w, h) * 0.05] of the merge loop are of that kind, and on them
    the test is also the exact-arithmetic one that models the loop. *)
Theorem shouldMerge_symmetric (a b : CropBox) :
  feasibleBox a -> feasibleBox b ->
  (forall m : Q, (0 <= m <= 4194304)%Q -> clearMargin m ->
     Double.shouldMerge a b m = Double.shouldMerge b a m) /\
  (forall W H : Z, 0 <= W <= maxCoord -> 0 <= H <= maxCoord ->
     Double.shouldMerge a b (Double.mergeMargin W H)
       = Double.shouldMerge b a (Double.mergeMargin W H) /\
     Double.shouldMerge a b (Double.mergeMargin W H)
       = shouldMerge a b (mergeMargin W H)).
Proof.
  intros Ha Hb.
  assert (Hsym : forall m : Q, (0 <= m <= 4194304)%Q -> clearMargin m ->
            Double.shouldMerge a b m = Double.shouldMerge b a m).
  { intros m Hm Hclear.
    rewrite !shouldMerge_double_exact by done. apply shouldMerge_comm. }
  split; [exact Hsym|].
  intros W H HW HH. destruct (mergeMargin_clear W H HW HH) as [Hm Hclear].
  split; [by apply Hsym|].
  rewrite shouldMerge_double_exact by done. by apply shouldMerge_margin_exact.
Qed.

Lemma shouldMerge_symmetric_witness :
  Double.shouldMerge (mkBox 0 0 2 2) (mkBox 3 0 2 2) (3 # 2)
    = Double.shouldMerge (mkBox 3 0 2 2) (mkBox 0 0 2 2) (3 # 2) /\
  Double.shouldMerge (mkBox 0 0 2 2) (mkBox 3 0 2 2) (Double.mergeMargin 30 40)
    = shouldMerge (mkBox 0 0 2 2) (mkBox 3 0 2 2) (mergeMargin 30 40).
Proof.
  assert (Ha : feasibleBox (mkBox 0 0 2 2)) by (unfold feasibleBox, maxCoord; simpl; lia).
  assert (Hb : feasibleBox (mkBox 3 0 2 2)) by (unfold feasibleBox, maxCoord; simpl; lia).
  destruct (shouldMerge_symmetric (mkBox 0 0 2 2) (mkBox 3 0 2 2) Ha Hb) as [Hany Hloop].
  split.
  - apply Hany.
    + unfold Qle. simpl. lia.
    + exists 1. right. unfold Qle. simpl. lia.
  - apply (Hloop 30 40); unfold maxCoord; lia.
Defined.

(** C3 as stated fails: with the margin 9 * 2^-54, itself a double, the box
    (5, 0, 1, 1) merges with (0, 0, 5, 1) but not the other way round: 5
    minus the margin rounds below 5, while 5 plus twice the margin minus
    the margin rounds back to 5. *)
Lemma shouldMerge_not_symmetric :
  ~ (forall (a b : CropBox) (m : Q),
       feasibleBox a -> feasibleBox b ->
       (0 <= m)%Q -> (Double.round m == m)%Q ->
       Double.shouldMerge a b m = Double.shouldMerge b a m).
Proof.
  intros Hclaim.
  specialize (Hclaim (mkBox 5 0 1 1) (mkBox 0 0 5 1) (9 # 18014398509481984)).
  assert (Hne : Double.shouldMerge (mkBox 5 0 1 1) (mkBox 0 0 5 1) (9 # 18014398509481984)
                <> Double.shouldMerge (mkBox 0 0 5 1) (mkBox 5 0 1 1) (9 # 18014398509481984))
    by (vm_compute; discriminate).
  apply Hne, Hclaim.
  - unfold feasibleBox, maxCoord. simpl. lia.
  - unfold feasibleBox, maxCoord. simpl. lia.
  - unfold Qle. simpl. lia.
  - by vm_compute.
Qed.

(** In doubles the contrast formula stores the same byte: for every byte
    [v] the double [1.05 * v + 10] rounds into the array as the exact
    rational does. *)
Lemma adjust_double_agrees (v : Z) :
  0 <= v <= 255 ->
  toUint8Clamp (Qmax 0 (Qmin 255
    (Double.add (Double.mul (Double.round alpha) (inject_Z v)) beta)))
  = adjust (Some v).
Proof.
  intros Hv.
  assert (Hall : forallb (fun v =>
            toUint8Clamp (Qmax 0 (Qmin 255
              (Double.add (Double.mul (Double.round alpha) (inject_Z v)) beta)))
            =? adjust (Some v)) (seqZ 0 256) = true) by (vm_compute; reflexivity).
  rewrite forallb_forall in Hall.
  apply Z.eqb_eq, Hall, list_elem_of_In, elem_of_seqZ. lia.
Qed.
